(** * The value-pairs projection engine of syslog-ng (lib/value-pairs.c)

    A shallow embedding of the selector/merger, of the flat traversal, of
    the hierarchical walker and of the command line builder, together with
    the properties stated about them.

    Conventions of the embedding.
    - A C string is the Rocq [string] of its bytes before the terminating
      NUL; [char_at s i] reads [s[i]] and yields NUL at the terminator.
    - [gint] positions inside a string are [nat]: they never go below zero
      and stay within one past the length of the string.
    - [guint32] bit masks are [Z], bit operations are [Z.land] and [Z.lor].
    - [gboolean] is [bool]. *)

From Stdlib Require Import String Ascii List ZArith Lia Bool Arith Permutation.
From Equations Require Import Equations.
From Equations.Prop Require Import Logic.
Import ListNotations.

Local Open Scope string_scope.
Local Open Scope list_scope.

Set Default Goal Selector "!".

(** ** C library string primitives *)

Module CStr.

Definition NUL : ascii := Ascii.zero.

(** [s[i]], reading the terminator at the end of the string. *)
Definition char_at (s : string) (i : nat) : ascii :=
  match String.get i s with
  | Some c => c
  | None => NUL
  end.

(** [&s[pos]] *)
Definition str_from (s : string) (pos : nat) : string :=
  substring pos (String.length s - pos) s.

(** membership of a byte in a set given as a string *)
Fixpoint mem_char (c : ascii) (set : string) : bool :=
  match set with
  | EmptyString => false
  | String d set' => Ascii.eqb c d || mem_char c set'
  end.

Fixpoint strspn (s accept : string) : nat :=
  match s with
  | EmptyString => 0
  | String c r => if mem_char c accept then S (strspn r accept) else 0
  end.

Fixpoint strcspn (s reject : string) : nat :=
  match s with
  | EmptyString => 0
  | String c r => if mem_char c reject then 0 else S (strcspn r reject)
  end.

Definition isdigit (c : ascii) : bool :=
  ((48 <=? nat_of_ascii c) && (nat_of_ascii c <=? 57))%nat.

(** [strchr(s, c) != NULL] *)
Definition strchr (s : string) (c : ascii) : bool := mem_char c s.

(** [g_strndup(&s[start], n)] *)
Definition g_strndup_from (s : string) (start n : nat) : string :=
  substring start n s.

(** [strncmp(s1, s2, n)]: the difference of the first bytes that differ
    among the first [n]; the comparison ends at a terminator. *)
Fixpoint strncmp (s1 s2 : string) (n : nat) : Z :=
  match n with
  | 0 => 0%Z
  | S n' =>
      match s1, s2 with
      | EmptyString, EmptyString => 0%Z
      | EmptyString, String c2 _ => (- Z.of_nat (nat_of_ascii c2))%Z
      | String c1 _, EmptyString => Z.of_nat (nat_of_ascii c1)
      | String c1 r1, String c2 r2 =>
          if Ascii.eqb c1 c2
          then if Ascii.eqb c1 NUL then 0%Z else strncmp r1 r2 n'
          else (Z.of_nat (nat_of_ascii c1) - Z.of_nat (nat_of_ascii c2))%Z
      end
  end.

(** [strcmp(s1, s2)] *)
Fixpoint strcmp (s1 s2 : string) : Z :=
  match s1, s2 with
  | EmptyString, EmptyString => 0%Z
  | EmptyString, String c2 _ => (- Z.of_nat (nat_of_ascii c2))%Z
  | String c1 _, EmptyString => Z.of_nat (nat_of_ascii c1)
  | String c1 r1, String c2 r2 =>
      if Ascii.eqb c1 c2
      then if Ascii.eqb c1 NUL then 0%Z else strcmp r1 r2
      else (Z.of_nat (nat_of_ascii c1) - Z.of_nat (nat_of_ascii c2))%Z
  end.

(** What a C function reads of a buffer: the bytes before the first NUL. *)
Fixpoint c_str (s : string) : string :=
  match s with
  | EmptyString => EmptyString
  | String c r => if Ascii.eqb c NUL then EmptyString else String c (c_str r)
  end.



End CStr.
Import CStr.

(** ** The key tokenizer of the walker *)

(** The body of the do-while loop of [vp_walker_skip_sdata_enterprise_id]:
    skip the [@] or the [.], then the digits. *)
Definition skip_step (name : string) (pos : nat) : nat :=
  let pos := S pos in
  pos + strspn (str_from name pos) "0123456789".

(** The loop condition: [name[pos] == '.' && isdigit(name[pos + 1])]. *)
Definition skip_again (name : string) (pos : nat) : bool :=
  Ascii.eqb (char_at name pos) "." && isdigit (char_at name (S pos)).

Lemma char_at_lt (name : string) (pos : nat) :
  char_at name pos <> NUL -> pos < String.length name.
Proof.
  unfold char_at. revert pos.
  induction name as [|c r IH]; intros pos H; simpl in *.
  - destruct pos; congruence.
  - destruct pos as [|p]; [lia|]. apply IH in H. lia.
Qed.

Lemma skip_again_lt (name : string) (pos : nat) :
  skip_again name pos = true -> pos < String.length name.
Proof.
  unfold skip_again. intros H. apply andb_true_iff in H as [H _].
  apply Ascii.eqb_eq in H. apply char_at_lt. rewrite H. discriminate.
Qed.

Lemma skip_step_gt (name : string) (pos : nat) : pos < skip_step name pos.
Proof. unfold skip_step. lia. Qed.

Equations? vp_walker_skip_sdata_enterprise_id (name : string) (pos : nat) : nat
  by wf (String.length name - pos) lt :=
vp_walker_skip_sdata_enterprise_id name pos with
    inspect (skip_again name (skip_step name pos)) := {
  | exist _ true Hagain =>
      vp_walker_skip_sdata_enterprise_id name (skip_step name pos)
  | exist _ false Hstop => skip_step name pos }.
Proof.
  apply skip_again_lt in Hagain. pose proof (skip_step_gt name pos). lia.
Qed.

Lemma vp_walker_skip_sdata_enterprise_id_gt (name : string) (pos : nat) :
  pos < vp_walker_skip_sdata_enterprise_id name pos.
Proof.
  funelim (vp_walker_skip_sdata_enterprise_id name pos).
  - pose proof (skip_step_gt name pos). lia.
  - apply skip_step_gt.
Qed.

(** The body of the do-while loop of [vp_walker_split_name_to_tokens]: the
    position after the iteration and the array of tokens. *)
Definition split_step (name : string) (pos : nat) (array : list string)
  : nat * list string :=
  let name_len := String.length name in
  let token_start := pos in
  let pos := pos + strcspn (str_from name pos) "@." in
  let pos :=
    if Ascii.eqb (char_at name pos) "@"
    then vp_walker_skip_sdata_enterprise_id name pos
    else pos in
  if Ascii.eqb (char_at name pos) "." || (pos =? name_len)%nat
  then (S pos, array ++ [g_strndup_from name token_start (pos - token_start)])
  else (pos, array).

Lemma str_from_0 (s : string) : str_from s 0 = s.
Proof.
  unfold str_from. rewrite Nat.sub_0_r.
  induction s as [|c r IH]; simpl; [reflexivity|]. now rewrite IH.
Qed.

Lemma str_from_S (c : ascii) (r : string) (p : nat) :
  str_from (String c r) (S p) = str_from r p.
Proof. reflexivity. Qed.

Lemma strcspn_stop_0 (s reject : string) :
  String.length s <= strcspn s reject \/
  mem_char (char_at s (strcspn s reject)) reject = true.
Proof.
  induction s as [|c r IH]; simpl.
  - left. lia.
  - destruct (mem_char c reject) eqn:E.
    + right. exact E.
    + destruct IH as [IH|IH]; [left; lia | right; exact IH].
Qed.

Lemma strcspn_stop (name reject : string) (pos : nat) :
  String.length name <= pos + strcspn (str_from name pos) reject \/
  mem_char (char_at name (pos + strcspn (str_from name pos) reject)) reject
  = true.
Proof.
  revert pos. induction name as [|c r IH]; intros pos.
  - left. simpl. lia.
  - destruct pos as [|p].
    + rewrite str_from_0. apply strcspn_stop_0.
    + rewrite str_from_S. destruct (IH p) as [H|H].
      * left. simpl. lia.
      * right. exact H.
Qed.

Lemma split_step_progress (name : string) (pos : nat) (array : list string) :
  fst (split_step name pos array) < String.length name ->
  pos < fst (split_step name pos array).
Proof.
  unfold split_step.
  set (p1 := pos + strcspn (str_from name pos) "@.").
  destruct (Ascii.eqb (char_at name p1) "@") eqn:Eat.
  - pose proof (vp_walker_skip_sdata_enterprise_id_gt name p1) as Hgt.
    destruct (_ || _); simpl; subst p1; lia.
  - destruct (Ascii.eqb (char_at name p1) ".") eqn:Edot; simpl.
    + subst p1; lia.
    + destruct (p1 =? String.length name)%nat eqn:Elen; simpl.
      * subst p1; lia.
      * intros Hlt. exfalso.
        destruct (strcspn_stop name "@." pos) as [H|H]; fold p1 in H.
        -- lia.
        -- simpl in H. rewrite Eat, Edot in H. discriminate.
Qed.

Equations? split_loop (name : string) (pos : nat) (array : list string)
  : list string by wf (String.length name - pos) lt :=
split_loop name pos array with
    inspect (fst (split_step name pos array) <? String.length name)%nat := {
  | exist _ true Hlt =>
      split_loop name (fst (split_step name pos array))
                 (snd (split_step name pos array))
  | exist _ false Hge => snd (split_step name pos array) }.
Proof.
  apply Nat.ltb_lt in Hlt.
  pose proof (split_step_progress name pos array Hlt). lia.
Qed.

(** [NULL] is [None]. *)
Definition vp_walker_split_name_to_tokens (name : string)
  : option (list string) :=
  let array := split_loop name 0 [] in
  if (List.length array =? 0)%nat then None else Some array.

(** [vp_walker_name_combine_prefix]: the tokens [0 .. until - 1], each
    followed by a dot, then the token [until]. *)
Definition vp_walker_name_combine_prefix (tokens : list string) (until : nat)
  : string :=
  (fold_left (fun s i => s ++ nth i tokens "" ++ ".") (seq 0 until) ""
   ++ nth until tokens "")%string.

(** ** Data model *)

(** Modelled from the spec: the enumeration of type-hinting.h, which is
    not part of the sources at hand; the code only names
    [TYPE_HINT_STRING]. *)
Inductive TypeHint : Type :=
| TYPE_HINT_STRING
| TYPE_HINT_LITERAL
| TYPE_HINT_BOOLEAN
| TYPE_HINT_INT32
| TYPE_HINT_INT64
| TYPE_HINT_DOUBLE
| TYPE_HINT_DATETIME
| TYPE_HINT_DEFAULT.

Definition VPS_NV_PAIRS : Z := 0x01.
Definition VPS_DOT_NV_PAIRS : Z := 0x02.
Definition VPS_RFC3164 : Z := 0x04.
Definition VPS_RFC5424 : Z := 0x08.
Definition VPS_ALL_MACROS : Z := 0x10.
Definition VPS_SELECTED_MACROS : Z := 0x20.
Definition VPS_SDATA : Z := 0x40.
Definition VPS_EVERYTHING : Z := 0x7f.

Inductive ValuePairType : Type := VPT_MACRO | VPT_NVPAIR.

Definition NVHandle : Type := Z.

Record ValuePairSpec : Type := mkValuePairSpec {
  spec_name : string;
  spec_alt_name : option string;
  spec_type : ValuePairType;
  spec_id : Z
}.

(** A compiled [GPatternSpec] is represented by the text of its pattern. *)
Record VPPatternSpec : Type := mkVPPatternSpec {
  vpp_pattern : string;
  vpp_include : bool
}.

(** Modelled from the spec: the part of [LogTemplate] (templates.h) that
    the code reads, the compiled text and the type hint. *)
Record LogTemplate : Type := mkLogTemplate {
  template_text : string;
  template_type_hint : TypeHint
}.

Record VPPairConf : Type := mkVPPairConf {
  pair_name : string;
  pair_template : LogTemplate
}.

(** Modelled from the spec: the transform steps and sets of vptransform.h
    (section 4.3), as the data the builder accumulates. *)
Inductive ValuePairsTransform : Type :=
| TransformShift (amount : Z)
| TransformAddPrefix (prefix : string)
| TransformReplacePrefix (old_prefix new_prefix : string).

Record ValuePairsTransformSet : Type := mkTransformSet {
  base_key : string;
  steps : list ValuePairsTransform
}.

(** [struct _ValuePairs]; [patterns_size] is the length of [patterns], and
    the reference counter is left out. *)
Record ValuePairs : Type := mkValuePairs {
  patterns : list VPPatternSpec;
  vpairs : list VPPairConf;
  transforms : list ValuePairsTransformSet;
  scopes : Z
}.

Definition patterns_size (vp : ValuePairs) : nat := List.length (patterns vp).

(** A scratch buffer with its type hint. *)
Record SBTHGString : Type := mkSB {
  sb_string : string;
  sb_type_hint : TypeHint
}.

(** ** [GTree]: the balanced tree of glib, by its in-order list of nodes *)

Module Tree.

Record GTree (V : Type) : Type := mkGTree {
  key_compare : string -> string -> Z;
  nodes : list (string * V)
}.
Arguments mkGTree {V} _ _.
Arguments key_compare {V} _ _ _.
Arguments nodes {V} _.

Definition g_tree_new_full {V : Type} (compare_func : string -> string -> Z)
  : GTree V :=
  mkGTree compare_func [].

(** Insertion keeps the nodes in the order of the comparator; on an equal
    key the value is replaced (the tree keeps its own key and frees the
    one passed). *)
Fixpoint insert_nodes {V : Type} (cmp : string -> string -> Z)
  (l : list (string * V)) (key : string) (value : V) : list (string * V) :=
  match l with
  | [] => [(key, value)]
  | (k, v) :: l' =>
      let c := cmp key k in
      if (c =? 0)%Z then (k, value) :: l'
      else if (c <? 0)%Z then (key, value) :: (k, v) :: l'
      else (k, v) :: insert_nodes cmp l' key value
  end.

Definition g_tree_insert {V : Type} (t : GTree V) (key : string) (value : V)
  : GTree V :=
  mkGTree (key_compare t) (insert_nodes (key_compare t) (nodes t) key value).

Fixpoint lookup_nodes {V : Type} (cmp : string -> string -> Z)
  (l : list (string * V)) (key : string) : option V :=
  match l with
  | [] => None
  | (k, v) :: l' =>
      if (cmp key k =? 0)%Z then Some v else lookup_nodes cmp l' key
  end.

Definition g_tree_lookup {V : Type} (t : GTree V) (key : string) : option V :=
  lookup_nodes (key_compare t) (nodes t) key.

(** In-order traversal; it stops as soon as [func] returns [TRUE]. *)
Fixpoint foreach_nodes {V A : Type} (l : list (string * V))
  (func : string -> V -> A -> bool * A) (data : A) : A :=
  match l with
  | [] => data
  | (k, v) :: l' =>
      let (stop, data') := func k v data in
      if stop then data' else foreach_nodes l' func data'
  end.

Definition g_tree_foreach {V A : Type} (t : GTree V)
  (func : string -> V -> A -> bool * A) (data : A) : A :=
  foreach_nodes (nodes t) func data.

End Tree.
Import Tree.

(** ** The collaborators of the engine *)

(** What the engine takes from the rest of the daemon and from glib: the
    glob matcher, the message store, the macro registry, the template
    evaluator, the key transforms and the scratch buffer pool. *)
Class Host : Type := mkHost {
  LogMessage : Type;
  LogTemplateOptions : Type;
  (** [g_pattern_match_string] on the text of the pattern *)
  g_pattern_match_string : string -> string -> bool;
  (** the name-value pairs of a message as [nv_table_foreach] meets them *)
  nv_table_entries : LogMessage -> list (NVHandle * string * string);
  log_msg_is_handle_sdata : NVHandle -> bool;
  log_msg_get_value : LogMessage -> NVHandle -> string;
  log_msg_get_value_handle : string -> NVHandle;
  (** what [log_macro_expand] appends for a macro id *)
  log_macro_expand :
    Z -> LogTemplateOptions -> Z -> Z -> LogMessage -> string;
  (** the id of a macro, 0 when the name is no macro *)
  log_macro_lookup : string -> Z;
  (** the table [macros] of the macro registry: name and id *)
  macros : list (string * Z);
  (** what [log_template_append_format] appends *)
  log_template_append_format :
    LogTemplate -> LogMessage -> LogTemplateOptions -> Z -> Z -> string;
  value_pairs_transform_set_apply : ValuePairsTransformSet -> string -> string;
  (** the type hint a buffer taken from the pool carries *)
  sb_pool_type_hint : TypeHint
}.

(** ** The selector and merger *)

Section Projection.

Context {host : Host}.

Definition vp_pattern_spec_eval (self : VPPatternSpec) (input : string)
  : bool :=
  g_pattern_match_string (vpp_pattern self) input.

(** The loop over the patterns that [vp_msg_nvpairs_foreach] and
    [vp_find_in_set] both run on their inclusion bit:
    [for (j = 0; j < patterns_size; j++)
       if (vp_pattern_spec_eval(patterns[j], name))
         inc = patterns[j]->include;] *)
Fixpoint patterns_loop (pats : list VPPatternSpec) (input : string)
  (inc : bool) : bool :=
  match pats with
  | [] => inc
  | p :: pats' =>
      patterns_loop pats' input
        (if vp_pattern_spec_eval p input then vpp_include p else inc)
  end.

Definition vp_transform_apply (vp : ValuePairs) (key : string) : string :=
  let okey := key in
  match transforms vp with
  | [] => okey
  | _ =>
      fold_left (fun okey t => value_pairs_transform_set_apply t okey)
                (transforms vp) okey
  end.

(** Modelled from the spec: [sb_th_gstring_acquire] of scratch-buffers.c,
    which is not part of the sources at hand.  The engine acquires a
    scratch buffer and appends the value to it (section 4.4): the buffer
    taken from the pool is empty, and carries the type hint the pool left
    in it. *)
Definition sb_th_gstring_acquire : SBTHGString := mkSB "" sb_pool_type_hint.

Definition g_string_append (sb : SBTHGString) (s : string) : SBTHGString :=
  mkSB (sb_string sb ++ s) (sb_type_hint sb).

Definition g_string_append_len (sb : SBTHGString) (s : string) (len : nat)
  : SBTHGString :=
  mkSB (sb_string sb ++ substring 0 len s) (sb_type_hint sb).

Definition set_type_hint (sb : SBTHGString) (t : TypeHint) : SBTHGString :=
  mkSB (sb_string sb) t.

(** [vp->scopes & mask], as a truth value *)
Definition scopes_has (vp : ValuePairs) (mask : Z) : bool :=
  negb (Z.land (scopes vp) mask =? 0)%Z.

(** The arguments every phase shares (the [args] array of
    [value_pairs_foreach_sorted]). *)
Record EvalArgs : Type := mkEvalArgs {
  arg_msg : LogMessage;
  arg_seq_num : Z;
  arg_time_zone_mode : Z;
  arg_template_options : LogTemplateOptions
}.

(** runs over the name-value pairs requested by the user *)
Definition vp_pairs_foreach (vp : ValuePairs) (args : EvalArgs)
  (vpc : VPPairConf) (scope_set : GTree SBTHGString) : GTree SBTHGString :=
  let sb := sb_th_gstring_acquire in
  let sb := set_type_hint sb (template_type_hint (pair_template vpc)) in
  let sb :=
    g_string_append sb
      (log_template_append_format (pair_template vpc) (arg_msg args)
         (arg_template_options args) (arg_time_zone_mode args)
         (arg_seq_num args)) in
  if (String.length (sb_string sb) =? 0)%nat then scope_set
  else g_tree_insert scope_set (vp_transform_apply vp (pair_name vpc)) sb.

(** The inclusion bit [vp_msg_nvpairs_foreach] starts from. *)
Definition nvpairs_seed (vp : ValuePairs) (handle : NVHandle) (name : string)
  : bool :=
  (Ascii.eqb (char_at name 0) "." && scopes_has vp VPS_DOT_NV_PAIRS)
  || (negb (Ascii.eqb (char_at name 0) ".") && scopes_has vp VPS_NV_PAIRS)
  || (log_msg_is_handle_sdata handle
      && scopes_has vp (VPS_SDATA + VPS_RFC5424)).

(** runs over the LogMessage nv-pairs, and inserts them unless excluded;
    the result is the return value and the scope set *)
Definition vp_msg_nvpairs_foreach (vp : ValuePairs) (handle : NVHandle)
  (name value : string) (value_len : nat) (scope_set : GTree SBTHGString)
  : bool * GTree SBTHGString :=
  if (value_len =? 0)%nat then (false, scope_set)
  else
    let inc := nvpairs_seed vp handle name in
    let inc := patterns_loop (patterns vp) name inc in
    if negb inc then (false, scope_set)
    else
      let sb := sb_th_gstring_acquire in
      let sb := g_string_append_len sb value value_len in
      let sb := set_type_hint sb TYPE_HINT_STRING in
      (false, g_tree_insert scope_set (vp_transform_apply vp name) sb).

(** [nv_table_foreach]: calls [func] on each pair until it returns [TRUE]. *)
Fixpoint nv_table_foreach_entries {A : Type}
  (entries : list (NVHandle * string * string))
  (func : NVHandle -> string -> string -> nat -> A -> bool * A) (data : A)
  : A :=
  match entries with
  | [] => data
  | (handle, name, value) :: entries' =>
      let (stop, data') := func handle name value (String.length value) data in
      if stop then data' else nv_table_foreach_entries entries' func data'
  end.

Definition nv_table_foreach {A : Type} (msg : LogMessage)
  (func : NVHandle -> string -> string -> nat -> A -> bool * A) (data : A)
  : A :=
  nv_table_foreach_entries (nv_table_entries msg) func data.

Definition vp_find_in_set (vp : ValuePairs) (name : string) (exclude : bool)
  : bool :=
  let included := exclude in
  patterns_loop (patterns vp) name included.

(** What one entry of a set renders to. *)
Definition render_spec (args : EvalArgs) (e : ValuePairSpec) (sb : SBTHGString)
  : SBTHGString :=
  match spec_type e with
  | VPT_MACRO =>
      g_string_append sb
        (log_macro_expand (spec_id e) (arg_template_options args)
           (arg_time_zone_mode args) (arg_seq_num args) (arg_msg args))
  | VPT_NVPAIR =>
      let nv := log_msg_get_value (arg_msg args) (spec_id e) in
      g_string_append_len sb nv (String.length nv)
  end.

Fixpoint vp_merge_other_set (vp : ValuePairs) (args : EvalArgs)
  (set : list ValuePairSpec) (dest : GTree SBTHGString) (exclude : bool)
  : GTree SBTHGString :=
  match set with
  | [] => dest
  | e :: set' =>
      if negb (vp_find_in_set vp (spec_name e) exclude)
      then vp_merge_other_set vp args set' dest exclude
      else
        let sb := sb_th_gstring_acquire in
        let sb := render_spec args e sb in
        if (String.length (sb_string sb) =? 0)%nat
        then vp_merge_other_set vp args set' dest exclude
        else
          vp_merge_other_set vp args set'
            (g_tree_insert dest (vp_transform_apply vp (spec_name e)) sb)
            exclude
  end.

(** [value_pairs_init_set]: resolve each name to a macro or to a handle. *)
Definition value_pairs_init_set (set : list ValuePairSpec)
  : list ValuePairSpec :=
  map (fun e =>
         let name :=
           match spec_alt_name e with
           | Some alt => alt
           | None => spec_name e
           end in
         let id := log_macro_lookup name in
         if negb (id =? 0)%Z
         then mkValuePairSpec (spec_name e) (spec_alt_name e) VPT_MACRO id
         else mkValuePairSpec (spec_name e) (spec_alt_name e) VPT_NVPAIR
                (log_msg_get_value_handle name))
      set.

Definition static_spec (name : string) : ValuePairSpec :=
  mkValuePairSpec name None VPT_MACRO 0.

(** The static tables, as [value_pairs_new] leaves them. *)
Definition rfc3164 : list ValuePairSpec :=
  value_pairs_init_set
    (map static_spec
       ["FACILITY"; "PRIORITY"; "HOST"; "PROGRAM"; "PID"; "MESSAGE"; "DATE"]).

Definition rfc5424 : list ValuePairSpec :=
  value_pairs_init_set (map static_spec ["MSGID"]).

Definition selected_macros : list ValuePairSpec :=
  value_pairs_init_set (map static_spec ["TAGS"; "SOURCEIP"; "SEQNUM"]).

Definition all_macros : list ValuePairSpec :=
  map (fun m => mkValuePairSpec (fst m) None VPT_MACRO (snd m)) macros.

(** runs over the all macros and merges the selected ones by the pattern *)
Definition vp_merge_macros (vp : ValuePairs) (args : EvalArgs)
  (dest : GTree SBTHGString) : GTree SBTHGString :=
  vp_merge_other_set vp args all_macros dest false.

(** runs over a set of ValuePairSpec structs and merges them *)
Definition vp_merge_set (vp : ValuePairs) (args : EvalArgs)
  (set : list ValuePairSpec) (dest : GTree SBTHGString) : GTree SBTHGString :=
  vp_merge_other_set vp args set dest true.

(** The condition under which the name-value pairs of the message are
    run over. *)
Definition nvpairs_phase (vp : ValuePairs) : bool :=
  scopes_has vp (VPS_NV_PAIRS + VPS_DOT_NV_PAIRS + VPS_SDATA + VPS_RFC5424)
  || (0 <? patterns_size vp)%nat.

(** The first phase of [value_pairs_foreach_sorted]: the name-value pairs
    of the message. *)
Definition value_pairs_nvpairs_set (vp : ValuePairs) (args : EvalArgs)
  (scope_set : GTree SBTHGString) : GTree SBTHGString :=
  if nvpairs_phase vp
  then nv_table_foreach (arg_msg args) (vp_msg_nvpairs_foreach vp) scope_set
  else scope_set.

(** The derived phases of [value_pairs_foreach_sorted], up to the explicit
    pairs. *)
Definition value_pairs_base_set (vp : ValuePairs) (args : EvalArgs)
  (scope_set : GTree SBTHGString) : GTree SBTHGString :=
  let scope_set := value_pairs_nvpairs_set vp args scope_set in
  let scope_set :=
    if (0 <? patterns_size vp)%nat
    then vp_merge_macros vp args scope_set else scope_set in
  let scope_set :=
    if scopes_has vp (VPS_RFC3164 + VPS_RFC5424 + VPS_SELECTED_MACROS)
    then vp_merge_set vp args rfc3164 scope_set else scope_set in
  let scope_set :=
    if scopes_has vp VPS_RFC5424
    then vp_merge_set vp args rfc5424 scope_set else scope_set in
  let scope_set :=
    if scopes_has vp VPS_SELECTED_MACROS
    then vp_merge_set vp args selected_macros scope_set else scope_set in
  let scope_set :=
    if scopes_has vp VPS_ALL_MACROS
    then vp_merge_set vp args all_macros scope_set else scope_set in
  scope_set.

(** The scope set [value_pairs_foreach_sorted] hands to the callback:
    the base set, then the explicit key-value pairs
    ([g_ptr_array_foreach] over [vp->vpairs]). *)
Definition value_pairs_scope_set (vp : ValuePairs)
  (compare_func : string -> string -> Z) (args : EvalArgs)
  : GTree SBTHGString :=
  let scope_set := g_tree_new_full compare_func in
  let scope_set := value_pairs_base_set vp args scope_set in
  fold_left (fun scope_set vpc => vp_pairs_foreach vp args vpc scope_set)
            (vpairs vp) scope_set.

(** [VPForeachFunc]: name, type, value, user data; [TRUE] signals failure.
    The user data is threaded through the calls. *)
Definition VPForeachFunc (A : Type) : Type :=
  string -> TypeHint -> string -> A -> bool * A.

(** The state of [vp_foreach_helper] is the user data and [*r].  The
    callback is handed the pointer [->str] of the buffer, a [const gchar *]
    without the length: what it reads is the bytes up to the first NUL. *)
Definition vp_foreach_helper {A : Type} (func : VPForeachFunc A)
  (name : string) (hinted_value : SBTHGString) (data : A * bool)
  : bool * (A * bool) :=
  let '(user_data, r) := data in
  let (failed, user_data) :=
    func name (sb_type_hint hinted_value) (c_str (sb_string hinted_value))
         user_data in
  let r := r && negb failed in
  (negb r, (user_data, r)).

(** The result and the user data after the calls. *)
Definition value_pairs_foreach_sorted {A : Type} (vp : ValuePairs)
  (func : VPForeachFunc A) (compare_func : string -> string -> Z)
  (args : EvalArgs) (user_data : A) : bool * A :=
  let result := true in
  let scope_set := value_pairs_scope_set vp compare_func args in
  let '(user_data, result) :=
    g_tree_foreach scope_set (vp_foreach_helper func) (user_data, result) in
  (result, user_data).

Definition value_pairs_foreach {A : Type} (vp : ValuePairs)
  (func : VPForeachFunc A) (args : EvalArgs) (user_data : A) : bool * A :=
  value_pairs_foreach_sorted vp func strcmp args user_data.

End Projection.

(** ** The walker *)

Section Walker.

Context {host : Host}.

(** [U] is what the consumer keeps behind [user_data]; [D] is what it
    keeps behind the [gpointer] slot of a container. *)
Context {U D : Type}.

(** A [gpointer] slot: [None] is [NULL]. *)
Definition gpointer : Type := option D.

(** What a container callback leaves behind: its return value, the
    contents of [*prefix_data] and of [*prev_data] (read back only when
    the pointer passed was not [NULL]) and the user data. *)
Record VPWalkResult : Type := mkWalkResult {
  wr_ret : bool;
  wr_prefix_data : gpointer;
  wr_prev_data : gpointer;
  wr_user_data : U
}.

(** A callback taking [name], [prefix], [gpointer *prefix_data], [prev],
    [gpointer *prev_data] and [user_data]; a [NULL] string or pointer is
    [None]. *)
Definition VPWalkCallbackFunc : Type :=
  option string -> option string -> option gpointer ->
  option string -> option gpointer -> U -> VPWalkResult.

Record VPWalkValueResult : Type := mkWalkValueResult {
  wv_ret : bool;
  wv_prefix_data : gpointer;
  wv_user_data : U
}.

(** A callback taking [name], [prefix], [type], [value],
    [gpointer *prefix_data] and [user_data]. *)
Definition VPWalkValueCallbackFunc : Type :=
  string -> option string -> TypeHint -> string -> option gpointer -> U ->
  VPWalkValueResult.

Record vp_walk_stack_data_t : Type := mkFrame {
  key : string;
  prefix : string;
  prefix_len : nat;
  data : gpointer
}.

Definition set_data (t : vp_walk_stack_data_t) (d : gpointer)
  : vp_walk_stack_data_t :=
  mkFrame (key t) (prefix t) (prefix_len t) d.

(** [vp_stack_t]: the elements with the top of the stack first. *)
Definition vp_stack_t : Type := list vp_walk_stack_data_t.

Definition vp_stack_push (stack : vp_stack_t) (data : vp_walk_stack_data_t)
  : vp_stack_t := data :: stack.

Definition vp_stack_peek (stack : vp_stack_t) : option vp_walk_stack_data_t :=
  match stack with
  | [] => None
  | t :: _ => Some t
  end.

Definition vp_stack_pop (stack : vp_stack_t)
  : option vp_walk_stack_data_t * vp_stack_t :=
  match stack with
  | [] => (None, [])
  | t :: rest => (Some t, rest)
  end.

Definition vp_stack_height (stack : vp_stack_t) : nat := List.length stack.

(** The callbacks of [vp_walk_state_t] stay the same during a walk. *)
Variable obj_start : VPWalkCallbackFunc.
Variable obj_end : VPWalkCallbackFunc.
Variable process_value : VPWalkValueCallbackFunc.

(** The part of [vp_walk_state_t] that changes. *)
Record vp_walk_state_t : Type := mkWalkState {
  user_data : U;
  stack : vp_stack_t
}.

Definition vp_walker_stack_push (stack : vp_stack_t) (key prefix : string)
  : vp_walk_stack_data_t * vp_stack_t :=
  let nt := mkFrame key prefix (String.length prefix) None in
  (nt, vp_stack_push stack nt).

(** [name && strncmp(name, t->prefix, t->prefix_len) == 0] *)
Definition unwind_match (name : option string) (t : vp_walk_stack_data_t)
  : bool :=
  match name with
  | None => false
  | Some name => (strncmp name (prefix t) (prefix_len t) =? 0)%Z
  end.

(** The loop of [vp_walker_stack_unwind_containers_until] once the frame
    [t] has been popped off [below]. *)
Fixpoint unwind_popped (t : vp_walk_stack_data_t) (below : vp_stack_t)
  (user : U) (name : option string) : vp_walk_state_t :=
  if unwind_match name t then
    (* This one matched, put it back *)
    mkWalkState user (vp_stack_push below t)
  else
    match below with
    | p :: below' =>
        let out :=
          obj_end (Some (key t)) (Some (prefix t)) (Some (data t))
                  (Some (prefix p)) (Some (data p)) user in
        unwind_popped (set_data p (wr_prev_data out)) below'
                      (wr_user_data out) name
    | [] =>
        let out :=
          obj_end (Some (key t)) (Some (prefix t)) (Some (data t))
                  None None user in
        mkWalkState (wr_user_data out) []
    end.

Definition vp_walker_stack_unwind_containers_until (state : vp_walk_state_t)
  (name : option string) : vp_walk_state_t :=
  match vp_stack_pop (stack state) with
  | (None, _) => state
  | (Some t, below) => unwind_popped t below (user_data state) name
  end.

Definition vp_walker_stack_unwind_all_containers (state : vp_walk_state_t)
  : vp_walk_state_t :=
  vp_walker_stack_unwind_containers_until state None.

(** One round of the loop of [vp_walker_start_containers_for_name]:
    peek, push the new frame, call [obj_start] on the slot of the new frame
    and on the slot of the frame below it. *)
Definition start_container (tokens : list string) (state : vp_walk_state_t)
  (i : nat) : vp_walk_state_t :=
  let (nt, _) :=
    vp_walker_stack_push (stack state) (nth i tokens "")
                         (vp_walker_name_combine_prefix tokens i) in
  match stack state with
  | p :: below =>
      let out :=
        obj_start (Some (key nt)) (Some (prefix nt)) (Some (data nt))
                  (Some (prefix p)) (Some (data p)) (user_data state) in
      mkWalkState (wr_user_data out)
        (set_data nt (wr_prefix_data out)
         :: set_data p (wr_prev_data out) :: below)
  | [] =>
      let out :=
        obj_start (Some (key nt)) (Some (prefix nt)) (Some (data nt))
                  None None (user_data state) in
      mkWalkState (wr_user_data out) [set_data nt (wr_prefix_data out)]
  end.

(** The key and the state.  The tokenizer never returns [NULL]
    ([split_name_never_null] below), so the first case is not met. *)
Definition vp_walker_start_containers_for_name (state : vp_walk_state_t)
  (name : string) : string * vp_walk_state_t :=
  match vp_walker_split_name_to_tokens name with
  | None => ("", state)
  | Some tokens =>
      let start := vp_stack_height (stack state) in
      let state :=
        fold_left (start_container tokens)
                  (seq start (List.length tokens - 1 - start)) state in
      (nth (List.length tokens - 1) tokens "", state)
  end.

(** The return value and the state. *)
Definition value_pairs_walker (name : string) (type : TypeHint)
  (value : string) (state : vp_walk_state_t) : bool * vp_walk_state_t :=
  let state := vp_walker_stack_unwind_containers_until state (Some name) in
  let (key, state) := vp_walker_start_containers_for_name state name in
  match stack state with
  | top :: below =>
      let out :=
        process_value key (Some (prefix top)) type value
                      (Some (data top)) (user_data state) in
      (wv_ret out,
       mkWalkState (wv_user_data out)
                   (set_data top (wv_prefix_data out) :: below))
  | [] =>
      let out := process_value key None type value None (user_data state) in
      (wv_ret out, mkWalkState (wv_user_data out) [])
  end.

Definition vp_walk_cmp (s1 s2 : string) : Z := strcmp s2 s1.

(** The result and the user data after the walk. *)
Definition value_pairs_walk (vp : ValuePairs) (args : EvalArgs)
  (user : U) : bool * U :=
  let state := mkWalkState user [] in
  let out := obj_start None None None None None (user_data state) in
  let state := mkWalkState (wr_user_data out) (stack state) in
  let (result, state) :=
    value_pairs_foreach_sorted vp value_pairs_walker vp_walk_cmp args state in
  let state := vp_walker_stack_unwind_all_containers state in
  let out := obj_end None None None None None (user_data state) in
  (result, wr_user_data out).

End Walker.

(** ** What a consumer sees: the calls it receives, in order *)

Section Tracing.

Context {U D : Type}.

(** One call of the flat callback, with what it returned. *)
Record foreach_call : Type := mkCall {
  call_name : string;
  call_type : TypeHint;
  call_value : string;
  call_ret : bool
}.

(** The flat callback [func], made to note each call it receives. *)
Definition traced_func (func : VPForeachFunc U)
  : VPForeachFunc (U * list foreach_call) :=
  fun name type value ut =>
    let (ret, u) := func name type value (fst ut) in
    (ret, (u, snd ut ++ [mkCall name type value ret])).

(** One call of a callback of the walker, with its arguments; a value call
    also carries what [process_value] returned. *)
Inductive walk_event : Type :=
| EvObjStart (name prefix : option string) (prefix_data : option (@gpointer D))
    (prev : option string) (prev_data : option (@gpointer D))
| EvValue (name : string) (prefix : option string) (type : TypeHint)
    (value : string) (prefix_data : option (@gpointer D)) (ret : bool)
| EvObjEnd (name prefix : option string) (prefix_data : option (@gpointer D))
    (prev : option string) (prev_data : option (@gpointer D)).

Definition traced_obj_start (f : @VPWalkCallbackFunc U D)
  : @VPWalkCallbackFunc (U * list walk_event) D :=
  fun name prefix prefix_data prev prev_data ut =>
    let out := f name prefix prefix_data prev prev_data (fst ut) in
    mkWalkResult (wr_ret out) (wr_prefix_data out) (wr_prev_data out)
      (wr_user_data out,
       snd ut ++ [EvObjStart name prefix prefix_data prev prev_data]).

Definition traced_obj_end (f : @VPWalkCallbackFunc U D)
  : @VPWalkCallbackFunc (U * list walk_event) D :=
  fun name prefix prefix_data prev prev_data ut =>
    let out := f name prefix prefix_data prev prev_data (fst ut) in
    mkWalkResult (wr_ret out) (wr_prefix_data out) (wr_prev_data out)
      (wr_user_data out,
       snd ut ++ [EvObjEnd name prefix prefix_data prev prev_data]).

Definition traced_process_value (f : @VPWalkValueCallbackFunc U D)
  : @VPWalkValueCallbackFunc (U * list walk_event) D :=
  fun name prefix type value prefix_data ut =>
    let out := f name prefix type value prefix_data (fst ut) in
    mkWalkValueResult (wv_ret out) (wv_prefix_data out)
      (wv_user_data out,
       snd ut ++ [EvValue name prefix type value prefix_data (wv_ret out)]).

Definition is_obj_start (e : walk_event) : bool :=
  match e with EvObjStart _ _ _ _ _ => true | _ => false end.

Definition is_obj_end (e : walk_event) : bool :=
  match e with EvObjEnd _ _ _ _ _ => true | _ => false end.

Definition is_value (e : walk_event) : bool :=
  match e with EvValue _ _ _ _ _ _ => true | _ => false end.

(** a value call whose callback signalled failure *)
Definition value_failed (e : walk_event) : bool :=
  match e with EvValue _ _ _ _ _ ret => ret | _ => false end.

(** The container a start or end call names: key, prefix and the prefix
    of the container around it. *)
Definition container_of (e : walk_event)
  : option string * option string * option string :=
  match e with
  | EvObjStart name prefix _ prev _ => (name, prefix, prev)
  | EvObjEnd name prefix _ prev _ => (name, prefix, prev)
  | EvValue name prefix _ _ _ _ => (Some name, prefix, None)
  end.


(** The calls of a walk, nested as a tree: below the container of prefix
    [p] a trace is a sequence of values delivered to [p] and of containers
    opened in [p], each closed after a nested trace of its own. *)
Inductive nested : option string -> list walk_event -> Prop :=
| nested_nil : forall p, nested p []
| nested_value : forall p name type value d ret tr,
    nested p tr ->
    nested p (EvValue name p type value d ret :: tr)
| nested_obj : forall p k pre d pd d' pd' body tr,
    nested (Some pre) body ->
    nested p tr ->
    nested p (EvObjStart (Some k) (Some pre) d p pd
              :: body ++ EvObjEnd (Some k) (Some pre) d' p pd' :: tr).

(** The whole walk with a consumer noting the calls: the result and the
    calls. *)
Definition value_pairs_walk_trace {host : Host} (vp : ValuePairs)
  (obj_start_func : @VPWalkCallbackFunc U D)
  (process_value_func : @VPWalkValueCallbackFunc U D)
  (obj_end_func : @VPWalkCallbackFunc U D)
  (args : EvalArgs) (user : U) : bool * list walk_event :=
  let (result, ut) :=
    value_pairs_walk (traced_obj_start obj_start_func)
      (traced_obj_end obj_end_func)
      (traced_process_value process_value_func) vp args (user, []) in
  (result, snd ut).

(** The flat traversal with a callback noting the calls. *)
Definition value_pairs_foreach_trace {host : Host} (vp : ValuePairs)
  (func : VPForeachFunc U) (compare_func : string -> string -> Z)
  (args : EvalArgs) (user : U) : bool * list foreach_call :=
  let (result, ut) :=
    value_pairs_foreach_sorted vp (traced_func func) compare_func args
                               (user, []) in
  (result, snd ut).

End Tracing.

(** ** The command line builder *)

Module GLib.

Definition g_ascii_isalnum (c : ascii) : bool :=
  let n := nat_of_ascii c in
  (((48 <=? n) && (n <=? 57)) || ((65 <=? n) && (n <=? 90))
   || ((97 <=? n) && (n <=? 122)))%nat.

Definition g_ascii_toupper (c : ascii) : ascii :=
  let n := nat_of_ascii c in
  if ((97 <=? n) && (n <=? 122))%nat then ascii_of_nat (n - 32) else c.

(** the position of the first [c] in [s], if any *)
Fixpoint index_of (c : ascii) (s : string) : option nat :=
  match s with
  | EmptyString => None
  | String d r =>
      if Ascii.eqb c d then Some 0
      else match index_of c r with
           | Some i => Some (S i)
           | None => None
           end
  end.

Fixpoint split_on (delim : ascii) (s cur : string) : list string :=
  match s with
  | EmptyString => [cur]
  | String c r =>
      if Ascii.eqb c delim then cur :: split_on delim r ""
      else split_on delim r (cur ++ String c "")
  end.

(** [g_strsplit(s, delim, -1)] for a delimiter of one byte; the empty
    string has no token. *)
Definition g_strsplit (s : string) (delim : ascii) : list string :=
  match s with
  | EmptyString => []
  | _ => split_on delim s ""
  end.

(** [g_strsplit(s, delim, 2)]: split at the first delimiter only. *)
Definition g_strsplit_2 (s : string) (delim : ascii) : list string :=
  match s with
  | EmptyString => []
  | _ =>
      match index_of delim s with
      | None => [s]
      | Some i =>
          [substring 0 i s; substring (S i) (String.length s - S i) s]
      end
  end.

(** [isspace] in the C locale: blank, tab, line feed, vertical tab, form
    feed and carriage return. *)
Definition isspace (c : ascii) : bool :=
  let n := nat_of_ascii c in
  ((n =? 32) || ((9 <=? n) && (n <=? 13)))%nat.

Definition LONG_MAX : Z := 9223372036854775807.
Definition LONG_MIN : Z := -9223372036854775808.

(** the value [strtol] returns for a number: it saturates at the bounds
    of [long] *)
Definition long_saturate (z : Z) : Z := Z.max LONG_MIN (Z.min LONG_MAX z).

(** the conversion of a [long] to [gint]: the low 32 bits, signed *)
Definition gint_of_long (z : Z) : Z :=
  ((z + 2147483648) mod 4294967296 - 2147483648)%Z.

(** the leading decimal digits *)
Fixpoint atoi_digits (s : string) (acc : Z) : Z :=
  match s with
  | EmptyString => acc
  | String c r =>
      if isdigit c
      then atoi_digits r (10 * acc + (Z.of_nat (nat_of_ascii c) - 48))%Z
      else acc
  end.

(** [atoi] of the C library, which is [(int) strtol (s, NULL, 10)]: white
    space, a sign, then the leading decimal digits, the number saturated
    at the bounds of [long] and converted to [int]. *)
Fixpoint atoi (s : string) : Z :=
  match s with
  | EmptyString => 0%Z
  | String c r =>
      if isspace c then atoi r
      else if Ascii.eqb c "-"
           then gint_of_long (long_saturate (- atoi_digits r 0))
      else if Ascii.eqb c "+"
           then gint_of_long (long_saturate (atoi_digits r 0))
      else gint_of_long (long_saturate (atoi_digits s 0))
  end.

(** What glib hands to the callbacks of an option group, in the order of
    the command line: an argument matched by its long name or by its short
    name with the value it takes, or an argument that is no option. *)
Inductive GOptionArg : Type :=
| LongOption (long_name : string) (value : string)
| ShortOption (short_name : ascii) (value : string)
| Remaining (value : string).

End GLib.
Import GLib.

(** The errors the builder reports through [GError]. *)
Inductive GError : Type :=
| ErrUnknownScope (scope : string)
| ErrPairExpectedEqualSign
| ErrReplacePrefixWithoutKey
| ErrReplacePrefixFormat
| ErrAddPrefixWithoutKey
| ErrShiftWithoutKey
| ErrTemplate (text : string)
| ErrTypeHint (type : option string)
| ErrUnknownOption (arg : string).

Inductive CfgFlagOp : Type := CFH_SET | CFH_CLEAR.

Record CfgFlagHandler : Type := mkFlag {
  flag_name : string;
  flag_op : CfgFlagOp;
  flag_param : Z
}.

Definition value_pair_scope : list CfgFlagHandler :=
  [ mkFlag "nv-pairs" CFH_SET VPS_NV_PAIRS;
    mkFlag "dot-nv-pairs" CFH_SET VPS_DOT_NV_PAIRS;
    mkFlag "all-nv-pairs" CFH_SET (Z.lor VPS_NV_PAIRS VPS_DOT_NV_PAIRS);
    mkFlag "rfc3164" CFH_SET VPS_RFC3164;
    mkFlag "core" CFH_SET VPS_RFC3164;
    mkFlag "base" CFH_SET VPS_RFC3164;
    mkFlag "rfc5424" CFH_SET VPS_RFC5424;
    mkFlag "syslog-proto" CFH_SET VPS_RFC5424;
    mkFlag "all-macros" CFH_SET VPS_ALL_MACROS;
    mkFlag "selected-macros" CFH_SET VPS_SELECTED_MACROS;
    mkFlag "sdata" CFH_SET VPS_SDATA;
    mkFlag "everything" CFH_SET VPS_EVERYTHING ].

(** Modelled from the spec: [cfg_process_flag] of cfg.c, which is not part
    of the sources at hand.  A name of the table sets its bits in the mask
    (bitwise or, section 6 and section 9); any other name is refused. *)
Fixpoint cfg_process_flag_spec (handlers : list CfgFlagHandler) (field : Z)
  (flag : string) : bool * Z :=
  match handlers with
  | [] => (false, field)
  | h :: handlers' =>
      if String.eqb (flag_name h) flag then (true, Z.lor field (flag_param h))
      else cfg_process_flag_spec handlers' field flag
  end.

(** Modelled from the spec: the constructors of vptransform.c, which is
    not part of the sources at hand (section 4.3). *)
Definition value_pairs_transform_set_new (key : string)
  : ValuePairsTransformSet :=
  mkTransformSet key [].

Definition value_pairs_transform_set_add_func (vpts : ValuePairsTransformSet)
  (t : ValuePairsTransform) : ValuePairsTransformSet :=
  mkTransformSet (base_key vpts) (steps vpts ++ [t]).

Definition value_pairs_new_transform_shift (amount : Z) : ValuePairsTransform :=
  TransformShift amount.

Definition value_pairs_new_transform_add_prefix (prefix : string)
  : ValuePairsTransform :=
  TransformAddPrefix prefix.

Definition value_pairs_new_transform_replace_prefix (old_prefix new_prefix : string)
  : ValuePairsTransform :=
  TransformReplacePrefix old_prefix new_prefix.

(** Modelled from the spec: what a transform step does to a key
    (section 4.3); the shift is clamped to the length of the key. *)
Definition transform_step_apply (t : ValuePairsTransform) (key : string)
  : string :=
  match t with
  | TransformShift amount =>
      let n := Z.to_nat amount in
      substring n (String.length key - n) key
  | TransformAddPrefix p => (p ++ key)%string
  | TransformReplacePrefix old new =>
      if String.prefix old key
      then (new ++ substring (String.length old)
                     (String.length key - String.length old) key)%string
      else key
  end.

Definition value_pairs_transform_set_apply_spec (vpts : ValuePairsTransformSet)
  (key : string) : string :=
  fold_left (fun k t => transform_step_apply t k) (steps vpts) key.

Definition value_pairs_new : ValuePairs := mkValuePairs [] [] [] 0.

Definition value_pairs_add_glob_pattern (vp : ValuePairs) (pattern : string)
  (include : bool) : ValuePairs :=
  mkValuePairs (patterns vp ++ [mkVPPatternSpec pattern include]) (vpairs vp)
               (transforms vp) (scopes vp).

Definition value_pairs_add_glob_patterns (vp : ValuePairs)
  (pats : list string) (include : bool) : ValuePairs :=
  fold_left (fun vp l => value_pairs_add_glob_pattern vp l include) pats vp.

Definition value_pairs_add_pair (vp : ValuePairs) (key : string)
  (value : LogTemplate) : ValuePairs :=
  mkValuePairs (patterns vp) (vpairs vp ++ [mkVPPairConf key value])
               (transforms vp) (scopes vp).

Definition value_pairs_add_transforms (vp : ValuePairs)
  (vpts : ValuePairsTransformSet) : ValuePairs :=
  mkValuePairs (patterns vp) (vpairs vp) (transforms vp ++ [vpts]) (scopes vp).

(** the number of leading bytes of [s] that satisfy [f] *)
Fixpoint skip_while (f : ascii -> bool) (s : string) : nat :=
  match s with
  | EmptyString => 0
  | String c r => if f c then S (skip_while f r) else 0
  end.

(** [value_pairs_parse_type]: the value and the type of [TYPE(VALUE)], or
    the whole of [spec] and no type. *)
Definition value_pairs_parse_type (spec : string) : string * option string :=
  let sp := 0 in
  let sp :=
    sp + skip_while (fun c => g_ascii_isalnum c || Ascii.eqb c "_")
                    (str_from spec sp) in
  let sp :=
    sp + skip_while (fun c => Ascii.eqb c " " || Ascii.eqb c "009")
                    (str_from spec sp) in
  let first := nat_of_ascii (g_ascii_toupper (char_at spec 0)) in
  if negb (Ascii.eqb (char_at spec sp) "(")
     || negb (((65 <=? first) && (first <=? 90))%nat
              || Ascii.eqb (char_at spec 0) "_")
  then (spec, None)
  else
    match index_of ")" (str_from spec sp) with
    | None => (spec, None)
    | Some off =>
        let ep := sp + off in
        if negb (Ascii.eqb (char_at spec (S ep)) NUL) then (spec, None)
        else (substring (S sp) (ep - S sp) spec, Some (substring 0 sp spec))
    end.

Section Builder.

(** [cfg_process_flag] on the field [scopes]: whether the flag is known,
    and the field afterwards. *)
Variable cfg_process_flag : list CfgFlagHandler -> Z -> string -> bool * Z.

(** The template engine: a fresh template, compiling a text into it and
    setting its type hint from the name of a type; [None] is failure. *)
Variable log_template_new : LogTemplate.
Variable log_template_compile : LogTemplate -> string -> option LogTemplate.
Variable log_template_set_type_hint :
  LogTemplate -> option string -> option LogTemplate.

Definition value_pairs_add_scope (vp : ValuePairs) (scope : string)
  : bool * ValuePairs :=
  let (ok, field) := cfg_process_flag value_pair_scope (scopes vp) scope in
  (ok, mkValuePairs (patterns vp) (vpairs vp) (transforms vp) field).

(** The array [user_data_args] of [value_pairs_new_from_cmdline] without
    the configuration: the object being built, the open transform set and
    the key of the open rekey context. *)
Record cmdline_args : Type := mkArgs {
  args_vp : ValuePairs;
  args_vpts : option ValuePairsTransformSet;
  args_key : option string
}.

(** What a callback returns: [None] is [TRUE], [Some e] is [FALSE] with
    the error set; and the arguments it leaves. *)
Definition GOptionArgFunc : Type :=
  string -> cmdline_args -> option GError * cmdline_args.

Definition vp_cmdline_parse_rekey_finish (data : cmdline_args)
  : cmdline_args :=
  let vp :=
    match args_vpts data with
    | Some vpts => value_pairs_add_transforms (args_vp data) vpts
    | None => args_vp data
    end in
  mkArgs vp None None.

(** The loop of [vp_cmdline_parse_scope] over the scopes. *)
Fixpoint add_scopes (vp : ValuePairs) (scopes : list string)
  : option GError * ValuePairs :=
  match scopes with
  | [] => (None, vp)
  | scope :: scopes' =>
      let (ok, vp') := value_pairs_add_scope vp scope in
      if negb ok then (Some (ErrUnknownScope scope), vp')
      else add_scopes vp' scopes'
  end.

Definition vp_cmdline_parse_scope : GOptionArgFunc :=
  fun value data =>
    let data := vp_cmdline_parse_rekey_finish data in
    let scopes := g_strsplit value "," in
    let (err, vp) := add_scopes (args_vp data) scopes in
    (err, mkArgs vp (args_vpts data) (args_key data)).

Definition vp_cmdline_parse_exclude : GOptionArgFunc :=
  fun value data =>
    let data := vp_cmdline_parse_rekey_finish data in
    let excludes := g_strsplit value "," in
    let vp :=
      fold_left (fun vp e => value_pairs_add_glob_pattern vp e false)
                excludes (args_vp data) in
    (None, mkArgs vp (args_vpts data) (args_key data)).

Definition vp_cmdline_start_key (data : cmdline_args) (key : string)
  : cmdline_args :=
  let data := vp_cmdline_parse_rekey_finish data in
  mkArgs (args_vp data) (args_vpts data) (Some key).

Definition vp_cmdline_parse_key : GOptionArgFunc :=
  fun value data =>
    let data := vp_cmdline_start_key data value in
    let keys := g_strsplit value "," in
    let vp :=
      fold_left (fun vp k => value_pairs_add_glob_pattern vp k true)
                keys (args_vp data) in
    (None, mkArgs vp (args_vpts data) (args_key data)).

Definition vp_cmdline_parse_rekey : GOptionArgFunc :=
  fun value data => (None, vp_cmdline_start_key data value).

Definition vp_cmdline_parse_pair : GOptionArgFunc :=
  fun value data =>
    let data := vp_cmdline_parse_rekey_finish data in
    if negb (strchr value "=") then (Some ErrPairExpectedEqualSign, data)
    else
      let kv := g_strsplit_2 value "=" in
      let (v, t) := value_pairs_parse_type (nth 1 kv "") in
      let template := log_template_new in
      match log_template_compile template v with
      | None => (Some (ErrTemplate v), data)
      | Some template =>
          match log_template_set_type_hint template t with
          | None => (Some (ErrTypeHint t), data)
          | Some template =>
              (None,
               mkArgs (value_pairs_add_pair (args_vp data) (nth 0 kv "")
                                            template)
                      (args_vpts data) (args_key data))
          end
      end.

Definition vp_cmdline_parse_pair_or_key : GOptionArgFunc :=
  fun value data =>
    if negb (strchr value "=") then vp_cmdline_parse_key value data
    else vp_cmdline_parse_pair value data.

(** The transform set the step goes to, if there is one, and the
    arguments. *)
Definition vp_cmdline_rekey_verify (key : option string)
  (vpts : option ValuePairsTransformSet) (data : cmdline_args)
  : option ValuePairsTransformSet * cmdline_args :=
  match vpts with
  | None =>
      match key with
      | None => (None, data)
      | Some key =>
          let vpts := value_pairs_transform_set_new key in
          let data := vp_cmdline_parse_rekey_finish data in
          (Some vpts, mkArgs (args_vp data) (Some vpts) (args_key data))
      end
  | Some vpts => (Some vpts, data)
  end.

(** The transform set lives in [args[2]]; adding a step updates it there. *)
Definition add_step (data : cmdline_args) (vpts : ValuePairsTransformSet)
  (t : ValuePairsTransform) : cmdline_args :=
  mkArgs (args_vp data)
         (Some (value_pairs_transform_set_add_func vpts t)) (args_key data).

Definition vp_cmdline_parse_rekey_replace_prefix : GOptionArgFunc :=
  fun value data =>
    let vpts := args_vpts data in
    let key := args_key data in
    match vp_cmdline_rekey_verify key vpts data with
    | (None, data) => (Some ErrReplacePrefixWithoutKey, data)
    | (Some vpts, data) =>
        if negb (strchr value "=") then (Some ErrReplacePrefixFormat, data)
        else
          let kv := g_strsplit_2 value "=" in
          (None,
           add_step data vpts
             (value_pairs_new_transform_replace_prefix (nth 0 kv "")
                                                       (nth 1 kv "")))
    end.

Definition vp_cmdline_parse_rekey_add_prefix : GOptionArgFunc :=
  fun value data =>
    let vpts := args_vpts data in
    let key := args_key data in
    match vp_cmdline_rekey_verify key vpts data with
    | (None, data) => (Some ErrAddPrefixWithoutKey, data)
    | (Some vpts, data) =>
        (None, add_step data vpts (value_pairs_new_transform_add_prefix value))
    end.

Definition vp_cmdline_parse_rekey_shift : GOptionArgFunc :=
  fun value data =>
    let vpts := args_vpts data in
    let key := args_key data in
    match vp_cmdline_rekey_verify key vpts data with
    | (None, data) => (Some ErrShiftWithoutKey, data)
    | (Some vpts, data) =>
        (None,
         add_step data vpts (value_pairs_new_transform_shift (atoi value)))
    end.

Record GOptionEntry : Type := mkEntry {
  long_name : string;
  short_name : ascii;
  arg_data : GOptionArgFunc
}.

(** The name under which glib files the arguments that are no options. *)
Definition G_OPTION_REMAINING : string := "".

Definition vp_options : list GOptionEntry :=
  [ mkEntry "scope" "s" vp_cmdline_parse_scope;
    mkEntry "exclude" "x" vp_cmdline_parse_exclude;
    mkEntry "key" "k" vp_cmdline_parse_key;
    mkEntry "rekey" "r" vp_cmdline_parse_rekey;
    mkEntry "pair" "p" vp_cmdline_parse_pair;
    mkEntry "shift" "S" vp_cmdline_parse_rekey_shift;
    mkEntry "add-prefix" "A" vp_cmdline_parse_rekey_add_prefix;
    mkEntry "replace-prefix" "R" vp_cmdline_parse_rekey_replace_prefix;
    mkEntry "replace" NUL vp_cmdline_parse_rekey_replace_prefix;
    mkEntry G_OPTION_REMAINING NUL vp_cmdline_parse_pair_or_key ].

Definition find_long (entries : list GOptionEntry) (n : string)
  : option GOptionEntry :=
  find (fun e => String.eqb (long_name e) n
                 && negb (String.eqb n G_OPTION_REMAINING)) entries.

Definition find_short (entries : list GOptionEntry) (c : ascii)
  : option GOptionEntry :=
  find (fun e => Ascii.eqb (short_name e) c && negb (Ascii.eqb c NUL)) entries.

Definition find_remaining (entries : list GOptionEntry)
  : option GOptionEntry :=
  find (fun e => String.eqb (long_name e) G_OPTION_REMAINING) entries.

(** The callback glib runs for an argument and the value it passes. *)
Definition dispatch (entries : list GOptionEntry) (a : GOptionArg)
  : option GOptionEntry * string :=
  match a with
  | LongOption n value => (find_long entries n, value)
  | ShortOption c value => (find_short entries c, value)
  | Remaining value => (find_remaining entries, value)
  end.

Definition arg_text (a : GOptionArg) : string :=
  match a with
  | LongOption n _ => n
  | ShortOption c _ => String c ""
  | Remaining value => value
  end.

(** What glib does with one argument: it runs the callback of the entry
    the argument matches, and refuses an argument that matches none. *)
Definition run_arg (a : GOptionArg) (data : cmdline_args)
  : option GError * cmdline_args :=
  match dispatch vp_options a with
  | (None, _) => (Some (ErrUnknownOption (arg_text a)), data)
  | (Some e, value) => arg_data e value data
  end.

(** [g_option_context_parse] on the entries [vp_options]: the callbacks
    run in the order of the arguments; the first that returns [FALSE], or
    the first argument that matches no entry, ends the parse with an
    error. *)
Fixpoint g_option_context_parse (argv : list GOptionArg)
  (data : cmdline_args) : option GError * cmdline_args :=
  match argv with
  | [] => (None, data)
  | a :: argv' =>
      match run_arg a data with
      | (Some err, data') => (Some err, data')
      | (None, data') => g_option_context_parse argv' data'
      end
  end.

(** The object built, [None] for [NULL], and the error. *)
Definition value_pairs_new_from_cmdline (argv : list GOptionArg)
  : option ValuePairs * option GError :=
  let vp := value_pairs_new in
  let user_data_args := mkArgs vp None None in
  let (error, user_data_args) :=
    g_option_context_parse argv user_data_args in
  let user_data_args := vp_cmdline_parse_rekey_finish user_data_args in
  let success := match error with None => true | Some _ => false end in
  if negb success then (None, error)
  else (Some (args_vp user_data_args), error).

End Builder.

(** ** A small host to run the engine on *)

Module Demo.

(** Modelled from the spec: a glob matcher with the wildcards of section 6,
    [*] for any run of bytes and [?] for one byte. *)
Fixpoint glob_match (p s : string) : bool :=
  match p with
  | EmptyString => match s with EmptyString => true | _ => false end
  | String c p' =>
      if Ascii.eqb c "*" then
        (fix star (s : string) : bool :=
           glob_match p' s
           || match s with
              | EmptyString => false
              | String _ s' => star s'
              end) s
      else
        match s with
        | EmptyString => false
        | String d s' =>
            (Ascii.eqb c "?" || Ascii.eqb c d) && glob_match p' s'
        end
  end.

(** The macros of the demo registry; a macro renders the value stored
    under the handle of the same number. *)
Definition demo_macros : list (string * Z) :=
  [ ("FACILITY", 1); ("PRIORITY", 2); ("HOST", 3); ("PROGRAM", 4);
    ("PID", 5); ("MESSAGE", 6); ("DATE", 7); ("MSGID", 8); ("TAGS", 9);
    ("SOURCEIP", 10); ("SEQNUM", 11) ]%Z.

Fixpoint assoc_string (l : list (string * Z)) (n : string) : Z :=
  match l with
  | [] => 0
  | (k, v) :: l' => if String.eqb k n then v else assoc_string l' n
  end.

Fixpoint payload_value (msg : list (NVHandle * string * string))
  (handle : NVHandle) : string :=
  match msg with
  | [] => ""
  | (h, _, v) :: msg' => if (h =? handle)%Z then v else payload_value msg' handle
  end.

(** A message is its payload; handles from 100 on are structured data; a
    template renders to its text. *)
#[local] Instance demo_host : Host := {|
  LogMessage := list (NVHandle * string * string);
  LogTemplateOptions := unit;
  g_pattern_match_string := glob_match;
  nv_table_entries := fun msg => msg;
  log_msg_is_handle_sdata := fun h => (100 <=? h)%Z;
  log_msg_get_value := payload_value;
  log_msg_get_value_handle := fun n => (1000 + Z.of_nat (String.length n))%Z;
  log_macro_expand := fun id _ _ _ msg => payload_value msg id;
  log_macro_lookup := assoc_string demo_macros;
  macros := demo_macros;
  log_template_append_format := fun t _ _ _ _ => template_text t;
  value_pairs_transform_set_apply := value_pairs_transform_set_apply_spec;
  sb_pool_type_hint := TYPE_HINT_STRING
|}.

Definition demo_args (msg : list (NVHandle * string * string))
  : @EvalArgs demo_host :=
  mkEvalArgs msg 0 0 tt.

(** A template engine that takes any text and knows the types of the
    spec. *)
Definition demo_template_new : LogTemplate := mkLogTemplate "" TYPE_HINT_STRING.

Definition demo_template_compile (t : LogTemplate) (text : string)
  : option LogTemplate :=
  Some (mkLogTemplate text (template_type_hint t)).

Definition demo_set_type_hint (t : LogTemplate) (type : option string)
  : option LogTemplate :=
  match type with
  | None => Some t
  | Some n =>
      if String.eqb n "string" then Some (mkLogTemplate (template_text t) TYPE_HINT_STRING)
      else if String.eqb n "int" then Some (mkLogTemplate (template_text t) TYPE_HINT_INT32)
      else if String.eqb n "boolean" then Some (mkLogTemplate (template_text t) TYPE_HINT_BOOLEAN)
      else if String.eqb n "literal" then Some (mkLogTemplate (template_text t) TYPE_HINT_LITERAL)
      else None
  end.

Definition demo_new_from_cmdline (argv : list GOptionArg)
  : option ValuePairs * option GError :=
  value_pairs_new_from_cmdline cfg_process_flag_spec demo_template_new
    demo_template_compile demo_set_type_hint argv.

End Demo.

(** ** The statements of the specification, in its own words *)

(** The tokenizer in the words of the specification (section 4.5). *)

(** the byte that starts [s] is a digit *)
Definition starts_with_digit (s : string) : bool :=
  match s with
  | String c _ => isdigit c
  | EmptyString => false
  end.

(** [s] starts with a dot and the byte after the dot is a digit *)
Definition dot_digit (s : string) : bool :=
  match s with
  | String c r => Ascii.eqb c "." && starts_with_digit r
  | EmptyString => false
  end.

(** The bytes at the start of [s] that go on with an enterprise id: digits,
    and a dot only when the byte after it is a digit. *)
Fixpoint id_run (s : string) : nat :=
  match s with
  | String c r =>
      if isdigit c || (Ascii.eqb c "." && starts_with_digit r)
      then S (id_run r) else 0
  | EmptyString => 0
  end.

(** The enterprise id that follows an [@]: runs of digits joined by dots,
    [[0-9]+] first; the number of its bytes in [s], the text after the
    [@]. *)
Definition enterprise_id_len (s : string) : nat :=
  if starts_with_digit s then id_run s else 0.

(** Splitting on dots, an [@] and the enterprise id after it being part of
    the token at hand: the tokens of [s] after the bytes [cur] of the
    token at hand, the next [id] bytes belonging to an enterprise id. *)
Fixpoint spec_split (s cur : string) (id : nat) : list string :=
  match s with
  | EmptyString => [cur]
  | String c r =>
      match id with
      | S id' => spec_split r (cur ++ String c "") id'
      | 0 =>
          if Ascii.eqb c "." then cur :: spec_split r "" 0
          else if Ascii.eqb c "@"
               then spec_split r (cur ++ "@") (enterprise_id_len r)
               else spec_split r (cur ++ String c "") 0
      end
  end.

Definition spec_tokens (name : string) : list string := spec_split name "" 0.

(** [s] is empty or starts with a dot *)
Definition dot_or_end (s : string) : bool :=
  match s with
  | EmptyString => true
  | String c _ => Ascii.eqb c "."
  end.

(** Every [@] of the name is followed by an enterprise id, which may be
    empty, and then by a dot or by the end of the name; it is not followed
    by a dot and a digit straight away. *)
Fixpoint ids_closed (s : string) : bool :=
  match s with
  | EmptyString => true
  | String c r =>
      (if Ascii.eqb c "@"
       then negb (dot_digit r)
            && dot_or_end (str_from r (enterprise_id_len r))
       else true)
      && ids_closed r
  end.

(** the last byte of the name is a dot *)
Fixpoint ends_with_dot (s : string) : bool :=
  match s with
  | EmptyString => false
  | String c r =>
      match r with
      | EmptyString => Ascii.eqb c "."
      | _ => ends_with_dot r
      end
  end.

(** What the loop of the tokenizer gives on a name without [@], for the
    proofs about the prefixes of such a name: the tokens of [s] after the
    bytes [cur] of the token at hand.  As in the loop, a dot that ends the
    name starts no token. *)
Fixpoint dot_tokens (s cur : string) : list string :=
  match s with
  | EmptyString => [cur]
  | String c r =>
      if Ascii.eqb c "."
      then cur :: match r with
                  | EmptyString => []
                  | _ => dot_tokens r ""
                  end
      else dot_tokens r (cur ++ String c "")
  end.

Section SpecWords.

Context {host : Host}.

(** The last pattern of the list that matches the name. *)
Definition last_matching (pats : list VPPatternSpec) (n : string)
  : option VPPatternSpec :=
  find (fun p => vp_pattern_spec_eval p n) (rev pats).

(** Last match wins: the include flag of the last matching pattern, or the
    seed when no pattern matches. *)
Definition last_match_wins (pats : list VPPatternSpec) (n : string)
  (seed : bool) : bool :=
  match last_matching pats n with
  | Some p => vpp_include p
  | None => seed
  end.



(** What [vp_merge_other_set] does with one entry. *)
Definition merge_entry (vp : ValuePairs) (args : EvalArgs) (seed : bool)
  (dest : GTree SBTHGString) (e : ValuePairSpec) : GTree SBTHGString :=
  let sb := render_spec args e sb_th_gstring_acquire in
  if last_match_wins (patterns vp) (spec_name e) seed
     && negb (String.length (sb_string sb) =? 0)%nat
  then g_tree_insert dest (vp_transform_apply vp (spec_name e)) sb
  else dest.

(** What an explicit pair renders to. *)
Definition pair_rendering (args : EvalArgs) (vpc : VPPairConf) : string :=
  log_template_append_format (pair_template vpc) (arg_msg args)
    (arg_template_options args) (arg_time_zone_mode args) (arg_seq_num args).

(** Every value of the tree is a string that is not empty. *)
Definition values_nonempty (t : GTree SBTHGString) : Prop :=
  Forall (fun kv => 0 < String.length (sb_string (snd kv))) (nodes t).

End SpecWords.

(** ** The calls of a walk and the open containers *)

(** a call of the flat callback carries the name and the type hint of a
    node of the map and what a C function reads of its value *)
Definition call_of_map (m : list (string * SBTHGString)) (c : foreach_call)
  : Prop :=
  exists k sb,
    In (k, sb) m /\ call_name c = k /\ call_type c = sb_type_hint sb
    /\ call_value c = c_str (sb_string sb).

Section TraceWords.

Context {U D : Type}.

(** the calls noted so far *)
Definition trace_of (st : @vp_walk_state_t (U * list (@walk_event D)) D)
  : list (@walk_event D) :=
  snd (user_data st).

(** the open containers, the innermost first: key and prefix *)
Definition shapes (stk : @vp_stack_t D) : list (string * string) :=
  map (fun f => (key f, prefix f)) stk.

Definition top_prefix (sh : list (string * string)) : option string :=
  match sh with
  | [] => None
  | (_, p) :: _ => Some p
  end.

(** A trace that leaves the containers [sh] open: each of them was
    started, and what follows its start is a nested trace of its own. *)
Fixpoint open_form (sh : list (string * string))
  (tr : list (@walk_event D)) : Prop :=
  match sh with
  | [] => nested None tr
  | (k, pre) :: below =>
      exists tr0 body d pd,
        tr = tr0 ++ EvObjStart (Some k) (Some pre) d (top_prefix below) pd
                    :: body
        /\ nested (Some pre) body
        /\ open_form below tr0
  end.

(** [st'] comes after [st] by the calls [evs], and the calls respect the
    nesting. *)
Definition extends (st st' : @vp_walk_state_t (U * list (@walk_event D)) D)
  (evs : list (@walk_event D)) : Prop :=
  trace_of st' = trace_of st ++ evs
  /\ forall inner, open_form (shapes (stack st)) inner ->
                   open_form (shapes (stack st')) (inner ++ evs).

(** a value call carries the type hint of a node of the map and what a C
    function reads of its value *)
Definition value_of_map (m : list (string * SBTHGString))
  (e : @walk_event D) : Prop :=
  match e with
  | EvValue _ _ ty v _ _ =>
      exists k sb,
        In (k, sb) m /\ ty = sb_type_hint sb /\ v = c_str (sb_string sb)
  | _ => True
  end.

Definition root_start : @walk_event D := EvObjStart None None None None None.
Definition root_end : @walk_event D := EvObjEnd None None None None None.

(** The state of the walk between two calls of the walker, as long as no
    value call has failed. *)
Definition walk_inv (m : list (string * SBTHGString))
  (st : @vp_walk_state_t (U * list (@walk_event D)) D) : Prop :=
  exists inner,
    trace_of st = root_start :: inner
    /\ open_form (shapes (stack st)) inner
    /\ Forall (fun e => value_failed e = false) inner
    /\ Forall (value_of_map m) inner.

(** The state of the walk once a value call has failed. *)
Definition walk_fin (m : list (string * SBTHGString))
  (st : @vp_walk_state_t (U * list (@walk_event D)) D) : Prop :=
  exists inner e,
    trace_of st = root_start :: inner ++ [e]
    /\ open_form (shapes (stack st)) (inner ++ [e])
    /\ Forall (fun e => value_failed e = false) inner
    /\ value_failed e = true
    /\ Forall (value_of_map m) (inner ++ [e]).

(** The state of a walk that notes the calls, without the notes. *)
Definition forget (st : @vp_walk_state_t (U * list (@walk_event D)) D)
  : @vp_walk_state_t U D :=
  mkWalkState (fst (user_data st)) (stack st).

End TraceWords.

(** ** The state of the command line parser *)

(** a rekey context is open: a key is pending or a transform set is *)
Definition rekey_context_open (data : cmdline_args) : bool :=
  match args_vpts data, args_key data with
  | None, None => false
  | _, _ => true
  end.

(** the options that add a transform step *)
Definition is_transform_option (a : GOptionArg) : bool :=
  match a with
  | LongOption n _ =>
      String.eqb n "shift" || String.eqb n "add-prefix"
      || String.eqb n "replace-prefix" || String.eqb n "replace"
  | ShortOption c _ =>
      Ascii.eqb c "S" || Ascii.eqb c "A" || Ascii.eqb c "R"
  | Remaining _ => false
  end.

Definition initial_args : cmdline_args := mkArgs value_pairs_new None None.

(** ** Inputs on the demo host *)

Module Inputs.

Import Demo.

Definition msg : list (NVHandle * string * string) :=
  [ (3, "HOST", "h"); (4, "PROGRAM", "x");
    (50, "a.b.c", "1"); (51, "a.b.d", "2"); (52, "a.e", "3") ]%Z.

Definition pair_host : VPPairConf :=
  mkVPPairConf "HOST" (mkLogTemplate "override" TYPE_HINT_LITERAL).

Definition pair_program : VPPairConf :=
  mkVPPairConf "PROGRAM" (mkLogTemplate "prog" TYPE_HINT_STRING).

Definition pair_host_again : VPPairConf :=
  mkVPPairConf "HOST" (mkLogTemplate "second" TYPE_HINT_STRING).

(** scope rfc3164 and the explicit pairs [HOST=override], [PROGRAM=prog] *)
Definition vp_explicit : ValuePairs :=
  mkValuePairs [] [pair_host; pair_program] [] VPS_RFC3164.

(** two explicit pairs under the key [HOST] *)
Definition vp_twice : ValuePairs :=
  mkValuePairs [] [pair_host; pair_host_again] [] 0.

(** scope nv-pairs *)
Definition vp_nv : ValuePairs := mkValuePairs [] [] [] VPS_NV_PAIRS.

(** a message with one value of four bytes, the first of them a NUL *)
Definition msg_nul : list (NVHandle * string * string) :=
  [ (50, "k", String NUL "abc") ]%Z.

(** a flat callback without state that accepts every pair *)
Definition accept_pair : VPForeachFunc unit := fun _ _ _ u => (false, u).

(** a consumer without state that accepts every container *)
Definition accept : @VPWalkCallbackFunc unit unit :=
  fun _ _ _ _ _ u => mkWalkResult false None None u.

(** a consumer whose value callback returns [ret] *)
Definition value_returns (ret : bool) : @VPWalkValueCallbackFunc unit unit :=
  fun _ _ _ _ _ u => mkWalkValueResult ret None u.



End Inputs.

(** ** Order and delivery *)

(** Each key of the list comes before all the keys after it. *)
Fixpoint ascending (cmp : string -> string -> Z) (l : list string) : Prop :=
  match l with
  | [] => True
  | k :: l' => Forall (fun k' => (cmp k k' < 0)%Z) l' /\ ascending cmp l'
  end.

(** the keys of a tree, in the order of its traversal *)
Definition tree_keys {V : Type} (t : GTree V) : list string :=
  map fst (nodes t).

(** What the flat callback is handed for a node: name, type hint and
    the value as a C string. *)
Definition node_call (kv : string * SBTHGString)
  : string * TypeHint * string :=
  (fst kv, sb_type_hint (snd kv), c_str (sb_string (snd kv))).

Definition call_args (c : foreach_call) : string * TypeHint * string :=
  (call_name c, call_type c, call_value c).

(** The key the walker hands to [process_value] for a name: its last
    token. *)
Definition leaf_key (name : string) : string :=
  match vp_walker_split_name_to_tokens name with
  | Some tokens => nth (List.length tokens - 1) tokens ""
  | None => ""
  end.

(** What the value callback of the walker is handed for a node. *)
Definition node_value_call (kv : string * SBTHGString)
  : string * TypeHint * string :=
  (leaf_key (fst kv), sb_type_hint (snd kv), c_str (sb_string (snd kv))).

(** The value calls of a trace: key, type hint and value. *)
Definition value_calls {D : Type} (tr : list (@walk_event D))
  : list (string * TypeHint * string) :=
  flat_map (fun e =>
              match e with
              | EvValue n _ ty v _ _ => [(n, ty, v)]
              | _ => []
              end) tr.

(** What the value calls of a trace returned, in order. *)
Definition value_rets {D : Type} (tr : list (@walk_event D)) : list bool :=
  flat_map (fun e =>
              match e with
              | EvValue _ _ _ _ _ ret => [ret]
              | _ => []
              end) tr.



(** ** Options of a rekey context *)

(** The step an option of a rekey context stands for: [--shift],
    [--add-prefix] and [--replace-prefix] with their short names, the last
    one also as [--replace]; a replacement needs an equal sign. *)
Definition step_of_option (a : GOptionArg) : option ValuePairsTransform :=
  let shift v := Some (value_pairs_new_transform_shift (atoi v)) in
  let add_prefix v := Some (value_pairs_new_transform_add_prefix v) in
  let replace_prefix v :=
    if strchr v "="
    then Some (value_pairs_new_transform_replace_prefix
                 (nth 0 (g_strsplit_2 v "=") "")
                 (nth 1 (g_strsplit_2 v "=") ""))
    else None in
  match a with
  | LongOption n v =>
      if String.eqb n "shift" then shift v
      else if String.eqb n "add-prefix" then add_prefix v
      else if String.eqb n "replace-prefix" || String.eqb n "replace"
           then replace_prefix v
           else None
  | ShortOption c v =>
      if Ascii.eqb c "S" then shift v
      else if Ascii.eqb c "A" then add_prefix v
      else if Ascii.eqb c "R" then replace_prefix v
      else None
  | Remaining _ => None
  end.

(** The transform set a rekey context leaves: none when it had no step. *)
Definition context_transforms (key : string) (ts : list ValuePairsTransform)
  : list ValuePairsTransformSet :=
  match ts with
  | [] => []
  | _ => [mkTransformSet key ts]
  end.

(** ** The debug tag *)

(** [value_pairs_debug_append]: the text is behind [user_data]; it never
    signals failure. *)
Definition value_pairs_debug_append : VPForeachFunc string :=
  fun name type value text => (false, (text ++ name ++ "=" ++ value ++ " ")%string).

(** [evt_tag_value_pairs]: the key and the text of the tag
    ([evt_tag_str]). *)
Definition evt_tag_value_pairs {host : Host} (key : string) (vp : ValuePairs)
  (args : EvalArgs) : string * string :=
  let debug_text := "" in
  let (_, debug_text) :=
    value_pairs_foreach vp value_pairs_debug_append args debug_text in
  (key, debug_text).

(** ** The phases as a list of writes *)

Section PhaseWords.

Context {host : Host}.

(** What the name-value pair phase writes for one pair of the message. *)
Definition nv_insertion (vp : ValuePairs)
  (e : NVHandle * string * string) : list (string * SBTHGString) :=
  let '(handle, name, value) := e in
  if (String.length value =? 0)%nat then []
  else if patterns_loop (patterns vp) name (nvpairs_seed vp handle name)
       then [(vp_transform_apply vp name,
              set_type_hint
                (g_string_append_len sb_th_gstring_acquire value
                   (String.length value))
                TYPE_HINT_STRING)]
       else [].

(** What the merge of a table writes for one entry. *)
Definition set_insertion (vp : ValuePairs) (args : EvalArgs) (seed : bool)
  (e : ValuePairSpec) : list (string * SBTHGString) :=
  if vp_find_in_set vp (spec_name e) seed
  then
    let sb := render_spec args e sb_th_gstring_acquire in
    if (String.length (sb_string sb) =? 0)%nat then []
    else [(vp_transform_apply vp (spec_name e), sb)]
  else [].

(** What the last phase writes for one explicit pair. *)
Definition pair_insertion (vp : ValuePairs) (args : EvalArgs)
  (vpc : VPPairConf) : list (string * SBTHGString) :=
  let sb :=
    g_string_append
      (set_type_hint sb_th_gstring_acquire
         (template_type_hint (pair_template vpc)))
      (log_template_append_format (pair_template vpc) (arg_msg args)
         (arg_template_options args) (arg_time_zone_mode args)
         (arg_seq_num args)) in
  if (String.length (sb_string sb) =? 0)%nat then []
  else [(vp_transform_apply vp (pair_name vpc), sb)].

(** The writes of an evaluation in the order of the phases: the name-value
    pairs of the message, the macros picked by the patterns, the tables of
    rfc3164, rfc5424, the selected macros and all macros, and the explicit
    pairs. *)
Definition insertions (vp : ValuePairs) (args : EvalArgs)
  : list (string * SBTHGString) :=
  (if nvpairs_phase vp
   then flat_map (nv_insertion vp) (nv_table_entries (arg_msg args))
   else [])
  ++ (if (0 <? patterns_size vp)%nat
      then flat_map (set_insertion vp args false) all_macros else [])
  ++ (if scopes_has vp (VPS_RFC3164 + VPS_RFC5424 + VPS_SELECTED_MACROS)
      then flat_map (set_insertion vp args true) rfc3164 else [])
  ++ (if scopes_has vp VPS_RFC5424
      then flat_map (set_insertion vp args true) rfc5424 else [])
  ++ (if scopes_has vp VPS_SELECTED_MACROS
      then flat_map (set_insertion vp args true) selected_macros else [])
  ++ (if scopes_has vp VPS_ALL_MACROS
      then flat_map (set_insertion vp args true) all_macros else [])
  ++ flat_map (pair_insertion vp args) (vpairs vp).

(** The write that decides the value under [k]: the last one under a key
    the comparison takes for [k]. *)
Definition last_write (cmp : string -> string -> Z)
  (writes : list (string * SBTHGString)) (k : string) : option SBTHGString :=
  match find (fun kv => (cmp k (fst kv) =? 0)%Z) (rev writes) with
  | Some kv => Some (snd kv)
  | None => None
  end.

End PhaseWords.

(** * Properties *)

(** ** The tokenizer *)

Lemma str_from_length (s : string) (p : nat) :
  String.length (str_from s p) = String.length s - p.
Proof.
  revert p. induction s as [|c r IH]; intros p.
  - destruct p; reflexivity.
  - destruct p as [|p].
    + now rewrite str_from_0.
    + rewrite str_from_S. simpl. apply IH.
Qed.


Lemma strcspn_le (s reject : string) : strcspn s reject <= String.length s.
Proof.
  induction s as [|c r IH]; simpl; [lia|].
  destruct (mem_char c reject); simpl; lia.
Qed.






Lemma str_from_nil (p : nat) : str_from "" p = "".
Proof. destruct p; reflexivity. Qed.

Lemma str_from_add (name : string) (pos k : nat) :
  str_from (str_from name pos) k = str_from name (pos + k).
Proof.
  revert pos. induction name as [|c r IH]; intros pos.
  - now rewrite !str_from_nil.
  - destruct pos as [|p].
    + now rewrite str_from_0.
    + rewrite str_from_S. simpl Nat.add. rewrite str_from_S. apply IH.
Qed.

Lemma char_at_str_from (name : string) (p : nat) :
  char_at name p =
  match str_from name p with
  | String c _ => c
  | EmptyString => NUL
  end.
Proof.
  revert p. induction name as [|c r IH]; intros p.
  - rewrite str_from_nil. destruct p; reflexivity.
  - destruct p as [|p].
    + rewrite str_from_0. reflexivity.
    + rewrite str_from_S. apply (IH p).
Qed.

Lemma substring_str_from (name : string) (pos k : nat) :
  substring 0 k (str_from name pos) = substring pos k name.
Proof.
  revert pos. induction name as [|c r IH]; intros pos.
  - rewrite str_from_nil. destruct pos, k; reflexivity.
  - destruct pos as [|p].
    + now rewrite str_from_0.
    + rewrite str_from_S. apply IH.
Qed.

Lemma append_nil_r (s : string) : (s ++ "")%string = s.
Proof. induction s as [|c r IH]; simpl; [reflexivity | now rewrite IH]. Qed.

Lemma append_assoc (a b c : string) :
  ((a ++ b) ++ c)%string = (a ++ (b ++ c))%string.
Proof. induction a as [|x a IH]; simpl; [reflexivity | now rewrite IH]. Qed.

(** Reading a token up to the next [@] or dot is reading it byte by
    byte. *)
Lemma dot_tokens_skip (s cur : string) :
  dot_tokens s cur =
  dot_tokens (str_from s (strcspn s "@."))
             (cur ++ substring 0 (strcspn s "@.") s).
Proof.
  revert cur. induction s as [|c r IH]; intros cur.
  - simpl. now rewrite append_nil_r.
  - cbn [strcspn]. destruct (mem_char c "@.") eqn:E.
    + rewrite str_from_0. simpl. now rewrite append_nil_r.
    + rewrite str_from_S. cbn [dot_tokens].
      assert (Hdot : Ascii.eqb c "." = false).
      { simpl in E. apply orb_false_iff in E as [_ E].
        apply orb_false_iff in E as [E _]. exact E. }
      rewrite Hdot, IH. simpl substring. rewrite append_assoc. reflexivity.
Qed.

Lemma char_at_not_in (name : string) (a : ascii) (p : nat) :
  a <> NUL -> mem_char a name = false ->
  Ascii.eqb (char_at name p) a = false.
Proof.
  intros Ha. revert p. induction name as [|c r IH]; intros p Hm.
  - assert (E : char_at "" p = NUL) by (destruct p; reflexivity).
    rewrite E. apply Ascii.eqb_neq. congruence.
  - cbn [mem_char] in Hm. apply orb_false_iff in Hm as [Hc Hr].
    destruct p as [|p].
    + change (char_at (String c r) 0) with c. now rewrite Ascii.eqb_sym.
    + apply (IH p Hr).
Qed.

(** On a name without [@], a round of the loop ends the token at the next
    dot or at the end of the name. *)
Lemma split_step_dot (name : string) (pos : nat) (array : list string) :
  mem_char "@" name = false ->
  pos <= String.length name ->
  let p1 := pos + strcspn (str_from name pos) "@." in
  split_step name pos array
  = (S p1, array ++ [substring pos (p1 - pos) name])
  /\ p1 <= String.length name
  /\ (str_from name p1 = ""
      \/ exists r, str_from name p1 = String "." r).
Proof.
  intros Hat Hle p1.
  assert (Hp1 : p1 <= String.length name).
  { pose proof (strcspn_le (str_from name pos) "@.") as L.
    rewrite str_from_length in L. subst p1. lia. }
  assert (Hnext : str_from name p1 = ""
                  \/ exists r, str_from name p1 = String "." r).
  { destruct (str_from name p1) as [|c r] eqn:E; [now left|]. right.
    assert (Hc : char_at name p1 = c) by now rewrite char_at_str_from, E.
    destruct (strcspn_stop name "@." pos) as [H|H]; fold p1 in H.
    - pose proof (str_from_length name p1) as L. rewrite E in L.
      simpl in L. lia.
    - rewrite Hc in H. simpl in H.
      pose proof (char_at_not_in name "@" p1 ltac:(discriminate) Hat) as Hn.
      rewrite Hc in Hn. rewrite Hn in H. simpl in H.
      rewrite orb_false_r in H. apply Ascii.eqb_eq in H.
      exists r. now rewrite H. }
  split; [|split; assumption].
  unfold split_step. fold p1.
  rewrite (char_at_not_in name "@" p1 ltac:(discriminate) Hat).
  unfold g_strndup_from.
  destruct Hnext as [E|[r E]].
  - assert (p1 = String.length name).
    { pose proof (str_from_length name p1) as L. rewrite E in L.
      simpl in L. lia. }
    rewrite (proj2 (Nat.eqb_eq p1 (String.length name)) H).
    rewrite orb_true_r. reflexivity.
  - assert (Hc : char_at name p1 = "."%char)
      by now rewrite char_at_str_from, E.
    rewrite Hc. reflexivity.
Qed.

(** On a name without [@] the tokenizer splits on dots. *)
Lemma split_loop_dot_tokens (name : string) (pos : nat)
  (array : list string) :
  mem_char "@" name = false ->
  pos <= String.length name ->
  split_loop name pos array = array ++ dot_tokens (str_from name pos) "".
Proof.
  funelim (split_loop name pos array); intros Hat Hle.
  - clear Heqcall.
    destruct (split_step_dot name pos array Hat Hle) as (Hs & Hp1 & Hnext).
    cbv zeta in Hs, Hp1, Hnext.
    set (p1 := pos + strcspn (str_from name pos) "@.") in *.
    pose proof (proj1 (Nat.ltb_lt _ _) Hlt) as Hlt'.
    rewrite Hs in *. simpl fst in *. simpl snd in *.
    rewrite (H Hat ltac:(lia)).
    rewrite (dot_tokens_skip (str_from name pos)), str_from_add. fold p1.
    rewrite substring_str_from. simpl append.
    replace (p1 - pos) with (strcspn (str_from name pos) "@.")
      by (subst p1; lia).
    destruct Hnext as [E|[r E]].
    + pose proof (str_from_length name p1) as L. rewrite E in L.
      simpl in L. lia.
    + rewrite E. cbn [dot_tokens]. simpl Ascii.eqb. cbv iota.
      assert (Hr : str_from name (S p1) = r).
      { replace (S p1) with (p1 + 1) by lia.
        rewrite <- str_from_add, E. rewrite str_from_S.
        apply str_from_0. }
      rewrite Hr. rewrite <- app_assoc. simpl.
      destruct r as [|c r']; [|reflexivity].
      pose proof (str_from_length name (S p1)) as L. rewrite Hr in L.
      simpl in L. lia.
  - destruct (split_step_dot name pos array Hat Hle) as (Hs & Hp1 & Hnext).
    cbv zeta in Hs, Hp1, Hnext.
    set (p1 := pos + strcspn (str_from name pos) "@.") in *.
    pose proof (proj1 (Nat.ltb_ge _ _) Hge) as Hge'.
    rewrite Hs in *. simpl fst in *. simpl snd in *.
    rewrite (dot_tokens_skip (str_from name pos)), str_from_add. fold p1.
    rewrite substring_str_from. simpl append.
    replace (p1 - pos) with (strcspn (str_from name pos) "@.")
      by (subst p1; lia).
    destruct Hnext as [E|[r E]].
    + rewrite E. reflexivity.
    + rewrite E. cbn [dot_tokens]. simpl Ascii.eqb. cbv iota.
      assert (Hr : str_from name (S p1) = r).
      { replace (S p1) with (p1 + 1) by lia.
        rewrite <- str_from_add, E. rewrite str_from_S.
        apply str_from_0. }
      pose proof (str_from_length name (S p1)) as L. rewrite Hr in L.
      destruct r as [|c r']; [reflexivity|]. simpl in L. lia.
Qed.

Lemma isdigit_mem (c : ascii) : mem_char c "0123456789" = isdigit c.
Proof. destruct c as [[] [] [] [] [] [] [] []]; reflexivity. Qed.

Lemma str_from_tail (name : string) (q : nat) (c : ascii) (r : string) :
  str_from name q = String c r -> str_from name (S q) = r.
Proof.
  intros H. replace (S q) with (q + 1) by lia.
  rewrite <- str_from_add, H, str_from_S. apply str_from_0.
Qed.

Lemma dot_digit_skip_again (name : string) (q : nat) :
  dot_digit (str_from name q) = skip_again name q.
Proof.
  unfold skip_again. rewrite !char_at_str_from.
  destruct (str_from name q) as [|c r] eqn:E.
  - reflexivity.
  - rewrite (str_from_tail name q c r E). destruct r; reflexivity.
Qed.

Lemma id_run_unfold (s : string) :
  id_run s
  = strspn s "0123456789"
    + (if dot_digit (str_from s (strspn s "0123456789"))
       then S (id_run (str_from s (S (strspn s "0123456789"))))
       else 0).
Proof.
  induction s as [|c r IH].
  - reflexivity.
  - cbn [id_run strspn]. rewrite isdigit_mem.
    destruct (isdigit c) eqn:Ed.
    + cbn [orb]. rewrite !str_from_S, IH. reflexivity.
    + cbn [orb]. rewrite str_from_0, str_from_S, str_from_0. reflexivity.
Qed.

(** The skip started on the byte at [pos] ends after the digits and the
    dots followed by a digit that come after that byte. *)
Lemma skip_is_id_run (name : string) (pos : nat) :
  vp_walker_skip_sdata_enterprise_id name pos
  = S pos + id_run (str_from name (S pos)).
Proof.
  funelim (vp_walker_skip_sdata_enterprise_id name pos).
  - rewrite H. rewrite (id_run_unfold (str_from name (S pos))).
    rewrite !str_from_add.
    change (S pos + strspn (str_from name (S pos)) "0123456789")
      with (skip_step name pos).
    rewrite dot_digit_skip_again, Hagain.
    replace (S pos + S (strspn (str_from name (S pos)) "0123456789"))
      with (S (skip_step name pos)) by (unfold skip_step; lia).
    unfold skip_step. lia.
  - rewrite (id_run_unfold (str_from name (S pos))).
    rewrite !str_from_add.
    change (S pos + strspn (str_from name (S pos)) "0123456789")
      with (skip_step name pos).
    rewrite dot_digit_skip_again, Hstop. unfold skip_step. lia.
Qed.

Lemma id_run_le (s : string) : id_run s <= String.length s.
Proof.
  induction s as [|c r IH]; simpl; [lia|].
  destruct (isdigit c || _); simpl; lia.
Qed.

Lemma id_run_strict (r : string) :
  dot_digit r = false -> id_run r = enterprise_id_len r.
Proof.
  unfold enterprise_id_len. destruct r as [|c r]; [reflexivity|].
  cbn [dot_digit id_run starts_with_digit]. intros ->.
  rewrite orb_false_r. destruct (isdigit c); reflexivity.
Qed.

Lemma ids_closed_tail (c : ascii) (r : string) :
  ids_closed (String c r) = true -> ids_closed r = true.
Proof. cbn [ids_closed]. intros H. now apply andb_true_iff in H as [_ H]. Qed.

Lemma ids_closed_suffix (s : string) (k : nat) :
  ids_closed s = true -> ids_closed (str_from s k) = true.
Proof.
  revert k. induction s as [|c r IH]; intros k H.
  - now rewrite str_from_nil.
  - destruct k as [|k]; [now rewrite str_from_0|].
    rewrite str_from_S. apply IH. exact (ids_closed_tail c r H).
Qed.

Lemma ends_with_dot_suffix (s : string) (k : nat) :
  ends_with_dot s = false -> k < String.length s ->
  ends_with_dot (str_from s k) = false.
Proof.
  revert k. induction s as [|c r IH]; intros k H Hk.
  - simpl in Hk. lia.
  - destruct k as [|k]; [now rewrite str_from_0|].
    rewrite str_from_S. simpl in Hk. destruct r as [|c' r'].
    + simpl in Hk. lia.
    + apply IH; [exact H | lia].
Qed.

Lemma ends_with_dot_last (s : string) (k : nat) :
  str_from s k = "." -> ends_with_dot s = true.
Proof.
  revert k. induction s as [|c r IH]; intros k H.
  - rewrite str_from_nil in H. discriminate.
  - destruct k as [|k].
    + rewrite str_from_0 in H. injection H as -> ->. reflexivity.
    + rewrite str_from_S in H. specialize (IH k H).
      destruct r as [|c' r']; [discriminate | exact IH].
Qed.

Lemma substring_0_0 (s : string) : substring 0 0 s = "".
Proof. destruct s; reflexivity. Qed.

Lemma substring_add (s : string) (a k : nat) :
  a <= String.length s ->
  substring 0 (a + k) s
  = (substring 0 a s ++ substring 0 k (str_from s a))%string.
Proof.
  revert a. induction s as [|c r IH]; intros a Ha.
  - simpl in Ha. replace a with 0 by lia. rewrite str_from_nil.
    destruct k; reflexivity.
  - destruct a as [|a].
    + rewrite str_from_0, substring_0_0. reflexivity.
    + simpl in Ha. rewrite str_from_S. simpl. f_equal. apply IH. lia.
Qed.

Lemma substring_from_length (s : string) (p n : nat) :
  p + n <= String.length s -> String.length (substring p n s) = n.
Proof.
  revert p n. induction s as [|c r IH]; intros p n H.
  - simpl in H. replace p with 0 by lia. replace n with 0 by lia.
    reflexivity.
  - destruct p as [|p].
    + destruct n as [|n]; [reflexivity|]. simpl in *. f_equal.
      apply (IH 0 n). lia.
    + simpl in *. apply IH. lia.
Qed.

Lemma spec_split_id (n : nat) (s cur : string) :
  n <= String.length s ->
  spec_split s cur n
  = spec_split (str_from s n) (cur ++ substring 0 n s) 0.
Proof.
  revert s cur. induction n as [|n IH]; intros s cur Hn.
  - now rewrite str_from_0, substring_0_0, append_nil_r.
  - destruct s as [|c r]; [simpl in Hn; lia|].
    simpl in Hn. cbn [spec_split]. rewrite IH by lia.
    rewrite str_from_S. simpl substring. rewrite append_assoc.
    reflexivity.
Qed.

Lemma spec_split_plain (s cur : string) :
  spec_split s cur 0
  = spec_split (str_from s (strcspn s "@."))
               (cur ++ substring 0 (strcspn s "@.") s) 0.
Proof.
  revert cur. induction s as [|c r IH]; intros cur.
  - simpl. now rewrite append_nil_r.
  - cbn [strcspn]. destruct (mem_char c "@.") eqn:E.
    + rewrite str_from_0, substring_0_0. now rewrite append_nil_r.
    + rewrite str_from_S. cbn [spec_split mem_char] in *.
      apply orb_false_iff in E as [Eat E].
      apply orb_false_iff in E as [Edot _].
      rewrite Edot, Eat, IH. simpl substring. rewrite append_assoc.
      reflexivity.
Qed.

Lemma str_from_empty_len (name : string) (p : nat) :
  p <= String.length name -> str_from name p = "" -> p = String.length name.
Proof.
  intros Hp E. pose proof (str_from_length name p) as L. rewrite E in L.
  simpl in L. lia.
Qed.

(** A round of the loop on a name whose ids are closed: it adds the token
    that the split on dots starts with, and stops at the dot after it or
    at the end of the name. *)
Lemma split_round (name : string) (pos : nat) (array : list string) :
  pos <= String.length name ->
  ids_closed (str_from name pos) = true ->
  exists n,
    pos + n <= String.length name
    /\ split_step name pos array
       = (S (pos + n), array ++ [substring pos n name])
    /\ match str_from name (pos + n) with
       | EmptyString =>
           spec_split (str_from name pos) "" 0 = [substring pos n name]
       | String d r =>
           d = "."%char
           /\ spec_split (str_from name pos) "" 0
              = substring pos n name :: spec_split r "" 0
       end.
Proof.
  intros Hle Hclosed.
  set (s := str_from name pos) in *.
  set (a := strcspn s "@.").
  assert (Ha : a <= String.length s) by apply strcspn_le.
  assert (Hs : String.length s = String.length name - pos)
    by apply str_from_length.
  assert (Hp1 : pos + a <= String.length name) by lia.
  pose proof (spec_split_plain s "") as Hplain. fold a in Hplain.
  simpl append in Hplain.
  assert (Ht : str_from s a = str_from name (pos + a))
    by apply str_from_add.
  pose proof (ids_closed_suffix s a Hclosed) as Hct. rewrite Ht in Hct.
  rewrite Ht in Hplain.
  assert (Hsub : forall k, substring 0 k s = substring pos k name)
    by (intros k; apply substring_str_from).
  pose proof (char_at_str_from name (pos + a)) as Hc.
  unfold split_step. fold s. fold a.
  destruct (str_from name (pos + a)) as [|c r] eqn:Et.
  - (* the end of the name *)
    exists a. split; [exact Hp1|]. rewrite Et.
    pose proof (str_from_empty_len name (pos + a) Hp1 Et) as Hend.
    rewrite Hc. change (Ascii.eqb NUL "@") with false. cbv iota.
    rewrite Hc. change (Ascii.eqb NUL ".") with false.
    rewrite (proj2 (Nat.eqb_eq _ _) Hend). cbn [orb].
    unfold g_strndup_from.
    replace (pos + a - pos) with a by lia.
    split; [reflexivity|]. rewrite Hplain, Hsub. reflexivity.
  - assert (Hmem : mem_char c "@." = true).
    { destruct (strcspn_stop name "@." pos) as [H|H]; fold s a in H.
      - pose proof (str_from_length name (pos + a)) as L. rewrite Et in L.
        simpl in L. lia.
      - now rewrite Hc in H. }
    cbn [mem_char] in Hmem. rewrite orb_false_r in Hmem.
    destruct (Ascii.eqb c "@") eqn:Eat.
    + (* an enterprise id *)
      apply Ascii.eqb_eq in Eat. rewrite Eat in *. clear Eat.
      cbn [ids_closed] in Hct. change (Ascii.eqb "@" "@") with true in Hct.
      apply andb_true_iff in Hct as [Hid _].
      apply andb_true_iff in Hid as [Hnd Hnext].
      apply negb_true_iff in Hnd.
      pose proof (str_from_tail name (pos + a) _ _ Et) as Hr.
      pose proof (skip_is_id_run name (pos + a)) as Hskip.
      rewrite Hr, (id_run_strict r Hnd) in Hskip.
      set (e := enterprise_id_len r) in *.
      assert (He : e <= String.length r).
      { subst e. rewrite <- (id_run_strict r Hnd). apply id_run_le. }
      assert (Hlr : String.length r = String.length name - S (pos + a)).
      { rewrite <- Hr. apply str_from_length. }
      assert (Hlt : pos + a < String.length name).
      { pose proof (str_from_length name (pos + a)) as L. rewrite Et in L.
        simpl in L. lia. }
      assert (Hre : str_from r e = str_from name (pos + (a + S e))).
      { rewrite <- Hr, str_from_add. f_equal. lia. }
      exists (a + S e). split; [lia|].
      rewrite Hc. change (Ascii.eqb "@" "@") with true. cbv iota.
      rewrite Hskip.
      replace (S (pos + a) + e) with (pos + (a + S e)) by lia.
      rewrite (char_at_str_from name (pos + (a + S e))).
      rewrite <- Hre.
      assert (Htok : substring pos (a + S e) name
                     = ((substring pos a name ++ "@") ++ substring 0 e r)
                         %string).
      { rewrite <- Hsub, (substring_add s a (S e) Ha), Ht, Hsub.
        simpl substring. rewrite append_assoc. reflexivity. }
      assert (Hspec : spec_split s "" 0
                      = spec_split (str_from r e)
                          (substring pos (a + S e) name) 0).
      { rewrite Hplain. cbn [spec_split].
        change (Ascii.eqb "@" ".") with false.
        change (Ascii.eqb "@" "@") with true. cbv iota.
        fold e. rewrite (spec_split_id e r _ He), Hsub, Htok. reflexivity. }
      unfold g_strndup_from.
      replace (pos + (a + S e) - pos) with (a + S e) by lia.
      destruct (str_from r e) as [|d r2] eqn:Erest.
      * assert (Hend : pos + (a + S e) = String.length name).
        { apply str_from_empty_len; [lia | now rewrite <- Hre]. }
        change (Ascii.eqb NUL ".") with false.
        rewrite (proj2 (Nat.eqb_eq _ _) Hend). cbn [orb].
        split; [reflexivity|]. exact Hspec.
      * cbn [dot_or_end] in Hnext. rewrite Hnext. cbn [orb].
        split; [reflexivity|]. apply Ascii.eqb_eq in Hnext. subst d.
        split; [reflexivity|]. rewrite Hspec. reflexivity.
    + (* a dot *)
      cbn [orb] in Hmem. apply Ascii.eqb_eq in Hmem. rewrite Hmem in *.
      exists a. split; [exact Hp1|]. rewrite Et.
      rewrite Hc. change (Ascii.eqb "." "@") with false. cbv iota.
      rewrite Hc. change (Ascii.eqb "." ".") with true. cbn [orb].
      unfold g_strndup_from.
      replace (pos + a - pos) with a by lia.
      split; [reflexivity|]. split; [reflexivity|].
      rewrite Hplain, Hsub. reflexivity.
Qed.

(** The loop from a position on gives the split of the rest of the
    name. *)
Lemma split_loop_spec (name : string) (pos : nat) (array : list string) :
  pos <= String.length name ->
  ids_closed (str_from name pos) = true ->
  ends_with_dot (str_from name pos) = false ->
  split_loop name pos array = array ++ spec_split (str_from name pos) "" 0.
Proof.
  funelim (split_loop name pos array); intros Hle Hclosed Hdot.
  - clear Heqcall.
    destruct (split_round name pos array Hle Hclosed)
      as (n & Hn & Hstep & Hspec).
    pose proof (proj1 (Nat.ltb_lt _ _) Hlt) as Hlt'.
    rewrite Hstep in *. simpl fst in *. simpl snd in *.
    destruct (str_from name (pos + n)) as [|d r] eqn:Er.
    + pose proof (str_from_empty_len name (pos + n) Hn Er). lia.
    + destruct Hspec as [-> Hspec].
      pose proof (str_from_tail name (pos + n) _ _ Er) as Hr.
      rewrite H.
      * rewrite Hr, Hspec, <- app_assoc. reflexivity.
      * lia.
      * replace (S (pos + n)) with (pos + S n) by lia.
        rewrite <- str_from_add. now apply ids_closed_suffix.
      * replace (S (pos + n)) with (pos + S n) by lia.
        rewrite <- str_from_add. apply ends_with_dot_suffix; [exact Hdot|].
        rewrite str_from_length. lia.
  - destruct (split_round name pos array Hle Hclosed)
      as (n & Hn & Hstep & Hspec).
    pose proof (proj1 (Nat.ltb_ge _ _) Hge) as Hge'.
    rewrite Hstep in *. simpl fst in *. simpl snd in *.
    destruct (str_from name (pos + n)) as [|d r] eqn:Er.
    + rewrite Hspec. reflexivity.
    + exfalso. destruct Hspec as [-> _].
      pose proof (str_from_length name (pos + n)) as L. rewrite Er in L.
      simpl in L.
      assert (Hr : r = "").
      { destruct r; [reflexivity | simpl in L; lia]. }
      subst r. rewrite <- str_from_add in Er.
      rewrite (ends_with_dot_last _ _ Er) in Hdot. discriminate.
Qed.

Lemma spec_split_nonempty (s cur : string) (id : nat) :
  spec_split s cur id <> [].
Proof.
  revert cur id. induction s as [|c r IH]; intros cur id; simpl;
    [discriminate|].
  destruct id; [|apply IH].
  destruct (Ascii.eqb c "."); [discriminate|].
  destruct (Ascii.eqb c "@"); apply IH.
Qed.

Lemma tokens_spec (name : string) :
  ids_closed name = true -> ends_with_dot name = false ->
  vp_walker_split_name_to_tokens name = Some (spec_tokens name).
Proof.
  intros Hc Hd. unfold vp_walker_split_name_to_tokens, spec_tokens.
  pose proof (split_loop_spec name 0 []) as H. rewrite str_from_0 in H.
  rewrite (H ltac:(lia) Hc Hd). clear H. simpl app.
  pose proof (spec_split_nonempty name "" 0) as Hne.
  destruct (spec_split name "" 0); [congruence | reflexivity].
Qed.

(** C7 (as amended). The key tokenizer follows the enterprise-id grammar
    on the names that keep to it.  From an [@] on, the skip takes the
    enterprise id, runs of digits joined by dots, a dot being taken only
    when the byte after it is a digit.  A name that does not end in a dot,
    and in which every [@] is followed by such an id and then by a dot or
    by the end of the name, is split on dots, the dots of an id apart.
    [foo@1.2.3.bar] gives [foo@1.2.3] and [bar]; [foo@1.bar] gives [foo@1]
    and [bar]; [foo.bar] gives [foo] and [bar]; [a.b.c] gives [a], [b] and
    [c]. *)
Theorem tokenizer_enterprise_id_grammar :
  (forall name pos,
      dot_digit (str_from name (S pos)) = false ->
      vp_walker_skip_sdata_enterprise_id name pos
      = S pos + enterprise_id_len (str_from name (S pos)))
  /\ (forall name,
         ids_closed name = true -> ends_with_dot name = false ->
         vp_walker_split_name_to_tokens name = Some (spec_tokens name))
  /\ vp_walker_split_name_to_tokens "foo@1.2.3.bar"
     = Some ["foo@1.2.3"; "bar"]
  /\ vp_walker_split_name_to_tokens "foo@1.bar" = Some ["foo@1"; "bar"]
  /\ vp_walker_split_name_to_tokens "foo.bar" = Some ["foo"; "bar"]
  /\ vp_walker_split_name_to_tokens "a.b.c" = Some ["a"; "b"; "c"].
Proof.
  split; [|split].
  - intros name pos Hnd.
    rewrite skip_is_id_run, (id_run_strict _ Hnd). reflexivity.
  - exact tokens_spec.
  - repeat split;
      match goal with
      | |- vp_walker_split_name_to_tokens ?n = _ =>
          exact (tokens_spec n eq_refl eq_refl)
      end.
Qed.

(** ** The glob list and the seeds *)

Section GlobList.

Context {host : Host}.

Lemma find_snoc {A : Type} (f : A -> bool) (l : list A) (x : A) :
  find f (l ++ [x]) =
  match find f l with
  | Some y => Some y
  | None => if f x then Some x else None
  end.
Proof.
  induction l as [|a l IH]; simpl.
  - reflexivity.
  - destruct (f a); [reflexivity | exact IH].
Qed.

Lemma last_matching_cons (p : VPPatternSpec) (pats : list VPPatternSpec)
  (n : string) :
  last_matching (p :: pats) n =
  match last_matching pats n with
  | Some q => Some q
  | None => if vp_pattern_spec_eval p n then Some p else None
  end.
Proof.
  unfold last_matching. simpl.
  exact (find_snoc (fun q => vp_pattern_spec_eval q n) (rev pats) p).
Qed.

Lemma patterns_loop_last_match (pats : list VPPatternSpec) (n : string)
  (seed : bool) :
  patterns_loop pats n seed = last_match_wins pats n seed.
Proof.
  unfold last_match_wins. revert seed.
  induction pats as [|p pats IH]; intros seed.
  - reflexivity.
  - simpl patterns_loop. rewrite IH, last_matching_cons.
    destruct (last_matching pats n); [reflexivity|].
    destruct (vp_pattern_spec_eval p n); reflexivity.
Qed.

Lemma last_matching_some (pats : list VPPatternSpec) (n : string)
  (p : VPPatternSpec) :
  last_matching pats n = Some p ->
  In p pats /\ vp_pattern_spec_eval p n = true.
Proof.
  unfold last_matching. intros H. apply find_some in H as [Hin Hm].
  split; [exact (proj2 (in_rev pats p) Hin) | exact Hm].
Qed.

Lemma last_matching_none (pats : list VPPatternSpec) (n : string) :
  last_matching pats n = None <->
  forall p, In p pats -> vp_pattern_spec_eval p n = false.
Proof.
  unfold last_matching. split.
  - intros H p Hin. apply (find_none _ _ H). exact (proj1 (in_rev pats p) Hin).
  - intros H. destruct (find _ (rev pats)) as [p|] eqn:E; [|reflexivity].
    apply find_some in E as [Hin Hm].
    rewrite (H p (proj2 (in_rev pats p) Hin)) in Hm. discriminate.
Qed.

(** C3. Glob-list evaluation is last-match-wins: starting from the seed
    and running over the patterns in order, the inclusion computed for a
    name is the include flag of the last pattern that matches it, or the
    seed when none matches; this holds of [vp_find_in_set] and of the loop
    over the patterns in [vp_msg_nvpairs_foreach]. *)
Theorem glob_list_last_match_wins (vp : ValuePairs) (n : string)
  (seed : bool) :
  vp_find_in_set vp n seed = last_match_wins (patterns vp) n seed
  /\ (forall handle value value_len scope_set,
         vp_msg_nvpairs_foreach vp handle n value value_len scope_set =
         if (value_len =? 0)%nat then (false, scope_set)
         else if last_match_wins (patterns vp) n (nvpairs_seed vp handle n)
              then (false,
                    g_tree_insert scope_set (vp_transform_apply vp n)
                      (mkSB (substring 0 value_len value) TYPE_HINT_STRING))
              else (false, scope_set))
  /\ (forall p, last_matching (patterns vp) n = Some p ->
                In p (patterns vp) /\ vp_pattern_spec_eval p n = true)
  /\ (last_matching (patterns vp) n = None <->
      forall p, In p (patterns vp) -> vp_pattern_spec_eval p n = false)
  /\ (forall before p after,
         patterns vp = before ++ p :: after ->
         vp_pattern_spec_eval p n = true ->
         (forall q, In q after -> vp_pattern_spec_eval q n = false) ->
         vp_find_in_set vp n seed = vpp_include p).
Proof.
  split; [apply patterns_loop_last_match|].
  split.
  { intros handle value value_len scope_set. unfold vp_msg_nvpairs_foreach.
    destruct (value_len =? 0)%nat; [reflexivity|].
    rewrite patterns_loop_last_match.
    destruct (last_match_wins _ _ _); reflexivity. }
  split; [apply last_matching_some|].
  split; [apply last_matching_none|].
  intros before p after Hp Hm Hafter.
  unfold vp_find_in_set. cbv zeta. rewrite Hp. clear Hp.
  revert seed. induction before as [|b before IH]; intros seed; simpl.
  - rewrite Hm. clear Hm. generalize (vpp_include p). intros inc.
    revert inc. induction after as [|a after IHa]; intros inc; simpl.
    + reflexivity.
    + rewrite (Hafter a (or_introl eq_refl)). apply IHa.
      intros q Hq. apply Hafter. now right.
  - apply IH.
Qed.





Lemma vp_merge_other_set_fold (vp : ValuePairs) (args : EvalArgs)
  (set : list ValuePairSpec) (dest : GTree SBTHGString) (seed : bool) :
  vp_merge_other_set vp args set dest seed =
  fold_left (merge_entry vp args seed) set dest.
Proof.
  revert dest. induction set as [|e set IH]; intros dest; simpl.
  - reflexivity.
  - unfold merge_entry at 2. unfold vp_find_in_set. cbv zeta.
    rewrite patterns_loop_last_match.
    destruct (last_match_wins _ _ _); simpl; [|apply IH].
    destruct (String.length _ =? 0)%nat; simpl; apply IH.
Qed.

(** C5. The seed handed to the patterns when a built-in table is merged is
    asymmetric.  Merging a table because its scope bit is set
    ([vp_merge_set]: the RFC3164, RFC5424, selected-macros and all-macros
    phases) starts from true: a name no pattern matches is included, and a
    name is left out only when a pattern excludes it.  Merging the
    all-macros table because there are patterns ([vp_merge_macros]) starts
    from false: a name is included only when a pattern includes it. *)
Theorem merge_seed_asymmetry (vp : ValuePairs) (args : EvalArgs)
  (dest : GTree SBTHGString) (n : string) :
  (forall set,
      vp_merge_set vp args set dest =
      fold_left (merge_entry vp args true) set dest)
  /\ vp_merge_macros vp args dest =
     fold_left (merge_entry vp args false) all_macros dest
  /\ value_pairs_base_set vp args dest =
     (let t := value_pairs_nvpairs_set vp args dest in
      let t := if negb (Nat.eqb (List.length (patterns vp)) 0)
               then vp_merge_macros vp args t else t in
      let t := if scopes_has vp
                    (VPS_RFC3164 + VPS_RFC5424 + VPS_SELECTED_MACROS)
               then vp_merge_set vp args rfc3164 t else t in
      let t := if scopes_has vp VPS_RFC5424
               then vp_merge_set vp args rfc5424 t else t in
      let t := if scopes_has vp VPS_SELECTED_MACROS
               then vp_merge_set vp args selected_macros t else t in
      if scopes_has vp VPS_ALL_MACROS
      then vp_merge_set vp args all_macros t else t)
  /\ ((forall p, In p (patterns vp) -> vp_pattern_spec_eval p n = false) ->
      vp_find_in_set vp n true = true /\ vp_find_in_set vp n false = false)
  /\ (vp_find_in_set vp n true = false ->
      exists p, In p (patterns vp) /\ vp_pattern_spec_eval p n = true
                /\ vpp_include p = false)
  /\ (vp_find_in_set vp n false = true ->
      exists p, In p (patterns vp) /\ vp_pattern_spec_eval p n = true
                /\ vpp_include p = true).
Proof.
  split; [intros set; apply vp_merge_other_set_fold|].
  split; [apply vp_merge_other_set_fold|].
  split.
  { unfold value_pairs_base_set, patterns_size.
    destruct (patterns vp); reflexivity. }
  unfold vp_find_in_set. cbv zeta. rewrite !patterns_loop_last_match.
  unfold last_match_wins.
  split; [|split].
  - intros H. apply last_matching_none in H. rewrite H. split; reflexivity.
  - destruct (last_matching (patterns vp) n) as [p|] eqn:E; [|discriminate].
    intros Hinc. apply last_matching_some in E as [Hin Hm].
    exists p. auto.
  - destruct (last_matching (patterns vp) n) as [p|] eqn:E; [|discriminate].
    intros Hinc. apply last_matching_some in E as [Hin Hm].
    exists p. auto.
Qed.

End GlobList.

(** ** The comparators and the tree *)

Lemma nat_of_ascii_0 (c : ascii) : nat_of_ascii c = 0 <-> c = NUL.
Proof.
  split.
  - intros H. rewrite <- (ascii_nat_embedding c), H. reflexivity.
  - intros ->. reflexivity.
Qed.

Lemma nat_of_ascii_inj (a b : ascii) : nat_of_ascii a = nat_of_ascii b -> a = b.
Proof.
  intros H. rewrite <- (ascii_nat_embedding a), <- (ascii_nat_embedding b).
  now rewrite H.
Qed.

(** [strcmp] is zero exactly on buffers that hold the same C string. *)
Lemma strcmp_zero_iff (a b : string) :
  strcmp a b = 0%Z <-> c_str a = c_str b.
Proof.
  revert b. induction a as [|c1 r1 IH]; intros [|c2 r2]; simpl.
  - tauto.
  - destruct (Ascii.eqb c2 NUL) eqn:E.
    + apply Ascii.eqb_eq in E. subst. simpl. tauto.
    + split; [|discriminate]. intros H.
      assert (N : nat_of_ascii c2 = 0) by lia.
      apply nat_of_ascii_0 in N. subst. discriminate.
  - destruct (Ascii.eqb c1 NUL) eqn:E.
    + apply Ascii.eqb_eq in E. subst. simpl. tauto.
    + split; [|discriminate]. intros H.
      assert (N : nat_of_ascii c1 = 0) by lia.
      apply nat_of_ascii_0 in N. subst. discriminate.
  - destruct (Ascii.eqb c1 c2) eqn:E12.
    + apply Ascii.eqb_eq in E12. subst c2.
      destruct (Ascii.eqb c1 NUL); [tauto|].
      rewrite IH. split; [intros ->; reflexivity | congruence].
    + assert (Hne : c1 <> c2).
      { intros ->. rewrite Ascii.eqb_refl in E12. discriminate. }
      split.
      * intros H. exfalso. apply Hne. apply nat_of_ascii_inj. lia.
      * destruct (Ascii.eqb c1 NUL) eqn:E1, (Ascii.eqb c2 NUL) eqn:E2;
          try discriminate.
        -- apply Ascii.eqb_eq in E1, E2. congruence.
        -- congruence.
Qed.

Lemma strcmp_refl (a : string) : strcmp a a = 0%Z.
Proof. now apply strcmp_zero_iff. Qed.

Lemma strcmp_zero_trans (a b c : string) :
  strcmp a c = 0%Z -> strcmp b c = 0%Z -> strcmp a b = 0%Z.
Proof. rewrite !strcmp_zero_iff. congruence. Qed.

Lemma vp_walk_cmp_refl (a : string) : vp_walk_cmp a a = 0%Z.
Proof. apply strcmp_refl. Qed.

Lemma vp_walk_cmp_zero_trans (a b c : string) :
  vp_walk_cmp a c = 0%Z -> vp_walk_cmp b c = 0%Z -> vp_walk_cmp a b = 0%Z.
Proof. unfold vp_walk_cmp. rewrite !strcmp_zero_iff. congruence. Qed.

Section TreeFacts.

Context {V : Type}.
Variable cmp : string -> string -> Z.

Lemma lookup_insert_same (l : list (string * V)) (k : string) (v : V) :
  cmp k k = 0%Z -> lookup_nodes cmp (insert_nodes cmp l k v) k = Some v.
Proof.
  intros Hrefl. induction l as [|[k' v'] l IH]; simpl.
  - rewrite Hrefl. reflexivity.
  - destruct (cmp k k' =? 0)%Z eqn:E0; simpl.
    + rewrite E0. reflexivity.
    + destruct (cmp k k' <? 0)%Z; simpl.
      * rewrite Hrefl. reflexivity.
      * rewrite E0. exact IH.
Qed.

Lemma lookup_insert_other (l : list (string * V)) (k k' : string) (v' : V) :
  (forall a b c, cmp a c = 0%Z -> cmp b c = 0%Z -> cmp a b = 0%Z) ->
  cmp k k' <> 0%Z ->
  lookup_nodes cmp (insert_nodes cmp l k' v') k = lookup_nodes cmp l k.
Proof.
  intros Htrans Hne. apply Z.eqb_neq in Hne.
  induction l as [|[k2 v2] l IH]; simpl.
  - rewrite Hne. reflexivity.
  - destruct (cmp k' k2 =? 0)%Z eqn:E0; simpl.
    + destruct (cmp k k2 =? 0)%Z eqn:E1; [|reflexivity].
      apply Z.eqb_eq in E0, E1. apply Z.eqb_neq in Hne.
      exfalso. apply Hne. now apply (Htrans k k' k2).
    + destruct (cmp k' k2 <? 0)%Z; simpl.
      * rewrite Hne. reflexivity.
      * destruct (cmp k k2 =? 0)%Z; [reflexivity | exact IH].
Qed.

Lemma insert_nodes_Forall (Q : V -> Prop) (l : list (string * V))
  (k : string) (v : V) :
  Q v -> Forall (fun kv => Q (snd kv)) l ->
  Forall (fun kv => Q (snd kv)) (insert_nodes cmp l k v).
Proof.
  intros Hv. induction l as [|[k' v'] l IH]; intros Hl; simpl.
  - constructor; [exact Hv | constructor].
  - inversion Hl as [|? ? Hh Ht]; subst.
    destruct (cmp k k' =? 0)%Z.
    + constructor; [exact Hv | exact Ht].
    + destruct (cmp k k' <? 0)%Z.
      * constructor; [exact Hv | exact Hl].
      * constructor; [exact Hh | apply IH; exact Ht].
Qed.

End TreeFacts.

(** ** The scope set *)

Section ScopeSet.

Context {host : Host}.

Lemma g_tree_insert_nonempty (t : GTree SBTHGString) (k : string)
  (sb : SBTHGString) :
  0 < String.length (sb_string sb) -> values_nonempty t ->
  values_nonempty (g_tree_insert t k sb).
Proof.
  intros Hsb Ht. unfold values_nonempty, g_tree_insert. simpl.
  now apply (insert_nodes_Forall (key_compare t)
               (fun sb => 0 < String.length (sb_string sb))).
Qed.

Lemma substring_0_length (s : string) : substring 0 (String.length s) s = s.
Proof. induction s as [|c r IH]; simpl; [reflexivity | now rewrite IH]. Qed.

Lemma vp_pairs_foreach_nonempty (vp : ValuePairs) (args : EvalArgs)
  (vpc : VPPairConf) (t : GTree SBTHGString) :
  values_nonempty t -> values_nonempty (vp_pairs_foreach vp args vpc t).
Proof.
  intros Ht. unfold vp_pairs_foreach. cbv zeta.
  destruct (String.length _ =? 0)%nat eqn:E; [exact Ht|].
  apply g_tree_insert_nonempty; [|exact Ht].
  apply Nat.eqb_neq in E. lia.
Qed.

Lemma nv_table_foreach_entries_nonempty (vp : ValuePairs)
  (entries : list (NVHandle * string * string)) (t : GTree SBTHGString) :
  values_nonempty t ->
  values_nonempty
    (nv_table_foreach_entries entries (vp_msg_nvpairs_foreach vp) t).
Proof.
  revert t. induction entries as [|[[h n] v] entries IH]; intros t Ht; simpl.
  - exact Ht.
  - unfold vp_msg_nvpairs_foreach at 1.
    destruct (String.length v =? 0)%nat eqn:E; [now apply IH|].
    cbv zeta. destruct (negb _); [now apply IH|].
    apply IH. apply g_tree_insert_nonempty; [|exact Ht].
    simpl. rewrite substring_0_length. apply Nat.eqb_neq in E. lia.
Qed.

Lemma vp_merge_other_set_nonempty (vp : ValuePairs) (args : EvalArgs)
  (set : list ValuePairSpec) (t : GTree SBTHGString) (seed : bool) :
  values_nonempty t ->
  values_nonempty (vp_merge_other_set vp args set t seed).
Proof.
  revert t. induction set as [|e set IH]; intros t Ht; simpl.
  - exact Ht.
  - destruct (negb _); [now apply IH|].
    destruct (String.length _ =? 0)%nat eqn:E; [now apply IH|].
    apply IH. apply g_tree_insert_nonempty; [|exact Ht].
    apply Nat.eqb_neq in E. lia.
Qed.

Lemma value_pairs_base_set_nonempty (vp : ValuePairs) (args : EvalArgs)
  (t : GTree SBTHGString) :
  values_nonempty t -> values_nonempty (value_pairs_base_set vp args t).
Proof.
  intros Ht. unfold value_pairs_base_set, value_pairs_nvpairs_set,
    vp_merge_macros, vp_merge_set, nv_table_foreach. cbv zeta.
  repeat match goal with
         | |- values_nonempty (if ?c then _ else _) => destruct c
         | |- values_nonempty (vp_merge_other_set _ _ _ _ _) =>
             apply vp_merge_other_set_nonempty
         | |- values_nonempty (nv_table_foreach_entries _ _ _) =>
             apply nv_table_foreach_entries_nonempty
         end; exact Ht.
Qed.

Lemma value_pairs_scope_set_nonempty (vp : ValuePairs)
  (compare_func : string -> string -> Z) (args : EvalArgs) :
  values_nonempty (value_pairs_scope_set vp compare_func args).
Proof.
  unfold value_pairs_scope_set. cbv zeta.
  assert (H : values_nonempty
                (value_pairs_base_set vp args (g_tree_new_full compare_func))).
  { apply value_pairs_base_set_nonempty. constructor. }
  revert H. generalize (value_pairs_base_set vp args
                          (g_tree_new_full compare_func)).
  induction (vpairs vp) as [|vpc l IH]; intros t Ht; simpl.
  - exact Ht.
  - apply IH. now apply vp_pairs_foreach_nonempty.
Qed.

(** The comparator of the tree stays the one it was made with. *)
Lemma vp_pairs_foreach_compare (vp : ValuePairs) (args : EvalArgs)
  (vpc : VPPairConf) (t : GTree SBTHGString) :
  key_compare (vp_pairs_foreach vp args vpc t) = key_compare t.
Proof.
  unfold vp_pairs_foreach. cbv zeta.
  destruct (String.length _ =? 0)%nat; reflexivity.
Qed.

Lemma explicit_pairs_keep (vp : ValuePairs) (args : EvalArgs)
  (after : list VPPairConf) (t : GTree SBTHGString) (k : string) :
  (forall a b c, key_compare t a c = 0%Z -> key_compare t b c = 0%Z ->
                 key_compare t a b = 0%Z) ->
  (forall q, In q after -> pair_rendering args q <> "" ->
             key_compare t k (vp_transform_apply vp (pair_name q)) <> 0%Z) ->
  g_tree_lookup
    (fold_left (fun t vpc => vp_pairs_foreach vp args vpc t) after t) k
  = g_tree_lookup t k.
Proof.
  revert t. induction after as [|q after IH]; intros t Htrans Hafter; simpl.
  - reflexivity.
  - rewrite IH.
    + unfold vp_pairs_foreach. cbv zeta. simpl.
      destruct (String.length _ =? 0)%nat eqn:E; [reflexivity|].
      unfold g_tree_lookup, g_tree_insert. simpl.
      apply lookup_insert_other; [exact Htrans|].
      apply Hafter; [now left|].
      unfold pair_rendering. intros Hr. rewrite Hr in E. discriminate.
    + rewrite vp_pairs_foreach_compare. exact Htrans.
    + rewrite vp_pairs_foreach_compare. intros q' Hin.
      apply Hafter. now right.
Qed.

Lemma fold_pairs_compare (vp : ValuePairs) (args : EvalArgs)
  (l : list VPPairConf) (t : GTree SBTHGString) :
  key_compare (fold_left (fun t vpc => vp_pairs_foreach vp args vpc t) l t)
  = key_compare t.
Proof.
  revert t. induction l as [|q l IH]; intros t; simpl; [reflexivity|].
  rewrite IH. apply vp_pairs_foreach_compare.
Qed.

Lemma nv_table_foreach_entries_compare (vp : ValuePairs)
  (entries : list (NVHandle * string * string)) (t : GTree SBTHGString) :
  key_compare (nv_table_foreach_entries entries (vp_msg_nvpairs_foreach vp) t)
  = key_compare t.
Proof.
  revert t. induction entries as [|[[h n] v] entries IH]; intros t; simpl.
  - reflexivity.
  - unfold vp_msg_nvpairs_foreach at 1.
    destruct (String.length v =? 0)%nat; [apply IH|].
    cbv zeta. destruct (negb _); [apply IH|]. rewrite IH. reflexivity.
Qed.

Lemma vp_merge_other_set_compare (vp : ValuePairs) (args : EvalArgs)
  (set : list ValuePairSpec) (t : GTree SBTHGString) (seed : bool) :
  key_compare (vp_merge_other_set vp args set t seed) = key_compare t.
Proof.
  revert t. induction set as [|e set IH]; intros t; simpl; [reflexivity|].
  destruct (negb _); [apply IH|].
  destruct (String.length _ =? 0)%nat; [apply IH|].
  rewrite IH. reflexivity.
Qed.

Lemma value_pairs_base_set_compare (vp : ValuePairs) (args : EvalArgs)
  (t : GTree SBTHGString) :
  key_compare (value_pairs_base_set vp args t) = key_compare t.
Proof.
  unfold value_pairs_base_set, value_pairs_nvpairs_set,
    vp_merge_macros, vp_merge_set, nv_table_foreach. cbv zeta.
  repeat match goal with
         | |- key_compare (if ?c then _ else _) = _ => destruct c
         | |- key_compare (vp_merge_other_set _ _ _ _ _) = _ =>
             rewrite vp_merge_other_set_compare
         | |- key_compare (nv_table_foreach_entries _ _ _) = _ =>
             rewrite nv_table_foreach_entries_compare
         end; reflexivity.
Qed.

(** C1 (as amended). Explicit pairs are evaluated last: an explicit pair
    whose rendering is not empty, and whose transformed key is not the
    transformed key of a later explicit pair with a rendering that is not
    empty, is found in the final map under its transformed key, with the
    rendered value and the type hint of its template, whatever the earlier
    phases inserted under that key. *)
Theorem explicit_pairs_override (vp : ValuePairs)
  (compare_func : string -> string -> Z) (args : EvalArgs)
  (before after : list VPPairConf) (vpc : VPPairConf)
  (Hrefl : forall a, compare_func a a = 0%Z)
  (Htrans : forall a b c, compare_func a c = 0%Z -> compare_func b c = 0%Z ->
                          compare_func a b = 0%Z)
  (Hpairs : vpairs vp = before ++ vpc :: after)
  (Hrendered : pair_rendering args vpc <> "")
  (Hlast : forall q, In q after -> pair_rendering args q <> "" ->
             compare_func (vp_transform_apply vp (pair_name vpc))
                          (vp_transform_apply vp (pair_name q)) <> 0%Z) :
  g_tree_lookup (value_pairs_scope_set vp compare_func args)
                (vp_transform_apply vp (pair_name vpc))
  = Some (mkSB (pair_rendering args vpc)
               (template_type_hint (pair_template vpc))).
Proof.
  unfold value_pairs_scope_set. cbv zeta. rewrite Hpairs.
  rewrite fold_left_app. simpl.
  set (t0 := fold_left _ before _).
  assert (Hcmp : key_compare t0 = compare_func).
  { subst t0. rewrite fold_pairs_compare, value_pairs_base_set_compare.
    reflexivity. }
  rewrite explicit_pairs_keep.
  - unfold vp_pairs_foreach. cbv zeta. simpl.
    fold (pair_rendering args vpc).
    destruct (String.length (pair_rendering args vpc) =? 0)%nat eqn:E.
    + apply Nat.eqb_eq in E.
      destruct (pair_rendering args vpc); [congruence | discriminate].
    + unfold g_tree_lookup, g_tree_insert. simpl. rewrite Hcmp.
      apply lookup_insert_same. apply Hrefl.
  - rewrite vp_pairs_foreach_compare, Hcmp. exact Htrans.
  - rewrite vp_pairs_foreach_compare, Hcmp. exact Hlast.
Qed.

End ScopeSet.

(** ** The traversal *)

Section Foreach.

Context {A : Type}.
Variable func : VPForeachFunc A.

(** An invariant of the traversal: [Inv] holds as long as no call has
    failed, [Fin] once a call has failed. *)
Lemma foreach_nodes_helper_inv (Inv Fin : A -> Prop)
  (l : list (string * SBTHGString)) :
  (forall k v a, In (k, v) l -> Inv a ->
     if fst (func k (sb_type_hint v) (c_str (sb_string v)) a)
     then Fin (snd (func k (sb_type_hint v) (c_str (sb_string v)) a))
     else Inv (snd (func k (sb_type_hint v) (c_str (sb_string v)) a))) ->
  forall a, Inv a ->
    if snd (foreach_nodes l (vp_foreach_helper func) (a, true))
    then Inv (fst (foreach_nodes l (vp_foreach_helper func) (a, true)))
    else Fin (fst (foreach_nodes l (vp_foreach_helper func) (a, true))).
Proof.
  induction l as [|[k v] l IH]; intros Hstep a Ha; simpl.
  - exact Ha.
  - specialize (Hstep k v a (or_introl eq_refl) Ha) as Hkv.
    destruct (func k (sb_type_hint v) (c_str (sb_string v)) a)
      as [failed a'].
    simpl in Hkv. destruct failed; simpl.
    + exact Hkv.
    + apply IH; [|exact Hkv].
      intros k' v' a0 Hin. apply Hstep. now right.
Qed.

End Foreach.

Section WalkerFacts.

Context {host : Host} {U D : Type}.

Variable obj_start_func : @VPWalkCallbackFunc U D.
Variable process_value_func : @VPWalkValueCallbackFunc U D.
Variable obj_end_func : @VPWalkCallbackFunc U D.

Let state : Type := @vp_walk_state_t (U * list (@walk_event D)) D.
Let t_start := traced_obj_start obj_start_func.
Let t_end := traced_obj_end obj_end_func.
Let t_value := traced_process_value process_value_func.

Lemma nested_app (p : option string) (a b : list (@walk_event D)) :
  nested p a -> nested p b -> nested p (a ++ b).
Proof.
  intros Ha Hb. induction Ha as [p|p n ty v d r tr Htr IH
                                 |p k pre d pd d' pd' body tr Hbody _ Htr IH].
  - exact Hb.
  - simpl. constructor. now apply IH.
  - simpl. rewrite <- app_assoc. simpl. constructor; [exact Hbody|].
    now apply IH.
Qed.

Lemma open_form_app (sh : list (string * string))
  (tr x : list (@walk_event D)) :
  nested (top_prefix sh) x -> open_form sh tr -> open_form sh (tr ++ x).
Proof.
  destruct sh as [|[k pre] below]; simpl.
  - intros Hx Htr. now apply nested_app.
  - intros Hx (tr0 & body & d & pd & -> & Hbody & Hbelow).
    exists tr0, (body ++ x), d, pd. split; [|split].
    + rewrite <- app_assoc. reflexivity.
    + now apply nested_app.
    + exact Hbelow.
Qed.

Lemma open_form_push (sh : list (string * string)) (k pre : string)
  (d pd : option (@gpointer D)) (tr : list (@walk_event D)) :
  open_form sh tr ->
  open_form ((k, pre) :: sh)
            (tr ++ [EvObjStart (Some k) (Some pre) d (top_prefix sh) pd]).
Proof.
  intros H. simpl. exists tr, [], d, pd.
  split; [reflexivity | split; [constructor | exact H]].
Qed.

Lemma open_form_pop (below : list (string * string)) (k pre : string)
  (d pd : option (@gpointer D)) (tr : list (@walk_event D)) :
  open_form ((k, pre) :: below) tr ->
  open_form below
            (tr ++ [EvObjEnd (Some k) (Some pre) d (top_prefix below) pd]).
Proof.
  simpl. intros (tr0 & body & d0 & pd0 & -> & Hbody & Hbelow).
  rewrite <- app_assoc. apply open_form_app; [|exact Hbelow].
  simpl. apply (nested_obj _ _ _ _ _ _ _ body []); [exact Hbody | constructor].
Qed.

Lemma open_form_value (sh : list (string * string)) (n : string)
  (ty : TypeHint) (v : string) (d : option (@gpointer D)) (r : bool)
  (tr : list (@walk_event D)) :
  open_form sh tr ->
  open_form sh (tr ++ [EvValue n (top_prefix sh) ty v d r]).
Proof.
  intros H. apply open_form_app; [|exact H]. repeat constructor.
Qed.

Lemma extends_refl (st : state) : extends st st [].
Proof.
  split; [now rewrite app_nil_r|]. intros inner H. now rewrite app_nil_r.
Qed.

Lemma extends_trans (a b c : state) (e1 e2 : list (@walk_event D)) :
  extends a b e1 -> extends b c e2 -> extends a c (e1 ++ e2).
Proof.
  intros [T1 O1] [T2 O2]. split.
  - rewrite T2, T1, app_assoc. reflexivity.
  - intros inner H. rewrite app_assoc. apply O2, O1, H.
Qed.

Lemma unwind_popped_extends (below : @vp_stack_t D)
  (t : @vp_walk_stack_data_t D) (user : U * list (@walk_event D))
  (name : option string) :
  exists ends,
    extends (mkWalkState user (t :: below))
            (unwind_popped t_end t below user name) ends
    /\ Forall (fun e => is_obj_end e = true) ends.
Proof.
  revert t user. induction below as [|p below IH]; intros t user; simpl.
  - destruct (unwind_match name t).
    + exists []. split; [apply extends_refl | constructor].
    + exists [EvObjEnd (Some (key t)) (Some (prefix t)) (Some (data t))
                       None None].
      split; [|repeat constructor].
      split; [reflexivity|].
      intros inner H. simpl.
      apply (open_form_pop [] (key t) (prefix t)). exact H.
  - destruct (unwind_match name t).
    + exists []. split; [apply extends_refl | constructor].
    + match goal with
      | |- context [unwind_popped _ ?p' below ?u' name] =>
          destruct (IH p' u') as (ends & Hext & Hends)
      end.
      exists (EvObjEnd (Some (key t)) (Some (prefix t)) (Some (data t))
                       (Some (prefix p)) (Some (data p)) :: ends).
      split; [|constructor; [reflexivity | exact Hends]].
      destruct Hext as [T O]. split.
      * rewrite T. simpl. unfold trace_of. simpl.
        rewrite <- app_assoc. reflexivity.
      * intros inner H. simpl in *.
        change (inner ++ ?e :: ends) with (inner ++ [e] ++ ends).
        rewrite app_assoc. apply O.
        apply (open_form_pop ((key p, prefix p) :: shapes below)
                             (key t) (prefix t)).
        exact H.
Qed.

Lemma unwind_extends (st : state) (name : option string) :
  exists ends,
    extends st (vp_walker_stack_unwind_containers_until t_end st name) ends
    /\ Forall (fun e => is_obj_end e = true) ends.
Proof.
  unfold vp_walker_stack_unwind_containers_until.
  destruct st as [user [|t below]]; simpl.
  - exists []. split; [apply extends_refl | constructor].
  - apply unwind_popped_extends.
Qed.

Lemma shapes_set_data (t : @vp_walk_stack_data_t D) (d : @gpointer D)
  (below : @vp_stack_t D) :
  shapes (set_data t d :: below) = shapes (t :: below).
Proof. reflexivity. Qed.

Lemma start_container_extends (tokens : list string) (st : state) (i : nat) :
  exists d pd,
    extends st (start_container t_start tokens st i)
      [EvObjStart (Some (nth i tokens ""))
         (Some (vp_walker_name_combine_prefix tokens i)) d
         (top_prefix (shapes (stack st))) pd].
Proof.
  destruct st as [user [|p below]]; unfold start_container; simpl.
  - exists (Some None), None. split; [reflexivity|].
    intros inner H. simpl.
    apply (open_form_push [] (nth i tokens "")
             (vp_walker_name_combine_prefix tokens i)). exact H.
  - exists (Some None), (Some (data p)). split; [reflexivity|].
    intros inner H. simpl.
    apply (open_form_push ((key p, prefix p) :: shapes below)
             (nth i tokens "") (vp_walker_name_combine_prefix tokens i)).
    exact H.
Qed.

Lemma start_containers_extends (tokens : list string) (l : list nat)
  (st : state) :
  exists starts,
    extends st (fold_left (start_container t_start tokens) l st) starts
    /\ Forall (fun e => is_obj_start e = true) starts.
Proof.
  revert st. induction l as [|i l IH]; intros st; simpl.
  - exists []. split; [apply extends_refl | constructor].
  - destruct (start_container_extends tokens st i) as (d & pd & H1).
    destruct (IH (start_container t_start tokens st i)) as (starts & H2 & F).
    eexists (_ :: starts). split.
    + exact (extends_trans _ _ _ _ _ H1 H2).
    + constructor; [reflexivity | exact F].
Qed.

Lemma start_for_name_extends (st : state) (name : string) :
  exists starts,
    extends st (snd (vp_walker_start_containers_for_name t_start st name))
            starts
    /\ Forall (fun e => is_obj_start e = true) starts.
Proof.
  unfold vp_walker_start_containers_for_name.
  destruct (vp_walker_split_name_to_tokens name) as [tokens|]; simpl.
  - apply start_containers_extends.
  - exists []. split; [apply extends_refl | constructor].
Qed.

(** One call of the walker: it closes containers, opens containers and
    delivers the value, in this order. *)
Lemma value_pairs_walker_extends (name : string) (ty : TypeHint)
  (value : string) (st : state) :
  exists ends starts k pfx d,
    extends st
      (snd (value_pairs_walker t_start t_end t_value name ty value st))
      (ends ++ starts
       ++ [EvValue k pfx ty value d
             (fst (value_pairs_walker t_start t_end t_value name ty value
                                      st))])
    /\ Forall (fun e => is_obj_end e = true) ends
    /\ Forall (fun e => is_obj_start e = true) starts.
Proof.
  unfold value_pairs_walker.
  destruct (unwind_extends st (Some name)) as (ends & H1 & Fe).
  set (st1 := vp_walker_stack_unwind_containers_until t_end st (Some name))
    in *.
  destruct (start_for_name_extends st1 name) as (starts & H2 & Fs).
  destruct (vp_walker_start_containers_for_name t_start st1 name)
    as [k st2]. simpl in H2.
  destruct st2 as [user2 [|top below]]; simpl.
  - exists ends, starts, k, None, None. split; [|split; assumption].
    apply (extends_trans _ _ _ _ _ H1).
    apply (extends_trans _ _ _ _ _ H2).
    split; [reflexivity|].
    intros inner H. simpl in *.
    apply (open_form_value [] k ty value None). exact H.
  - exists ends, starts, k, (Some (prefix top)), (Some (data top)).
    split; [|split; assumption].
    apply (extends_trans _ _ _ _ _ H1).
    apply (extends_trans _ _ _ _ _ H2).
    split; [reflexivity|].
    intros inner H. simpl in *.
    apply (open_form_value ((key top, prefix top) :: shapes below)
             k ty value (Some (data top))). exact H.
Qed.

Lemma unwind_popped_all (below : @vp_stack_t D)
  (t : @vp_walk_stack_data_t D) (user : U * list (@walk_event D)) :
  stack (unwind_popped t_end t below user None) = [].
Proof.
  revert t user. induction below as [|p below IH]; intros t user; simpl.
  - reflexivity.
  - apply IH.
Qed.

Lemma unwind_all_empty (st : state) :
  stack (vp_walker_stack_unwind_all_containers t_end st) = [].
Proof.
  unfold vp_walker_stack_unwind_all_containers,
    vp_walker_stack_unwind_containers_until.
  destruct st as [user [|t below]]; simpl; [reflexivity|].
  apply unwind_popped_all.
Qed.

Lemma obj_end_not_failed (l : list (@walk_event D)) :
  Forall (fun e => is_obj_end e = true) l ->
  Forall (fun e => value_failed e = false) l
  /\ forall m, Forall (value_of_map m) l.
Proof.
  intros H. split; [|intros m]; (eapply Forall_impl; [|exact H]);
    intros [ | | ]; simpl; intros; try discriminate; auto.
Qed.

Lemma obj_start_not_failed (l : list (@walk_event D)) :
  Forall (fun e => is_obj_start e = true) l ->
  Forall (fun e => value_failed e = false) l
  /\ forall m, Forall (value_of_map m) l.
Proof.
  intros H. split; [|intros m]; (eapply Forall_impl; [|exact H]);
    intros [ | | ]; simpl; intros; try discriminate; auto.
Qed.

Lemma value_pairs_walker_inv (m : list (string * SBTHGString))
  (name : string) (ty : TypeHint) (value : string) (st : state) :
  (exists k sb,
      In (k, sb) m /\ ty = sb_type_hint sb /\ value = c_str (sb_string sb)) ->
  walk_inv m st ->
  if fst (value_pairs_walker t_start t_end t_value name ty value st)
  then walk_fin m
         (snd (value_pairs_walker t_start t_end t_value name ty value st))
  else walk_inv m
         (snd (value_pairs_walker t_start t_end t_value name ty value st)).
Proof.
  intros Hpos (inner & Htr & Hopen & Hok & Hlen).
  destruct (value_pairs_walker_extends name ty value st)
    as (ends & starts & k & pfx & d & [T O] & Fe & Fs).
  destruct (obj_end_not_failed ends Fe) as [Fe1 Fe2].
  destruct (obj_start_not_failed starts Fs) as [Fs1 Fs2].
  specialize (Fe2 m). specialize (Fs2 m).
  destruct (fst (value_pairs_walker t_start t_end t_value name ty value st))
    eqn:Eret.
  - exists (inner ++ ends ++ starts), (EvValue k pfx ty value d true).
    split; [|split; [|split; [|split]]].
    + rewrite T, Htr. simpl. rewrite <- !app_assoc. reflexivity.
    + rewrite <- !app_assoc. apply O, Hopen.
    + rewrite !Forall_app. auto.
    + reflexivity.
    + rewrite !Forall_app. repeat split; auto.
  - exists (inner ++ ends ++ starts ++ [EvValue k pfx ty value d false]).
    split; [|split; [|split]].
    + rewrite T, Htr. reflexivity.
    + apply O, Hopen.
    + rewrite !Forall_app. repeat split; auto.
    + rewrite !Forall_app. repeat split; auto.
Qed.

(** The shape of the calls of a whole walk. *)
Lemma walk_trace_structure (vp : ValuePairs) (args : EvalArgs) (user : U) :
  exists inner ends,
    snd (value_pairs_walk_trace vp obj_start_func process_value_func
           obj_end_func args user)
    = root_start :: inner ++ ends ++ [root_end]
    /\ nested None (inner ++ ends)
    /\ Forall (fun e => is_obj_end e = true) ends
    /\ Forall (value_of_map
                 (nodes (value_pairs_scope_set vp vp_walk_cmp args))) inner
    /\ (if fst (value_pairs_walk_trace vp obj_start_func process_value_func
                  obj_end_func args user)
        then Forall (fun e => value_failed e = false) inner
        else exists inner0 e,
               inner = inner0 ++ [e]
               /\ Forall (fun e => value_failed e = false) inner0
               /\ value_failed e = true).
Proof.
  unfold value_pairs_walk_trace, value_pairs_walk,
    value_pairs_foreach_sorted, g_tree_foreach. cbv zeta.
  set (st1 := mkWalkState (wr_user_data _) _).
  set (m := nodes (value_pairs_scope_set vp vp_walk_cmp args)).
  assert (H1 : walk_inv m st1).
  { exists []. repeat split; constructor. }
  pose proof (foreach_nodes_helper_inv
                (value_pairs_walker t_start t_end t_value)
                (walk_inv m) (walk_fin m) m) as Hinv.
  specialize (Hinv (fun k v a Hin Ha =>
                      value_pairs_walker_inv m k (sb_type_hint v)
                        (c_str (sb_string v)) a
                        (ex_intro _ k
                           (ex_intro _ v
                              (conj Hin (conj eq_refl eq_refl)))) Ha)
                   st1 H1).
  fold t_start t_end t_value.
  destruct (foreach_nodes _ _ (st1, true)) as [st2 result]. simpl in Hinv.
  destruct (unwind_extends st2 None) as (ends & [T O] & Fe).
  fold (vp_walker_stack_unwind_all_containers t_end st2) in T, O.
  pose proof (unwind_all_empty st2) as Hempty.
  set (st3 := vp_walker_stack_unwind_all_containers t_end st2) in *.
  rewrite Hempty in O. simpl in O. simpl.
  change (snd (user_data
                 (vp_walker_stack_unwind_all_containers
                    (traced_obj_end obj_end_func) st2)))
    with (trace_of st3).
  rewrite T.
  destruct result.
  - destruct Hinv as (inner & Htr & Hopen & Hok & Hlen).
    exists inner, ends. rewrite Htr. simpl.
    split; [now rewrite <- app_assoc|].
    split; [apply O, Hopen|]. auto.
  - destruct Hinv as (inner & e & Htr & Hopen & Hok & He & Hlen).
    exists (inner ++ [e]), ends. rewrite Htr. simpl.
    split; [now rewrite <- !app_assoc|].
    split; [apply O, Hopen|].
    split; [exact Fe|]. split; [exact Hlen|].
    exists inner, e. auto.
Qed.

Lemma nested_balanced (p : option string) (tr : list (@walk_event D)) :
  nested p tr ->
  Permutation (map container_of (filter is_obj_start tr))
              (map container_of (filter is_obj_end tr)).
Proof.
  intros H. induction H as [p|p n ty v d r tr Htr IH
                            |p k pre d pd d' pd' body tr Hbody IHb Htr IHt].
  - constructor.
  - simpl. exact IH.
  - simpl. rewrite !filter_app, !map_app. simpl.
    apply Permutation_cons_app. now apply Permutation_app.
Qed.

End WalkerFacts.

(** Among the elements of a list, the one that satisfies [P] when no other
    does is found at one place only. *)
Lemma single_split {A : Type} (P : A -> bool) (a b pre post : list A)
  (x e : A) :
  Forall (fun y => P y = false) a ->
  Forall (fun y => P y = false) b ->
  a ++ x :: b = pre ++ e :: post ->
  P e = true ->
  pre = a /\ e = x /\ post = b.
Proof.
  intros Ha Hb. revert pre. induction a as [|y a IH]; intros pre Heq He.
  - destruct pre as [|y' pre]; simpl in Heq.
    + injection Heq as -> ->. auto.
    + injection Heq as -> ->. rewrite Forall_forall in Hb.
      rewrite (Hb e) in He; [discriminate|].
      apply in_or_app. right. now left.
  - inversion Ha as [|? ? Hy Ha']; subst.
    destruct pre as [|y' pre]; simpl in Heq.
    + injection Heq as -> _. rewrite Hy in He. discriminate.
    + injection Heq as -> Heq.
      destruct (IH Ha' pre Heq He) as (-> & -> & ->). auto.
Qed.

(** ** Noting the calls does not change the traversal *)

Section Faithful.

Context {host : Host} {U D : Type}.

Lemma traced_foreach_nodes (func : VPForeachFunc U)
  (l : list (string * SBTHGString)) (a : U)
  (tr : list foreach_call) (r : bool) :
  fst (fst (foreach_nodes l (vp_foreach_helper (traced_func func))
              ((a, tr), r)))
  = fst (foreach_nodes l (vp_foreach_helper func) (a, r))
  /\ snd (foreach_nodes l (vp_foreach_helper (traced_func func))
            ((a, tr), r))
     = snd (foreach_nodes l (vp_foreach_helper func) (a, r)).
Proof.
  revert a tr r. induction l as [|[k v] l IH]; intros a tr r; simpl.
  - split; reflexivity.
  - unfold traced_func at 1 3. simpl.
    destruct (func k (sb_type_hint v) (c_str (sb_string v)) a)
      as [failed a'].
    simpl. destruct (negb (r && negb failed)); simpl.
    + split; reflexivity.
    + apply IH.
Qed.

(** The flat traversal returns the same result and leaves the same user
    data whether or not the calls are noted. *)
Lemma foreach_trace_faithful (vp : ValuePairs) (func : VPForeachFunc U)
  (compare_func : string -> string -> Z) (args : EvalArgs) (user : U) :
  fst (value_pairs_foreach_trace vp func compare_func args user)
  = fst (value_pairs_foreach_sorted vp func compare_func args user)
  /\ fst (snd (value_pairs_foreach_sorted vp (traced_func func) compare_func
                 args (user, [])))
     = snd (value_pairs_foreach_sorted vp func compare_func args user).
Proof.
  unfold value_pairs_foreach_trace, value_pairs_foreach_sorted,
    g_tree_foreach. cbv zeta.
  destruct (traced_foreach_nodes func
              (nodes (value_pairs_scope_set vp compare_func args)) user []
              true) as [H1 H2].
  destruct (foreach_nodes _ (vp_foreach_helper (traced_func func)) _)
    as [[u tr] r].
  destruct (foreach_nodes _ (vp_foreach_helper func) _) as [u' r'].
  simpl in *. subst. split; reflexivity.
Qed.

Variable obj_start_func : @VPWalkCallbackFunc U D.
Variable process_value_func : @VPWalkValueCallbackFunc U D.
Variable obj_end_func : @VPWalkCallbackFunc U D.

Local Abbreviation t_start := (traced_obj_start obj_start_func).
Local Abbreviation t_end := (traced_obj_end obj_end_func).
Local Abbreviation t_value := (traced_process_value process_value_func).

Lemma forget_unwind_popped (below : @vp_stack_t D)
  (t : @vp_walk_stack_data_t D) (user : U * list (@walk_event D))
  (name : option string) :
  forget (unwind_popped t_end t below user name)
  = unwind_popped obj_end_func t below (fst user) name.
Proof.
  revert t user. induction below as [|p below IH]; intros t user;
    cbn [unwind_popped]; destruct (unwind_match name t); try reflexivity.
  rewrite IH. reflexivity.
Qed.

Lemma forget_unwind (st : @vp_walk_state_t (U * list (@walk_event D)) D)
  (name : option string) :
  forget (vp_walker_stack_unwind_containers_until t_end st name)
  = vp_walker_stack_unwind_containers_until obj_end_func (forget st) name.
Proof.
  unfold vp_walker_stack_unwind_containers_until.
  destruct st as [user [|t below]]; [reflexivity|].
  apply forget_unwind_popped.
Qed.

Lemma forget_start_container (tokens : list string)
  (st : @vp_walk_state_t (U * list (@walk_event D)) D) (i : nat) :
  forget (start_container t_start tokens st i)
  = start_container obj_start_func tokens (forget st) i.
Proof. destruct st as [user [|p below]]; reflexivity. Qed.

Lemma forget_start_containers (tokens : list string) (l : list nat)
  (st : @vp_walk_state_t (U * list (@walk_event D)) D) :
  forget (fold_left (start_container t_start tokens) l st)
  = fold_left (start_container obj_start_func tokens) l (forget st).
Proof.
  revert st. induction l as [|i l IH]; intros st; simpl; [reflexivity|].
  rewrite IH, forget_start_container. reflexivity.
Qed.

Lemma forget_start_for_name
  (st : @vp_walk_state_t (U * list (@walk_event D)) D) (name : string) :
  fst (vp_walker_start_containers_for_name t_start st name)
  = fst (vp_walker_start_containers_for_name obj_start_func (forget st) name)
  /\ forget (snd (vp_walker_start_containers_for_name t_start st name))
     = snd (vp_walker_start_containers_for_name obj_start_func (forget st)
              name).
Proof.
  unfold vp_walker_start_containers_for_name.
  destruct (vp_walker_split_name_to_tokens name) as [tokens|]; simpl.
  - split; [reflexivity|]. apply forget_start_containers.
  - split; reflexivity.
Qed.

Lemma forget_walker (name : string) (ty : TypeHint) (value : string)
  (st : @vp_walk_state_t (U * list (@walk_event D)) D) :
  fst (value_pairs_walker t_start t_end t_value name ty value st)
  = fst (value_pairs_walker obj_start_func obj_end_func process_value_func
           name ty value (forget st))
  /\ forget (snd (value_pairs_walker t_start t_end t_value name ty value st))
     = snd (value_pairs_walker obj_start_func obj_end_func process_value_func
              name ty value (forget st)).
Proof.
  unfold value_pairs_walker.
  rewrite <- forget_unwind.
  destruct (forget_start_for_name
              (vp_walker_stack_unwind_containers_until t_end st (Some name))
              name) as [Hk Hst].
  destruct (vp_walker_start_containers_for_name t_start _ name) as [k st2].
  destruct (vp_walker_start_containers_for_name obj_start_func _ name)
    as [k' st2'].
  simpl in Hk, Hst. subst k' st2'.
  destruct st2 as [user2 [|top below]]; simpl; split; reflexivity.
Qed.

Lemma forget_foreach_nodes (l : list (string * SBTHGString))
  (st : @vp_walk_state_t (U * list (@walk_event D)) D)
  (st' : @vp_walk_state_t U D) (r : bool) :
  forget st = st' ->
  forget (fst (foreach_nodes l
                 (vp_foreach_helper
                    (value_pairs_walker t_start t_end t_value)) (st, r)))
  = fst (foreach_nodes l
           (vp_foreach_helper
              (value_pairs_walker obj_start_func obj_end_func
                 process_value_func)) (st', r))
  /\ snd (foreach_nodes l
            (vp_foreach_helper
               (value_pairs_walker t_start t_end t_value)) (st, r))
     = snd (foreach_nodes l
              (vp_foreach_helper
                 (value_pairs_walker obj_start_func obj_end_func
                    process_value_func)) (st', r)).
Proof.
  intros <-. revert st r.
  induction l as [|[k v] l IH]; intros st r; simpl.
  - split; reflexivity.
  - destruct (forget_walker k (sb_type_hint v) (c_str (sb_string v)) st)
      as [H1 H2].
    destruct (value_pairs_walker t_start t_end t_value k _ _ st)
      as [failed st1].
    destruct (value_pairs_walker obj_start_func obj_end_func
                process_value_func k _ _ (forget st)) as [failed' st1'].
    simpl in H1, H2. subst failed' st1'. simpl.
    destruct (negb (r && negb failed)); simpl.
    + split; reflexivity.
    + apply IH.
Qed.

(** The walk returns the same result and leaves the same user data whether
    or not the calls are noted. *)
Lemma walk_trace_faithful (vp : ValuePairs) (args : EvalArgs) (user : U) :
  fst (value_pairs_walk_trace vp obj_start_func process_value_func
         obj_end_func args user)
  = fst (value_pairs_walk obj_start_func obj_end_func process_value_func
           vp args user)
  /\ fst (snd (value_pairs_walk t_start t_end t_value vp args (user, [])))
     = snd (value_pairs_walk obj_start_func obj_end_func process_value_func
              vp args user).
Proof.
  unfold value_pairs_walk_trace, value_pairs_walk,
    value_pairs_foreach_sorted, g_tree_foreach. cbv zeta.
  match goal with
  | |- context [foreach_nodes ?l
                  (vp_foreach_helper
                     (value_pairs_walker t_start t_end t_value)) (?st, true)]
    =>
      match goal with
      | |- context [foreach_nodes l
                      (vp_foreach_helper
                         (value_pairs_walker obj_start_func obj_end_func
                            process_value_func)) (?st', true)] =>
          destruct (forget_foreach_nodes l st st' true eq_refl) as [H1 H2];
          destruct (foreach_nodes l
                      (vp_foreach_helper
                         (value_pairs_walker t_start t_end t_value))
                      (st, true)) as [st2 r];
          destruct (foreach_nodes l
                      (vp_foreach_helper
                         (value_pairs_walker obj_start_func obj_end_func
                            process_value_func)) (st', true)) as [st2' r']
      end
  end.
  simpl in H1, H2. subst st2' r'.
  pose proof (forget_unwind st2 None) as H3.
  unfold vp_walker_stack_unwind_all_containers.
  rewrite <- H3.
  destruct (vp_walker_stack_unwind_containers_until t_end st2 None)
    as [user3 stack3].
  simpl. split; reflexivity.
Qed.

End Faithful.

Section Consumers.

Context {host : Host}.

(** The shape of the calls of a flat traversal. *)
Lemma foreach_trace_structure {U : Type} (vp : ValuePairs)
  (func : VPForeachFunc U) (compare_func : string -> string -> Z)
  (args : EvalArgs) (user : U) :
  Forall (call_of_map (nodes (value_pairs_scope_set vp compare_func args)))
         (snd (value_pairs_foreach_trace vp func compare_func args user))
  /\ (if fst (value_pairs_foreach_trace vp func compare_func args user)
      then Forall (fun c => call_ret c = false)
             (snd (value_pairs_foreach_trace vp func compare_func args user))
      else exists calls c,
             snd (value_pairs_foreach_trace vp func compare_func args user)
             = calls ++ [c]
             /\ Forall (fun c => call_ret c = false) calls
             /\ call_ret c = true).
Proof.
  unfold value_pairs_foreach_trace, value_pairs_foreach_sorted,
    g_tree_foreach. cbv zeta.
  set (m := nodes (value_pairs_scope_set vp compare_func args)).
  pose proof (foreach_nodes_helper_inv (traced_func func)
    (fun a => Forall (call_of_map m) (snd a)
              /\ Forall (fun c => call_ret c = false) (snd a))
    (fun a => Forall (call_of_map m) (snd a)
              /\ exists calls c,
                   snd a = calls ++ [c]
                   /\ Forall (fun c => call_ret c = false) calls
                   /\ call_ret c = true)
    m) as Hinv.
  cbv beta in Hinv.
  assert (Hstep : forall k v a,
    In (k, v) m ->
    Forall (call_of_map m) (snd a)
    /\ Forall (fun c => call_ret c = false) (snd a) ->
    if fst (traced_func func k (sb_type_hint v) (c_str (sb_string v)) a)
    then Forall (call_of_map m)
           (snd (snd (traced_func func k (sb_type_hint v)
                        (c_str (sb_string v)) a)))
         /\ exists calls c,
              snd (snd (traced_func func k (sb_type_hint v)
                          (c_str (sb_string v)) a))
              = calls ++ [c]
              /\ Forall (fun c => call_ret c = false) calls
              /\ call_ret c = true
    else Forall (call_of_map m)
           (snd (snd (traced_func func k (sb_type_hint v)
                        (c_str (sb_string v)) a)))
         /\ Forall (fun c => call_ret c = false)
              (snd (snd (traced_func func k (sb_type_hint v)
                           (c_str (sb_string v)) a)))).
  { intros k v a Hin [Hpos Hok]. unfold traced_func.
    assert (Hc : forall ret,
               call_of_map m
                 (mkCall k (sb_type_hint v) (c_str (sb_string v)) ret)).
    { intros ret. exists k, v. repeat split. exact Hin. }
    destruct (func k (sb_type_hint v) (c_str (sb_string v)) (fst a))
      as [ret u].
    simpl. destruct ret.
    - split.
      + rewrite Forall_app. split; [exact Hpos|]. repeat constructor.
        apply Hc.
      + eexists _, _. split; [reflexivity|]. split; [exact Hok|reflexivity].
    - split; rewrite Forall_app; (split; [assumption|]);
        repeat constructor. apply Hc. }
  specialize (Hinv Hstep (user, []) (conj (Forall_nil _) (Forall_nil _))).
  destruct (foreach_nodes _ _ _) as [[u calls] result]. simpl in *.
  destruct result; destruct Hinv as [Hpos Hrest]; split; assumption.
Qed.

Lemma c_str_nonempty (s : string) :
  0 < String.length (c_str s) <-> char_at s 0 <> NUL.
Proof.
  destruct s as [|c r]; simpl.
  - split; [lia | intros H; now elim H].
  - change (char_at (String c r) 0) with c.
    destruct (Ascii.eqb c NUL) eqn:E.
    + apply Ascii.eqb_eq in E. subst c. simpl. split; [lia|].
      intros H. now elim H.
    + apply Ascii.eqb_neq in E. simpl. split; [auto | lia].
Qed.

(** C2 (as amended). No empty value in the map: in the final map every
    value is a buffer of length greater than zero, the empty values of the
    name-value pairs of the message, of the merged macros and handles and
    of the rendered explicit pairs having been dropped before insertion.
    The callback of the flat traversal and the value callback of the
    walker are handed such a value as a C string, the bytes before its
    first NUL: what they read is empty exactly when the value begins with
    a NUL. *)
Theorem values_never_empty (vp : ValuePairs)
  (compare_func : string -> string -> Z) (args : EvalArgs) :
  (forall k sb,
      In (k, sb) (nodes (value_pairs_scope_set vp compare_func args)) ->
      0 < String.length (sb_string sb))
  /\ (forall (U : Type) (func : VPForeachFunc U) (user : U) c,
         In c (snd (value_pairs_foreach_trace vp func compare_func args user))
         -> exists k sb,
              In (k, sb) (nodes (value_pairs_scope_set vp compare_func args))
              /\ call_value c = c_str (sb_string sb)
              /\ 0 < String.length (sb_string sb)
              /\ (0 < String.length (call_value c)
                  <-> char_at (sb_string sb) 0 <> NUL))
  /\ (forall (U D : Type) (obj_start_func : @VPWalkCallbackFunc U D)
        (process_value_func : @VPWalkValueCallbackFunc U D)
        (obj_end_func : @VPWalkCallbackFunc U D) (user : U)
        n pfx ty value d ret,
         In (EvValue n pfx ty value d ret)
            (snd (value_pairs_walk_trace vp obj_start_func process_value_func
                    obj_end_func args user)) ->
         exists k sb,
           In (k, sb) (nodes (value_pairs_scope_set vp vp_walk_cmp args))
           /\ value = c_str (sb_string sb)
           /\ 0 < String.length (sb_string sb)
           /\ (0 < String.length value
               <-> char_at (sb_string sb) 0 <> NUL)).
Proof.
  assert (Hne : forall cmp k sb,
             In (k, sb) (nodes (value_pairs_scope_set vp cmp args)) ->
             0 < String.length (sb_string sb)).
  { intros cmp k sb Hin.
    pose proof (value_pairs_scope_set_nonempty vp cmp args) as Hne.
    unfold values_nonempty in Hne. rewrite Forall_forall in Hne.
    exact (Hne (k, sb) Hin). }
  split; [|split].
  - apply Hne.
  - intros U func user c Hin.
    destruct (foreach_trace_structure vp func compare_func args user)
      as [Hmap _].
    rewrite Forall_forall in Hmap.
    destruct (Hmap c Hin) as (k & sb & Hk & _ & _ & Hv).
    exists k, sb. split; [exact Hk|]. split; [exact Hv|].
    split; [exact (Hne _ k sb Hk)|]. rewrite Hv. apply c_str_nonempty.
  - intros U D s v e user n pfx ty value d ret Hin.
    destruct (walk_trace_structure s v e vp args user)
      as (inner & ends & Htr & _ & Fe & Hmap & _).
    rewrite Htr in Hin. simpl in Hin.
    destruct Hin as [Hin|Hin]; [discriminate|].
    apply in_app_or in Hin as [Hin|Hin].
    + rewrite Forall_forall in Hmap.
      destruct (Hmap _ Hin) as (k & sb & Hk & _ & Hv).
      exists k, sb. split; [exact Hk|]. split; [exact Hv|].
      split; [exact (Hne _ k sb Hk)|]. rewrite Hv. apply c_str_nonempty.
    + apply in_app_or in Hin as [Hin|Hin].
      * rewrite Forall_forall in Fe. specialize (Fe _ Hin). discriminate.
      * destruct Hin as [Hin|[]]. discriminate.
Qed.

(** C6. Walker balance: the calls of a walk start with the outer
    [obj_start] on null arguments and end with the outer [obj_end] on null
    arguments; between the two they are nested, so that the [obj_end] of a
    container comes after all the calls made inside it; and the containers
    started are the containers ended, counted with multiplicity. *)
Theorem walker_balance {U D : Type} (vp : ValuePairs)
  (obj_start_func : @VPWalkCallbackFunc U D)
  (process_value_func : @VPWalkValueCallbackFunc U D)
  (obj_end_func : @VPWalkCallbackFunc U D) (args : EvalArgs) (user : U) :
  exists body,
    snd (value_pairs_walk_trace vp obj_start_func process_value_func
           obj_end_func args user)
    = EvObjStart None None None None None
      :: body ++ [EvObjEnd None None None None None]
    /\ nested None body
    /\ Permutation
         (map container_of
            (filter is_obj_start
               (snd (value_pairs_walk_trace vp obj_start_func
                       process_value_func obj_end_func args user))))
         (map container_of
            (filter is_obj_end
               (snd (value_pairs_walk_trace vp obj_start_func
                       process_value_func obj_end_func args user)))).
Proof.
  destruct (walk_trace_structure obj_start_func process_value_func
              obj_end_func vp args user)
    as (inner & ends & Htr & Hnested & _).
  exists (inner ++ ends). rewrite Htr.
  split; [now rewrite <- app_assoc|]. split; [exact Hnested|].
  rewrite app_assoc. apply nested_balanced in Hnested.
  revert Hnested. generalize (inner ++ ends). intros body Hbody.
  simpl. rewrite !filter_app, !map_app. simpl.
  apply Permutation_cons_app. rewrite !app_nil_r. exact Hbody.
Qed.

(** C8 (as amended). A failing callback ends the traversal.  In the flat
    traversal, once the callback has signalled failure no further call is
    made and the result is false.  In the walk, once [process_value] has
    signalled failure no further value and no further [obj_start] call is
    made: the calls that follow are the [obj_end] calls that close the
    open containers and the outer [obj_end]; the result is false. *)
Theorem failure_short_circuits {U D : Type} (vp : ValuePairs)
  (compare_func : string -> string -> Z) (args : EvalArgs) :
  (forall (func : VPForeachFunc U) (user : U),
      (forall pre c post,
          snd (value_pairs_foreach_trace vp func compare_func args user)
          = pre ++ c :: post ->
          call_ret c = true -> post = [])
      /\ (fst (value_pairs_foreach_sorted vp func compare_func args user)
          = false <->
          exists c,
            In c (snd (value_pairs_foreach_trace vp func compare_func args
                                                 user))
            /\ call_ret c = true))
  /\ (forall (obj_start_func : @VPWalkCallbackFunc U D)
        (process_value_func : @VPWalkValueCallbackFunc U D)
        (obj_end_func : @VPWalkCallbackFunc U D) (user : U),
         (forall pre e post,
             snd (value_pairs_walk_trace vp obj_start_func process_value_func
                    obj_end_func args user)
             = pre ++ e :: post ->
             value_failed e = true ->
             Forall (fun x => is_obj_end x = true) post)
         /\ (fst (value_pairs_walk obj_start_func obj_end_func
                    process_value_func vp args user) = false <->
             exists e,
               In e (snd (value_pairs_walk_trace vp obj_start_func
                            process_value_func obj_end_func args user))
               /\ value_failed e = true)).
Proof.
  split.
  - intros func user.
    destruct (foreach_trace_structure vp func compare_func args user)
      as [_ H].
    destruct (foreach_trace_faithful vp func compare_func args user)
      as [<- _].
    destruct (fst (value_pairs_foreach_trace vp func compare_func args user)).
    + rewrite Forall_forall in H. split.
      * intros pre c post Heq Hc. exfalso.
        rewrite (H c) in Hc; [discriminate|].
        rewrite Heq. apply in_or_app. right. now left.
      * split; [discriminate|]. intros (c & Hin & Hc).
        rewrite (H c Hin) in Hc. discriminate.
    + destruct H as (calls & c0 & Heq0 & Hok & Hc0). split.
      * intros pre c post Heq Hc. rewrite Heq0 in Heq.
        destruct (single_split call_ret calls [] pre post c0 c Hok
                    (Forall_nil _) Heq Hc) as (_ & _ & ->).
        reflexivity.
      * split; [|reflexivity]. intros _. exists c0. split; [|exact Hc0].
        rewrite Heq0. apply in_or_app. right. now left.
  - intros s v e user.
    destruct (walk_trace_structure s v e vp args user)
      as (inner & ends & Htr & _ & Fe & _ & H).
    destruct (obj_end_not_failed ends Fe) as [Fe1 _].
    destruct (walk_trace_faithful s v e vp args user) as [<- _].
    destruct (fst (value_pairs_walk_trace vp s v e args user)).
    + assert (Hall : Forall (fun x => value_failed x = false)
                       (snd (value_pairs_walk_trace vp s v e args user))).
      { rewrite Htr. constructor; [reflexivity|].
        rewrite !Forall_app. repeat split; auto. }
      rewrite Forall_forall in Hall. split.
      * intros pre x post Heq Hx. exfalso.
        rewrite (Hall x) in Hx; [discriminate|].
        rewrite Heq. apply in_or_app. right. now left.
      * split; [discriminate|]. intros (x & Hin & Hx).
        rewrite (Hall x Hin) in Hx. discriminate.
    + destruct H as (inner0 & e0 & -> & Hok & He0).
      assert (Heq0 : snd (value_pairs_walk_trace vp s v e args user)
                     = (root_start :: inner0) ++ e0 :: ends ++ [root_end]).
      { rewrite Htr. simpl. rewrite <- app_assoc. reflexivity. }
      split.
      * intros pre x post Heq Hx. rewrite Heq0 in Heq.
        assert (Ha : Forall (fun y => value_failed y = false)
                       (root_start :: inner0))
          by (constructor; [reflexivity | exact Hok]).
        assert (Hb : Forall (fun y => value_failed y = false)
                       (ends ++ [@root_end D])).
        { rewrite Forall_app. split; [exact Fe1|]. repeat constructor. }
        destruct (single_split value_failed _ _ pre post e0 x Ha Hb Heq Hx)
          as (_ & _ & ->).
        rewrite Forall_app. split; [exact Fe|]. repeat constructor.
      * split; [|reflexivity]. intros _. exists e0. split; [|exact He0].
        rewrite Heq0. apply in_or_app. right. now left.
Qed.

End Consumers.

(** ** Which containers the walker keeps open *)


Section Retention.

Context {host : Host} {U D : Type}.

Variable obj_start_func : @VPWalkCallbackFunc U D.
Variable process_value_func : @VPWalkValueCallbackFunc U D.
Variable obj_end_func : @VPWalkCallbackFunc U D.

Local Abbreviation t_start := (traced_obj_start obj_start_func).
Local Abbreviation t_end := (traced_obj_end obj_end_func).
Local Abbreviation t_value := (traced_process_value process_value_func).







End Retention.



(** ** The builder *)

Section BuilderFacts.

Variable cfg_process_flag : list CfgFlagHandler -> Z -> string -> bool * Z.
Variable log_template_new : LogTemplate.
Variable log_template_compile : LogTemplate -> string -> option LogTemplate.
Variable log_template_set_type_hint :
  LogTemplate -> option string -> option LogTemplate.

Local Abbreviation parse :=
  (g_option_context_parse cfg_process_flag log_template_new
     log_template_compile log_template_set_type_hint).

Local Abbreviation run :=
  (run_arg cfg_process_flag log_template_new log_template_compile
     log_template_set_type_hint).

Local Abbreviation new_from_cmdline :=
  (value_pairs_new_from_cmdline cfg_process_flag log_template_new
     log_template_compile log_template_set_type_hint).

Lemma parse_cons (a : GOptionArg) (argv : list GOptionArg)
  (data : cmdline_args) :
  parse (a :: argv) data =
  match run a data with
  | (Some err, data') => (Some err, data')
  | (None, data') => parse argv data'
  end.
Proof. reflexivity. Qed.

Lemma parse_app (pre post : list GOptionArg) (data : cmdline_args) :
  parse (pre ++ post) data =
  match parse pre data with
  | (Some err, data') => (Some err, data')
  | (None, data') => parse post data'
  end.
Proof.
  revert data. induction pre as [|a pre IH]; intros data.
  - reflexivity.
  - rewrite <- app_comm_cons, !parse_cons.
    destruct (run a data) as [[err|] data']; [reflexivity | apply IH].
Qed.

(** An argument that fails in every state fails the parse. *)
Lemma parse_fails_in (a : GOptionArg) (argv : list GOptionArg)
  (data : cmdline_args) :
  In a argv ->
  (forall data', fst (run a data') <> None) ->
  fst (parse argv data) <> None.
Proof.
  intros Hin Hfail. revert data.
  induction argv as [|b argv IH]; intros data; [destruct Hin|].
  rewrite parse_cons. destruct Hin as [->|Hin].
  - specialize (Hfail data).
    destruct (run a data) as [[err|] data']; [discriminate|].
    now elim Hfail.
  - destruct (run b data) as [[err|] data']; [discriminate|].
    now apply IH.
Qed.

Lemma new_from_cmdline_null (argv : list GOptionArg) :
  fst (parse argv initial_args) <> None ->
  fst (new_from_cmdline argv) = None.
Proof.
  unfold value_pairs_new_from_cmdline. cbv zeta. fold initial_args.
  destruct (parse argv initial_args)
    as [[err|] data]; simpl; [reflexivity | congruence].
Qed.

Lemma add_scopes_unknown (vp : ValuePairs) (names : list string)
  (scope : string) :
  In scope names ->
  (forall field, fst (cfg_process_flag value_pair_scope field scope) = false)
  -> fst (add_scopes cfg_process_flag vp names) <> None.
Proof.
  intros Hin Hunknown. revert vp.
  induction names as [|s names IH]; intros vp; [destruct Hin|].
  cbn [add_scopes]. unfold value_pairs_add_scope.
  destruct (cfg_process_flag value_pair_scope (scopes vp) s) as [ok field]
    eqn:E.
  destruct ok; simpl; [|discriminate].
  destruct Hin as [->|Hin].
  - specialize (Hunknown (scopes vp)). rewrite E in Hunknown. discriminate.
  - now apply IH.
Qed.

Lemma rekey_verify_closed (data : cmdline_args) :
  rekey_context_open data = false ->
  vp_cmdline_rekey_verify (args_key data) (args_vpts data) data
  = (None, data).
Proof.
  unfold rekey_context_open, vp_cmdline_rekey_verify.
  destruct (args_vpts data), (args_key data); try discriminate. reflexivity.
Qed.

Lemma transform_option_needs_context (a : GOptionArg) (data : cmdline_args) :
  is_transform_option a = true ->
  rekey_context_open data = false ->
  fst (run a data) <> None.
Proof.
  intros Ha Hclosed. unfold run_arg.
  destruct a as [n v|c v|v]; simpl in Ha; [| |discriminate].
  - repeat (apply orb_true_iff in Ha as [Ha|Ha]);
      apply String.eqb_eq in Ha; subst n; cbn;
      unfold vp_cmdline_parse_rekey_shift, vp_cmdline_parse_rekey_add_prefix,
        vp_cmdline_parse_rekey_replace_prefix;
      rewrite (rekey_verify_closed data Hclosed); discriminate.
  - repeat (apply orb_true_iff in Ha as [Ha|Ha]);
      apply Ascii.eqb_eq in Ha; subst c; cbn;
      unfold vp_cmdline_parse_rekey_shift, vp_cmdline_parse_rekey_add_prefix,
        vp_cmdline_parse_rekey_replace_prefix;
      rewrite (rekey_verify_closed data Hclosed); discriminate.
Qed.

(** C9. The builder returns all or nothing.  [value_pairs_new_from_cmdline]
    returns [NULL] with an error whenever a [--pair] argument has no equal
    sign, a [--replace-prefix] argument has no equal sign, an option that
    adds a transform step comes while no rekey context is open, or a scope
    name is refused as unknown; and it returns an object exactly when it
    reports no error. *)
Theorem builder_all_or_nothing (argv : list GOptionArg) :
  (forall v,
      strchr v "=" = false ->
      In (LongOption "pair" v) argv \/ In (ShortOption "p" v) argv ->
      fst (new_from_cmdline argv) = None)
  /\ (forall v,
         strchr v "=" = false ->
         In (LongOption "replace-prefix" v) argv
         \/ In (LongOption "replace" v) argv
         \/ In (ShortOption "R" v) argv ->
         fst (new_from_cmdline argv) = None)
  /\ (forall pre a post,
         argv = pre ++ a :: post ->
         is_transform_option a = true ->
         rekey_context_open
           (snd (parse pre initial_args)) = false ->
         fst (new_from_cmdline argv) = None)
  /\ (forall v scope,
         In scope (g_strsplit v ",") ->
         (forall field,
             fst (cfg_process_flag value_pair_scope field scope) = false) ->
         In (LongOption "scope" v) argv \/ In (ShortOption "s" v) argv ->
         fst (new_from_cmdline argv) = None)
  /\ (fst (new_from_cmdline argv) = None <->
      snd (new_from_cmdline argv) <> None)
  /\ (snd (new_from_cmdline argv) = None ->
      exists vp, fst (new_from_cmdline argv) = Some vp).
Proof.
  split; [|split; [|split; [|split; [|split]]]].
  - intros v Hv Hin. apply new_from_cmdline_null.
    assert (Hfail : forall a, a = LongOption "pair" v \/ a = ShortOption "p" v
                      -> forall data, fst (run a data) <> None).
    { intros a [->| ->] data; unfold run_arg; cbn;
        unfold vp_cmdline_parse_pair; cbv zeta; rewrite Hv; discriminate. }
    destruct Hin as [Hin|Hin];
      (eapply parse_fails_in; [exact Hin | apply Hfail; auto]).
  - intros v Hv Hin. apply new_from_cmdline_null.
    assert (Hfail : forall a,
               a = LongOption "replace-prefix" v \/ a = LongOption "replace" v
               \/ a = ShortOption "R" v ->
               forall data, fst (run a data) <> None).
    { intros a [->|[->| ->]] data; unfold run_arg; cbn;
        unfold vp_cmdline_parse_rekey_replace_prefix;
        destruct (vp_cmdline_rekey_verify _ _ data) as [[vpts|] data'];
        try discriminate; rewrite Hv; discriminate. }
    destruct Hin as [Hin|[Hin|Hin]];
      (eapply parse_fails_in; [exact Hin | apply Hfail; auto]).
  - intros pre a post -> Ha Hclosed. apply new_from_cmdline_null.
    rewrite parse_app.
    destruct (parse pre initial_args)
      as [[err|] data]; [discriminate|].
    simpl in Hclosed. rewrite parse_cons.
    pose proof (transform_option_needs_context a data Ha Hclosed) as Hf.
    destruct (run a data) as [[err|] data']; [discriminate|].
    now elim Hf.
  - intros v scope Hsplit Hunknown Hin. apply new_from_cmdline_null.
    assert (Hfail : forall a,
               a = LongOption "scope" v \/ a = ShortOption "s" v ->
               forall data, fst (run a data) <> None).
    { intros a [->| ->] data; unfold run_arg; cbn;
        unfold vp_cmdline_parse_scope; cbv zeta;
        match goal with
        | |- context [add_scopes _ ?vp ?l] =>
            pose proof (add_scopes_unknown vp l scope Hsplit Hunknown) as Hs;
            destruct (add_scopes cfg_process_flag vp l) as [[err|] vp']
        end; simpl; [discriminate | now elim Hs | discriminate | now elim Hs]. }
    destruct Hin as [Hin|Hin];
      (eapply parse_fails_in; [exact Hin | apply Hfail; auto]).
  - unfold value_pairs_new_from_cmdline. cbv zeta.
    destruct (parse argv _) as [[err|] data]; simpl.
    + split; [discriminate | reflexivity].
    + split; [discriminate | congruence].
  - unfold value_pairs_new_from_cmdline. cbv zeta.
    destruct (parse argv _) as [[err|] data]; simpl.
    + discriminate.
    + intros _. eexists. reflexivity.
Qed.

End BuilderFacts.

(** ** The properties on the demo host *)


(** The explicit pair [HOST=override] wins over the macro [HOST] of the
    scope rfc3164. *)
Lemma explicit_pairs_override_witness :
  g_tree_lookup
    (value_pairs_scope_set Inputs.vp_explicit strcmp
       (Demo.demo_args Inputs.msg)) "HOST"
  = Some (mkSB "override" TYPE_HINT_LITERAL).
Proof.
  apply (explicit_pairs_override (host := Demo.demo_host) Inputs.vp_explicit
           strcmp (Demo.demo_args Inputs.msg) [] [Inputs.pair_program]
           Inputs.pair_host strcmp_refl strcmp_zero_trans eq_refl).
  - discriminate.
  - intros q [<-|[]] _. vm_compute. discriminate.
Defined.

(** C1 as stated fails: of two explicit pairs under one key, the first is
    not in the final map. *)
Lemma explicit_pair_shadowed_by_later :
  In Inputs.pair_host (vpairs Inputs.vp_twice)
  /\ pair_rendering (host := Demo.demo_host) (Demo.demo_args Inputs.msg)
       Inputs.pair_host <> ""
  /\ g_tree_lookup
       (value_pairs_scope_set Inputs.vp_twice strcmp
          (Demo.demo_args Inputs.msg))
       (vp_transform_apply (host := Demo.demo_host) Inputs.vp_twice
          (pair_name Inputs.pair_host))
     <> Some (mkSB (pair_rendering (host := Demo.demo_host)
                      (Demo.demo_args Inputs.msg) Inputs.pair_host)
                   (template_type_hint (pair_template Inputs.pair_host))).
Proof.
  split; [now left|]. split; [discriminate|].
  vm_compute. discriminate.
Qed.

(** C7 as stated fails as a split on dots: bytes before an [@] that no
    closed enterprise id follows are dropped, a dot and a digit straight
    after an [@] are taken into the token, and a dot that ends the name
    starts no token. *)
Lemma tokenizer_not_a_dot_split :
  vp_walker_split_name_to_tokens "foo@bar.baz" = Some ["bar"; "baz"]
  /\ spec_tokens "foo@bar.baz" = ["foo@bar"; "baz"]
  /\ vp_walker_split_name_to_tokens "foo@.5" = Some ["foo@.5"]
  /\ spec_tokens "foo@.5" = ["foo@"; "5"]
  /\ vp_walker_split_name_to_tokens "a." = Some ["a"]
  /\ spec_tokens "a." = ["a"; ""]
  /\ ~ (forall name,
           vp_walker_split_name_to_tokens name = Some (spec_tokens name)).
Proof.
  assert (E : vp_walker_split_name_to_tokens "foo@bar.baz"
              = Some ["bar"; "baz"]) by (vm_compute; reflexivity).
  split; [exact E|]. split; [reflexivity|].
  split; [vm_compute; reflexivity|]. split; [reflexivity|].
  split; [vm_compute; reflexivity|]. split; [reflexivity|].
  intros H. rewrite (H "foo@bar.baz") in E. discriminate.
Qed.

(** C2 as stated fails for the values the callbacks are handed: a value
    of four bytes that begins with a NUL is kept in the map, and the flat
    callback and the value callback of the walker, which are handed it as
    a C string, read a string of length zero. *)
Lemma callback_reads_empty_value :
  nodes (value_pairs_scope_set (host := Demo.demo_host) Inputs.vp_nv strcmp
           (Demo.demo_args Inputs.msg_nul))
  = [("k", mkSB (String NUL "abc") TYPE_HINT_STRING)]
  /\ value_pairs_foreach_trace (host := Demo.demo_host) Inputs.vp_nv
       Inputs.accept_pair strcmp (Demo.demo_args Inputs.msg_nul) tt
     = (true, [mkCall "k" TYPE_HINT_STRING "" false])
  /\ value_pairs_walk_trace (host := Demo.demo_host) Inputs.vp_nv
       Inputs.accept (Inputs.value_returns false) Inputs.accept
       (Demo.demo_args Inputs.msg_nul) tt
     = (true,
        [ EvObjStart None None None None None;
          EvValue "k" None TYPE_HINT_STRING "" None false;
          EvObjEnd None None None None None ])
  /\ ~ (forall c,
           In c (snd (value_pairs_foreach_trace (host := Demo.demo_host)
                        Inputs.vp_nv Inputs.accept_pair strcmp
                        (Demo.demo_args Inputs.msg_nul) tt)) ->
           0 < String.length (call_value c)).
Proof.
  assert (E : value_pairs_foreach_trace (host := Demo.demo_host) Inputs.vp_nv
                Inputs.accept_pair strcmp (Demo.demo_args Inputs.msg_nul) tt
              = (true, [mkCall "k" TYPE_HINT_STRING "" false]))
    by (vm_compute; reflexivity).
  split; [vm_compute; reflexivity|]. split; [exact E|].
  split; [vm_compute; reflexivity|].
  intros H. rewrite E in H.
  specialize (H (mkCall "k" TYPE_HINT_STRING "" false) (or_introl eq_refl)).
  simpl in H. lia.
Qed.

(** C8 as stated fails for the walk: after the value callback has failed,
    the walker still calls [obj_end] for the open container and the outer
    [obj_end]. *)
Lemma walk_calls_after_failure :
  value_pairs_walk_trace (host := Demo.demo_host) Inputs.vp_nv Inputs.accept
    (Inputs.value_returns true) Inputs.accept (Demo.demo_args Inputs.msg) tt
  = (false,
     [ EvObjStart None None None None None;
       EvObjStart (Some "a") (Some "a") (Some None) None None;
       EvValue "e" (Some "a") TYPE_HINT_STRING "3" (Some None) true;
       EvObjEnd (Some "a") (Some "a") (Some None) None None;
       EvObjEnd None None None None None ])
  /\ ~ (forall pre e post,
           snd (value_pairs_walk_trace (host := Demo.demo_host) Inputs.vp_nv
                  Inputs.accept (Inputs.value_returns true) Inputs.accept
                  (Demo.demo_args Inputs.msg) tt)
           = pre ++ e :: post ->
           value_failed e = true -> post = []).
Proof.
  assert (E : value_pairs_walk_trace (host := Demo.demo_host) Inputs.vp_nv
                Inputs.accept (Inputs.value_returns true) Inputs.accept
                (Demo.demo_args Inputs.msg) tt
              = (false,
                 [ EvObjStart None None None None None;
                   EvObjStart (Some "a") (Some "a") (Some None) None None;
                   EvValue "e" (Some "a") TYPE_HINT_STRING "3" (Some None)
                     true;
                   EvObjEnd (Some "a") (Some "a") (Some None) None None;
                   EvObjEnd None None None None None ]))
    by (vm_compute; reflexivity).
  split; [exact E|]. intros H. rewrite E in H.
  specialize (H [EvObjStart None None None None None;
                 EvObjStart (Some "a") (Some "a") (Some None) None None]
                (EvValue "e" (Some "a") TYPE_HINT_STRING "3" (Some None) true)
                [EvObjEnd (Some "a") (Some "a") (Some None) None None;
                 EvObjEnd None None None None None]
                eq_refl eq_refl).
  discriminate.
Qed.


(** The builder on the demo host: a command line that is accepted, and one
    for each of the errors. *)
Example builder_examples :
  fst (Demo.demo_new_from_cmdline
         [ LongOption "scope" "rfc3164,nv-pairs"; LongOption "key" "foo.*";
           LongOption "shift" "4"; ShortOption "A" "X.";
           Remaining "a=int(5)" ])
  = Some (mkValuePairs
            [mkVPPatternSpec "foo.*" true]
            [mkVPPairConf "a" (mkLogTemplate "5" TYPE_HINT_INT32)]
            [mkTransformSet "foo.*"
               [TransformShift 4; TransformAddPrefix "X."]]
            5)
  /\ Demo.demo_new_from_cmdline [LongOption "pair" "ab"]
     = (None, Some ErrPairExpectedEqualSign)
  /\ Demo.demo_new_from_cmdline
       [LongOption "rekey" "a"; LongOption "replace-prefix" "ab"]
     = (None, Some ErrReplacePrefixFormat)
  /\ Demo.demo_new_from_cmdline
       [LongOption "key" "a"; LongOption "pair" "a=b"; LongOption "shift" "4"]
     = (None, Some ErrShiftWithoutKey)
  /\ Demo.demo_new_from_cmdline [LongOption "scope" "rfc3164,nv-pair"]
     = (None, Some (ErrUnknownScope "nv-pair")).
Proof. repeat split; vm_compute; reflexivity. Qed.

(** [atoi] on the values of [--shift]: white space of any kind is passed
    over, the digits end the number, and a number past the range of
    [gint] loses its high bits. *)
Example atoi_examples :
  atoi "42" = 42%Z
  /\ atoi (String "010" "5") = 5%Z
  /\ atoi " -12x" = (-12)%Z
  /\ atoi "+7" = 7%Z
  /\ atoi "x" = 0%Z
  /\ atoi "4294967297" = 1%Z
  /\ atoi "2147483648" = (-2147483648)%Z
  /\ atoi "99999999999999999999" = (-1)%Z.
Proof. repeat split; vm_compute; reflexivity. Qed.

(** The end-to-end scenarios of the specification on the demo host: an
    empty value is dropped (S1), the last matching pattern wins (S2), a
    transform chain renames the key (S4), and the walker nests the
    containers of [a.b.c], [a.b.d] and [a.e] (S5). *)
Example spec_scenarios :
  nodes (value_pairs_scope_set (host := Demo.demo_host)
           (mkValuePairs [] [] [] VPS_RFC3164) strcmp
           (Demo.demo_args [(3, "HOST", ""); (4, "PROGRAM", "x")]%Z))
  = [("PROGRAM", mkSB "x" TYPE_HINT_STRING)]
  /\ nodes (value_pairs_scope_set (host := Demo.demo_host)
              (mkValuePairs [ mkVPPatternSpec "foo*" true;
                              mkVPPatternSpec "foobar" false ]
                            [] [] VPS_NV_PAIRS) strcmp
              (Demo.demo_args [(50, "foo", "1"); (51, "foobar", "2")]%Z))
     = [("foo", mkSB "1" TYPE_HINT_STRING)]
  /\ nodes (value_pairs_scope_set (host := Demo.demo_host)
              (mkValuePairs [mkVPPatternSpec "foo.*" true] []
                 [mkTransformSet "foo.*"
                    [TransformShift 4; TransformAddPrefix "X."]] 0) strcmp
              (Demo.demo_args [(50, "foo.bar", "1")]%Z))
     = [("X.bar", mkSB "1" TYPE_HINT_STRING)]
  /\ value_pairs_walk_trace (host := Demo.demo_host) Inputs.vp_nv
       Inputs.accept (Inputs.value_returns false) Inputs.accept
       (Demo.demo_args [(50, "a.b.c", "1"); (51, "a.b.d", "2");
                        (52, "a.e", "3")]%Z) tt
     = (true,
        [ EvObjStart None None None None None;
          EvObjStart (Some "a") (Some "a") (Some None) None None;
          EvValue "e" (Some "a") TYPE_HINT_STRING "3" (Some None) false;
          EvObjStart (Some "b") (Some "a.b") (Some None) (Some "a")
            (Some None);
          EvValue "d" (Some "a.b") TYPE_HINT_STRING "2" (Some None) false;
          EvValue "c" (Some "a.b") TYPE_HINT_STRING "1" (Some None) false;
          EvObjEnd (Some "b") (Some "a.b") (Some None) (Some "a") (Some None);
          EvObjEnd (Some "a") (Some "a") (Some None) None None;
          EvObjEnd None None None None None ]).
Proof. repeat split; vm_compute; reflexivity. Qed.

(** In a whole walk the keys come in descending order, so [ab] comes
    before [a.x]; a key such as [a-b], which sorts after [a.x], meets the
    container [a] open and is delivered inside it. *)
Example retention_in_a_walk :
  value_pairs_walk_trace (host := Demo.demo_host) Inputs.vp_nv
    Inputs.accept (Inputs.value_returns false) Inputs.accept
    (Demo.demo_args [(50, "a.x", "1"); (51, "a-b", "2"); (52, "ab", "3")]%Z)
    tt
  = (true,
     [ EvObjStart None None None None None;
       EvValue "ab" None TYPE_HINT_STRING "3" None false;
       EvObjStart (Some "a") (Some "a") (Some None) None None;
       EvValue "x" (Some "a") TYPE_HINT_STRING "1" (Some None) false;
       EvValue "a-b" (Some "a") TYPE_HINT_STRING "2" (Some None) false;
       EvObjEnd (Some "a") (Some "a") (Some None) None None;
       EvObjEnd None None None None None ]).
Proof. vm_compute. reflexivity. Qed.

(** * Further properties of the engine *)

(** ** Building a projection step by step *)

Section Composition.

Context {host : Host}.

Lemma patterns_loop_app (pats more : list VPPatternSpec) (n : string)
  (seed : bool) :
  patterns_loop (pats ++ more) n seed
  = patterns_loop more n (patterns_loop pats n seed).
Proof.
  revert seed. induction pats as [|p pats IH]; intros seed; simpl.
  - reflexivity.
  - apply IH.
Qed.

(** A glob pattern added to a projection is consulted last: when it
    matches a name its include flag decides, whatever the earlier patterns
    say; when it does not, the earlier patterns decide as before. *)
Theorem added_pattern_decides (vp : ValuePairs) (pat : string) (inc : bool)
  (n : string) (seed : bool) :
  vp_find_in_set (value_pairs_add_glob_pattern vp pat inc) n seed
  = if g_pattern_match_string pat n then inc
    else vp_find_in_set vp n seed.
Proof.
  unfold vp_find_in_set, value_pairs_add_glob_pattern. cbn [patterns].
  rewrite patterns_loop_app. reflexivity.
Qed.

(** A transform set added to a projection is applied after all the sets
    added before it; a projection without transform sets leaves every key
    as it is. *)
Theorem added_transforms_apply_last (vp : ValuePairs)
  (vpts : ValuePairsTransformSet) (k : string) :
  vp_transform_apply (value_pairs_add_transforms vp vpts) k
  = value_pairs_transform_set_apply vpts (vp_transform_apply vp k)
  /\ (transforms vp = [] -> vp_transform_apply vp k = k).
Proof.
  split.
  - unfold vp_transform_apply, value_pairs_add_transforms. cbn [transforms].
    destruct (transforms vp) as [|t ts] eqn:E.
    + reflexivity.
    + change ((t :: ts) ++ [vpts]) with (t :: (ts ++ [vpts])). cbv zeta.
      cbn [fold_left]. rewrite fold_left_app. reflexivity.
  - intros E. unfold vp_transform_apply. rewrite E. reflexivity.
Qed.

(** The derived phases read the patterns, the transform sets and the
    scopes of a projection, and nothing else of it. *)
Lemma vp_transform_apply_same (vp vp' : ValuePairs) (n : string) :
  transforms vp' = transforms vp ->
  vp_transform_apply vp' n = vp_transform_apply vp n.
Proof. intros E. unfold vp_transform_apply. rewrite E. reflexivity. Qed.

Lemma vp_msg_nvpairs_foreach_same (vp vp' : ValuePairs) (h : NVHandle)
  (n v : string) (len : nat) (t : GTree SBTHGString) :
  patterns vp' = patterns vp -> transforms vp' = transforms vp ->
  scopes vp' = scopes vp ->
  vp_msg_nvpairs_foreach vp' h n v len t = vp_msg_nvpairs_foreach vp h n v len t.
Proof.
  intros Ep Et Es. unfold vp_msg_nvpairs_foreach, nvpairs_seed, scopes_has.
  rewrite Ep, Es, (vp_transform_apply_same vp vp' n Et). reflexivity.
Qed.

Lemma nv_table_foreach_entries_same (vp vp' : ValuePairs)
  (entries : list (NVHandle * string * string)) (t : GTree SBTHGString) :
  patterns vp' = patterns vp -> transforms vp' = transforms vp ->
  scopes vp' = scopes vp ->
  nv_table_foreach_entries entries (vp_msg_nvpairs_foreach vp') t
  = nv_table_foreach_entries entries (vp_msg_nvpairs_foreach vp) t.
Proof.
  intros Ep Et Es. revert t.
  induction entries as [|[[h n] v] entries IH]; intros t; simpl.
  - reflexivity.
  - rewrite (vp_msg_nvpairs_foreach_same vp vp' h n v _ t Ep Et Es).
    destruct (vp_msg_nvpairs_foreach vp h n v (String.length v) t)
      as [stop t'].
    destruct stop; [reflexivity | apply IH].
Qed.

Lemma vp_merge_other_set_same (vp vp' : ValuePairs) (args : EvalArgs)
  (set : list ValuePairSpec) (t : GTree SBTHGString) (seed : bool) :
  patterns vp' = patterns vp -> transforms vp' = transforms vp ->
  vp_merge_other_set vp' args set t seed
  = vp_merge_other_set vp args set t seed.
Proof.
  intros Ep Et. revert t. induction set as [|e set IH]; intros t; simpl.
  - reflexivity.
  - unfold vp_find_in_set. rewrite Ep.
    rewrite (vp_transform_apply_same vp vp' _ Et), !IH. reflexivity.
Qed.

Lemma value_pairs_base_set_same (vp vp' : ValuePairs) (args : EvalArgs)
  (scope_set : GTree SBTHGString) :
  patterns vp' = patterns vp -> transforms vp' = transforms vp ->
  scopes vp' = scopes vp ->
  value_pairs_base_set vp' args scope_set
  = value_pairs_base_set vp args scope_set.
Proof.
  intros Ep Et Es.
  unfold value_pairs_base_set, value_pairs_nvpairs_set, nvpairs_phase,
    vp_merge_macros, vp_merge_set, nv_table_foreach, scopes_has,
    patterns_size.
  cbv zeta. rewrite Ep, Es.
  rewrite (nv_table_foreach_entries_same vp vp' _ _ Ep Et Es).
  rewrite !(vp_merge_other_set_same vp vp' args _ _ _ Ep Et).
  reflexivity.
Qed.

Lemma vp_pairs_fold_same (vp vp' : ValuePairs) (args : EvalArgs)
  (l : list VPPairConf) (t : GTree SBTHGString) :
  transforms vp' = transforms vp ->
  fold_left (fun scope_set vpc => vp_pairs_foreach vp' args vpc scope_set) l t
  = fold_left (fun scope_set vpc => vp_pairs_foreach vp args vpc scope_set)
      l t.
Proof.
  intros Et. revert t. induction l as [|vpc l IH]; intros t; simpl.
  - reflexivity.
  - rewrite IH. unfold vp_pairs_foreach.
    rewrite (vp_transform_apply_same vp vp' _ Et). reflexivity.
Qed.

(** An explicit pair added to a projection is evaluated after everything
    the projection already yields: when its template renders to the empty
    string the result is the one without the pair, so the value derived
    under its key stays; otherwise the result is the one without the
    pair with the rendered value inserted under the transformed key. *)
Theorem added_pair_is_inserted_last (vp : ValuePairs) (k : string)
  (t : LogTemplate) (compare_func : string -> string -> Z)
  (args : EvalArgs) :
  value_pairs_scope_set (value_pairs_add_pair vp k t) compare_func args
  = if (String.length (pair_rendering args (mkVPPairConf k t)) =? 0)%nat
    then value_pairs_scope_set vp compare_func args
    else g_tree_insert (value_pairs_scope_set vp compare_func args)
           (vp_transform_apply vp k)
           (mkSB (pair_rendering args (mkVPPairConf k t))
                 (template_type_hint t)).
Proof.
  unfold value_pairs_scope_set. cbv zeta.
  rewrite (value_pairs_base_set_same vp (value_pairs_add_pair vp k t) args _
             eq_refl eq_refl eq_refl).
  rewrite (vp_pairs_fold_same vp (value_pairs_add_pair vp k t) args _ _
             eq_refl).
  change (vpairs (value_pairs_add_pair vp k t))
    with (vpairs vp ++ [mkVPPairConf k t]).
  rewrite fold_left_app. reflexivity.
Qed.

End Composition.

(** ** The order of the map and of the calls *)

Lemma strcmp_antisym (a b : string) : strcmp b a = (- strcmp a b)%Z.
Proof.
  revert b. induction a as [|c1 r1 IH]; intros [|c2 r2]; simpl; try lia.
  rewrite (Ascii.eqb_sym c2 c1).
  destruct (Ascii.eqb c1 c2) eqn:E; [|lia].
  apply Ascii.eqb_eq in E. subst c2.
  destruct (Ascii.eqb c1 NUL); [reflexivity | apply IH].
Qed.

Lemma strcmp_head (c1 c2 : ascii) (r1 r2 : string) :
  (strcmp (String c1 r1) (String c2 r2) < 0)%Z ->
  nat_of_ascii c1 < nat_of_ascii c2
  \/ (c1 = c2 /\ c1 <> NUL /\ (strcmp r1 r2 < 0)%Z).
Proof.
  simpl. destruct (Ascii.eqb c1 c2) eqn:E.
  - apply Ascii.eqb_eq in E. subst c2.
    destruct (Ascii.eqb c1 NUL) eqn:N; [lia|].
    intros H. right. split; [reflexivity|]. split; [|exact H].
    intros ->. discriminate.
  - intros H. left. lia.
Qed.

Lemma strcmp_head_lt (c1 c2 : ascii) (r1 r2 : string) :
  nat_of_ascii c1 < nat_of_ascii c2 ->
  (strcmp (String c1 r1) (String c2 r2) < 0)%Z.
Proof.
  intros H. simpl. destruct (Ascii.eqb c1 c2) eqn:E; [|lia].
  apply Ascii.eqb_eq in E. subst. lia.
Qed.

Lemma strcmp_trans_lt (a b c : string) :
  (strcmp a b < 0)%Z -> (strcmp b c < 0)%Z -> (strcmp a c < 0)%Z.
Proof.
  revert b c. induction a as [|ca ra IH]; intros [|cb rb] [|cc rc];
    simpl strcmp at 1 2; try lia.
  - intros Hab Hbc. apply strcmp_head in Hbc as [Hlt|(-> & Hn & Hr)];
      simpl; lia.
  - fold (strcmp (String ca ra) (String cb rb)).
    fold (strcmp (String cb rb) (String cc rc)).
    intros Hab Hbc.
    apply strcmp_head in Hab as [Hab|(-> & Hna & Hab)];
      apply strcmp_head in Hbc as [Hbc|(-> & Hnb & Hbc)].
    + apply strcmp_head_lt. lia.
    + now apply strcmp_head_lt.
    + now apply strcmp_head_lt.
    + simpl. rewrite Ascii.eqb_refl.
      destruct (Ascii.eqb cc NUL) eqn:N.
      * apply Ascii.eqb_eq in N. congruence.
      * exact (IH rb rc Hab Hbc).
Qed.

Section Sorted.

Context {V : Type}.
Variable cmp : string -> string -> Z.
Hypothesis cmp_flip : forall a b, (0 < cmp a b)%Z -> (cmp b a < 0)%Z.
Hypothesis cmp_trans :
  forall a b c, (cmp a b < 0)%Z -> (cmp b c < 0)%Z -> (cmp a c < 0)%Z.

(** Insertion adds no key beside the one inserted. *)
Lemma insert_nodes_keys (Q : string -> Prop) (l : list (string * V))
  (k : string) (v : V) :
  Q k -> Forall Q (map fst l) -> Forall Q (map fst (insert_nodes cmp l k v)).
Proof.
  intros Hk. induction l as [|[k' v'] l IH]; intros Hl; simpl.
  - constructor; [exact Hk | constructor].
  - inversion Hl as [|? ? Hh Ht]; subst.
    destruct (cmp k k' =? 0)%Z.
    + constructor; assumption.
    + destruct (cmp k k' <? 0)%Z.
      * constructor; [exact Hk | exact Hl].
      * constructor; [exact Hh | now apply IH].
Qed.

Lemma insert_nodes_ascending (l : list (string * V)) (k : string) (v : V) :
  ascending cmp (map fst l) ->
  ascending cmp (map fst (insert_nodes cmp l k v)).
Proof.
  induction l as [|[k' v'] l IH]; intros Hl; simpl.
  - split; [constructor | exact I].
  - destruct Hl as [Hh Ht]. simpl in Hh.
    destruct (cmp k k' =? 0)%Z eqn:E0.
    + split; assumption.
    + destruct (cmp k k' <? 0)%Z eqn:E1.
      * apply Z.ltb_lt in E1. split; [|split; assumption].
        constructor; [exact E1|].
        eapply Forall_impl; [|exact Hh]. intros x Hx. simpl in Hx.
        exact (cmp_trans k k' x E1 Hx).
      * apply Z.eqb_neq in E0. apply Z.ltb_ge in E1.
        split; [|now apply IH].
        apply (insert_nodes_keys (fun x => (cmp k' x < 0)%Z)); [|exact Hh].
        apply cmp_flip. lia.
Qed.

End Sorted.

Section ScopeSetOrder.

Context {host : Host}.

(** What holds of the empty tree and is kept by every insertion of a
    value that is not empty holds of the scope set. *)
Lemma value_pairs_scope_set_rect (P : GTree SBTHGString -> Prop)
  (vp : ValuePairs) (compare_func : string -> string -> Z)
  (args : EvalArgs) :
  P (g_tree_new_full compare_func) ->
  (forall t k sb, P t -> 0 < String.length (sb_string sb) ->
                  P (g_tree_insert t k sb)) ->
  P (value_pairs_scope_set vp compare_func args).
Proof.
  intros Hnew Hins.
  assert (Hnv : forall entries t, P t ->
            P (nv_table_foreach_entries entries (vp_msg_nvpairs_foreach vp)
                 t)).
  { induction entries as [|[[h n] v] entries IH]; intros t Ht; simpl.
    - exact Ht.
    - unfold vp_msg_nvpairs_foreach at 1.
      destruct (String.length v =? 0)%nat eqn:E; [now apply IH|].
      cbv zeta. destruct (negb _); [now apply IH|].
      apply IH. apply Hins; [exact Ht|].
      simpl. rewrite substring_0_length. apply Nat.eqb_neq in E. lia. }
  assert (Hmerge : forall set seed t, P t ->
            P (vp_merge_other_set vp args set t seed)).
  { induction set as [|e set IH]; intros seed t Ht; simpl.
    - exact Ht.
    - destruct (negb _); [now apply IH|].
      destruct (String.length _ =? 0)%nat eqn:E; [now apply IH|].
      apply IH. apply Hins; [exact Ht|]. apply Nat.eqb_neq in E. lia. }
  assert (Hbase : P (value_pairs_base_set vp args
                       (g_tree_new_full compare_func))).
  { unfold value_pairs_base_set, value_pairs_nvpairs_set, vp_merge_macros,
      vp_merge_set, nv_table_foreach. cbv zeta.
    repeat match goal with
           | |- P (if ?c then _ else _) => destruct c
           | |- P (vp_merge_other_set _ _ _ _ _) => apply Hmerge
           | |- P (nv_table_foreach_entries _ _ _) => apply Hnv
           end; exact Hnew. }
  unfold value_pairs_scope_set. cbv zeta.
  revert Hbase. generalize (value_pairs_base_set vp args
                              (g_tree_new_full compare_func)).
  induction (vpairs vp) as [|vpc l IH]; intros t Ht; simpl.
  - exact Ht.
  - apply IH. unfold vp_pairs_foreach. cbv zeta.
    destruct (String.length _ =? 0)%nat eqn:E; [exact Ht|].
    apply Hins; [exact Ht|]. apply Nat.eqb_neq in E. lia.
Qed.

Lemma scope_set_ascending (vp : ValuePairs)
  (compare_func : string -> string -> Z) (args : EvalArgs) :
  (forall a b, (0 < compare_func a b)%Z -> (compare_func b a < 0)%Z) ->
  (forall a b c, (compare_func a b < 0)%Z -> (compare_func b c < 0)%Z ->
                 (compare_func a c < 0)%Z) ->
  key_compare (value_pairs_scope_set vp compare_func args) = compare_func
  /\ ascending compare_func
       (tree_keys (value_pairs_scope_set vp compare_func args)).
Proof.
  intros Hflip Htrans.
  apply (value_pairs_scope_set_rect
           (fun t => key_compare t = compare_func
                     /\ ascending compare_func (tree_keys t))).
  - split; [reflexivity | exact I].
  - intros t k sb [Hc Ha] _. split; [exact Hc|].
    unfold tree_keys, g_tree_insert. simpl. rewrite Hc.
    now apply insert_nodes_ascending.
Qed.

(** The map is kept in the order of its comparator, each key once: built
    for [value_pairs_foreach] its keys are strictly ascending by [strcmp];
    built for the walker they are strictly descending by [strcmp]. *)
Theorem scope_set_is_sorted (vp : ValuePairs) (args : EvalArgs) :
  ascending strcmp (tree_keys (value_pairs_scope_set vp strcmp args))
  /\ ascending (fun a b => strcmp b a)
       (tree_keys (value_pairs_scope_set vp vp_walk_cmp args)).
Proof.
  split.
  - apply scope_set_ascending.
    + intros a b H. rewrite strcmp_antisym. lia.
    + exact strcmp_trans_lt.
  - apply (scope_set_ascending vp vp_walk_cmp args).
    + intros a b H. unfold vp_walk_cmp in *. rewrite strcmp_antisym. lia.
    + intros a b c Hab Hbc. unfold vp_walk_cmp in *.
      exact (strcmp_trans_lt c b a Hbc Hab).
Qed.

End ScopeSetOrder.

(** ** What is delivered, and in which order *)

Section FlatDelivery.

Context {host : Host} {U : Type}.
Variable func : VPForeachFunc U.

Lemma foreach_calls_prefix (l : list (string * SBTHGString)) (u u2 : U)
  (tr tr2 : list foreach_call) (r2 : bool) :
  foreach_nodes l (vp_foreach_helper (traced_func func)) ((u, tr), true)
  = ((u2, tr2), r2) ->
  if r2
  then map call_args tr2 = map call_args tr ++ map node_call l
       /\ map call_ret tr2
          = map call_ret tr ++ repeat false (List.length l)
  else exists n,
         n < List.length l
         /\ map call_args tr2
            = map call_args tr ++ firstn (S n) (map node_call l)
         /\ map call_ret tr2 = map call_ret tr ++ repeat false n ++ [true].
Proof.
  revert u tr. induction l as [|[k v] l IH]; intros u tr.
  - simpl. intros [= <- <- <-]. rewrite !app_nil_r. split; reflexivity.
  - simpl.
    change (traced_func func k (sb_type_hint v) (c_str (sb_string v))
              (u, tr))
      with (let (ret, u0) :=
              func k (sb_type_hint v) (c_str (sb_string v)) u in
            (ret, (u0, tr ++ [mkCall k (sb_type_hint v)
                                (c_str (sb_string v)) ret]))).
    destruct (func k (sb_type_hint v) (c_str (sb_string v)) u)
      as [failed u'].
    destruct failed; simpl.
    + intros [= <- <- <-]. exists 0. split; [lia|].
      rewrite !map_app. split; reflexivity.
    + intros Hrun. specialize (IH _ _ Hrun). destruct r2.
      * destruct IH as [Hargs Hrets]. rewrite Hargs, Hrets, !map_app.
        rewrite <- !app_assoc. split; reflexivity.
      * destruct IH as (n & Hn & Hargs & Hrets). exists (S n).
        split; [lia|]. rewrite Hargs, Hrets, !map_app, <- !app_assoc.
        split; reflexivity.
Qed.

(** The flat traversal hands the callback the nodes of the scope set,
    name, type hint and the value as a C string, in the order of the map,
    none skipped and none twice, up to the call that signals failure.
    When the result is [TRUE] every node has been delivered and no call
    has signalled failure; when it is [FALSE] the calls are those for the
    first nodes of the map, of which the last one signalled failure and
    none before it did. *)
Theorem foreach_delivers_in_order (vp : ValuePairs)
  (compare_func : string -> string -> Z) (args : EvalArgs) (user : U) :
  if fst (value_pairs_foreach_trace vp func compare_func args user)
  then
    map call_args
        (snd (value_pairs_foreach_trace vp func compare_func args user))
    = map node_call (nodes (value_pairs_scope_set vp compare_func args))
    /\ map call_ret
           (snd (value_pairs_foreach_trace vp func compare_func args user))
       = repeat false
           (List.length (nodes (value_pairs_scope_set vp compare_func args)))
  else
    exists n,
      n < List.length (nodes (value_pairs_scope_set vp compare_func args))
      /\ map call_args
             (snd (value_pairs_foreach_trace vp func compare_func args user))
         = firstn (S n)
             (map node_call
                  (nodes (value_pairs_scope_set vp compare_func args)))
      /\ map call_ret
             (snd (value_pairs_foreach_trace vp func compare_func args user))
         = repeat false n ++ [true].
Proof.
  unfold value_pairs_foreach_trace, value_pairs_foreach_sorted,
    g_tree_foreach. cbv zeta.
  pose proof (foreach_calls_prefix
                (nodes (value_pairs_scope_set vp compare_func args)) user)
    as H.
  destruct (foreach_nodes _ _ _) as [[u calls] result] eqn:E.
  specialize (H u [] calls result E). simpl in *. exact H.
Qed.

End FlatDelivery.

Section WalkDelivery.

Context {host : Host} {U D : Type}.

Variable obj_start_func : @VPWalkCallbackFunc U D.
Variable process_value_func : @VPWalkValueCallbackFunc U D.
Variable obj_end_func : @VPWalkCallbackFunc U D.

Local Abbreviation t_start := (traced_obj_start obj_start_func).
Local Abbreviation t_end := (traced_obj_end obj_end_func).
Local Abbreviation t_value := (traced_process_value process_value_func).
Local Abbreviation state := (@vp_walk_state_t (U * list (@walk_event D)) D).

Lemma value_calls_app (a b : list (@walk_event D)) :
  value_calls (a ++ b) = value_calls a ++ value_calls b.
Proof. apply flat_map_app. Qed.

Lemma value_rets_app (a b : list (@walk_event D)) :
  value_rets (a ++ b) = value_rets a ++ value_rets b.
Proof. apply flat_map_app. Qed.

Lemma value_calls_ends (l : list (@walk_event D)) :
  Forall (fun e => is_obj_end e = true) l ->
  value_calls l = [] /\ value_rets l = [].
Proof.
  induction 1 as [|e l He _ IH]; [split; reflexivity|].
  destruct e; simpl in *; try discriminate. exact IH.
Qed.

Lemma value_calls_starts (l : list (@walk_event D)) :
  Forall (fun e => is_obj_start e = true) l ->
  value_calls l = [] /\ value_rets l = [].
Proof.
  induction 1 as [|e l He _ IH]; [split; reflexivity|].
  destruct e; simpl in *; try discriminate. exact IH.
Qed.

(** The key handed to the value callback is the last token of the name. *)
Lemma start_for_name_key (st : state) (name : string) :
  fst (vp_walker_start_containers_for_name t_start st name) = leaf_key name.
Proof.
  unfold vp_walker_start_containers_for_name, leaf_key.
  destruct (vp_walker_split_name_to_tokens name); reflexivity.
Qed.

Lemma value_pairs_walker_value_call (name : string) (ty : TypeHint)
  (value : string) (st : state) :
  value_calls
    (trace_of (snd (value_pairs_walker t_start t_end t_value name ty value
                      st)))
  = value_calls (trace_of st) ++ [(leaf_key name, ty, value)]
  /\ value_rets
       (trace_of (snd (value_pairs_walker t_start t_end t_value name ty
                         value st)))
     = value_rets (trace_of st)
       ++ [fst (value_pairs_walker t_start t_end t_value name ty value st)].
Proof.
  unfold value_pairs_walker.
  destruct (unwind_extends obj_end_func st (Some name))
    as (ends & [T1 _] & Fe).
  set (st1 := vp_walker_stack_unwind_containers_until t_end st (Some name))
    in *.
  destruct (start_for_name_extends obj_start_func st1 name)
    as (starts & [T2 _] & Fs).
  pose proof (start_for_name_key st1 name) as Hk.
  destruct (vp_walker_start_containers_for_name t_start st1 name)
    as [k st2]. simpl in T2, Hk. subst k.
  destruct (value_calls_ends _ Fe) as [Ce Re].
  destruct (value_calls_starts _ Fs) as [Cs Rs].
  assert (H2 : value_calls (trace_of st2) = value_calls (trace_of st)).
  { rewrite T2, T1, !value_calls_app, Ce, Cs, !app_nil_r. reflexivity. }
  assert (H3 : value_rets (trace_of st2) = value_rets (trace_of st)).
  { rewrite T2, T1, !value_rets_app, Re, Rs, !app_nil_r. reflexivity. }
  destruct st2 as [user2 [|top below]]; unfold trace_of in *; simpl in *;
    rewrite value_calls_app, value_rets_app, H2, H3; split; reflexivity.
Qed.

Lemma walk_values_prefix (l : list (string * SBTHGString)) (st st2 : state)
  (r2 : bool) :
  foreach_nodes l
    (vp_foreach_helper (value_pairs_walker t_start t_end t_value)) (st, true)
  = (st2, r2) ->
  if r2
  then value_calls (trace_of st2)
       = value_calls (trace_of st) ++ map node_value_call l
       /\ value_rets (trace_of st2)
          = value_rets (trace_of st) ++ repeat false (List.length l)
  else exists n,
         n < List.length l
         /\ value_calls (trace_of st2)
            = value_calls (trace_of st)
              ++ firstn (S n) (map node_value_call l)
         /\ value_rets (trace_of st2)
            = value_rets (trace_of st) ++ repeat false n ++ [true].
Proof.
  revert st. induction l as [|[k v] l IH]; intros st.
  - simpl. intros [= <- <-]. rewrite !app_nil_r. split; reflexivity.
  - simpl.
    destruct (value_pairs_walker_value_call k (sb_type_hint v)
                (c_str (sb_string v)) st) as [Hv Hr].
    destruct (value_pairs_walker t_start t_end t_value k (sb_type_hint v)
                (c_str (sb_string v)) st) as [failed st'].
    simpl in Hv, Hr. destruct failed; simpl.
    + intros [= <- <-]. exists 0. split; [lia|].
      rewrite Hv, Hr. split; reflexivity.
    + intros Hrun. specialize (IH _ Hrun). destruct r2.
      * destruct IH as [Hargs Hrets]. rewrite Hargs, Hrets, Hv, Hr.
        rewrite <- !app_assoc. split; reflexivity.
      * destruct IH as (n & Hn & Hargs & Hrets). exists (S n).
        split; [lia|]. rewrite Hargs, Hrets, Hv, Hr, <- !app_assoc.
        split; reflexivity.
Qed.

(** In a walk the value callback receives the nodes of the scope set in
    the order of the map, none skipped and none twice, up to the call that
    signals failure: the key is the last token of the name, the type hint
    is that of the node and the value is the node's as a C string.  When
    the result is [TRUE] every node has been delivered and no value call
    has signalled failure; when it is [FALSE] the value calls are those
    for the first nodes of the map, of which the last one signalled
    failure and none before it did. *)
Theorem walk_delivers_in_order (vp : ValuePairs) (args : EvalArgs)
  (user : U) :
  if fst (value_pairs_walk_trace vp obj_start_func process_value_func
            obj_end_func args user)
  then
    value_calls
      (snd (value_pairs_walk_trace vp obj_start_func process_value_func
              obj_end_func args user))
    = map node_value_call (nodes (value_pairs_scope_set vp vp_walk_cmp args))
    /\ value_rets
         (snd (value_pairs_walk_trace vp obj_start_func process_value_func
                 obj_end_func args user))
       = repeat false
           (List.length (nodes (value_pairs_scope_set vp vp_walk_cmp args)))
  else
    exists n,
      n < List.length (nodes (value_pairs_scope_set vp vp_walk_cmp args))
      /\ value_calls
           (snd (value_pairs_walk_trace vp obj_start_func process_value_func
                   obj_end_func args user))
         = firstn (S n)
             (map node_value_call
                  (nodes (value_pairs_scope_set vp vp_walk_cmp args)))
      /\ value_rets
           (snd (value_pairs_walk_trace vp obj_start_func process_value_func
                   obj_end_func args user))
         = repeat false n ++ [true].
Proof.
  unfold value_pairs_walk_trace, value_pairs_walk,
    value_pairs_foreach_sorted, g_tree_foreach. cbv zeta.
  set (st1 := mkWalkState (wr_user_data _) _).
  pose proof (walk_values_prefix
                (nodes (value_pairs_scope_set vp vp_walk_cmp args)) st1)
    as H.
  destruct (foreach_nodes _ _ (st1, true)) as [st2 result].
  specialize (H st2 result eq_refl).
  destruct (unwind_extends obj_end_func st2 None) as (ends & [T _] & Fe).
  fold (vp_walker_stack_unwind_all_containers t_end st2) in T.
  set (st3 := vp_walker_stack_unwind_all_containers t_end st2) in *.
  destruct (value_calls_ends _ Fe) as [Ce Re].
  simpl.
  change (snd (user_data st3)) with (trace_of st3).
  rewrite value_calls_app, value_rets_app, T, value_calls_app,
    value_rets_app, Ce, Re.
  simpl. rewrite !app_nil_r.
  exact H.
Qed.

End WalkDelivery.

(** ** Tokens and prefixes *)

Lemma combine_fold_acc (tokens : list string) (l : list nat) (a b : string) :
  fold_left (fun s i => (s ++ nth i tokens "" ++ ".")%string) l
            (a ++ b)%string
  = (a ++ fold_left (fun s i => (s ++ nth i tokens "" ++ ".")%string) l b)
      %string.
Proof.
  revert b. induction l as [|i l IH]; intros b; simpl; [reflexivity|].
  rewrite <- IH, append_assoc. reflexivity.
Qed.

Lemma combine_fold_shift (t : string) (ts : list string) (n start : nat)
  (a : string) :
  fold_left (fun s i => (s ++ nth i (t :: ts) "" ++ ".")%string)
            (seq (S start) n) a
  = fold_left (fun s i => (s ++ nth i ts "" ++ ".")%string) (seq start n) a.
Proof.
  revert start a. induction n as [|n IH]; intros start a; simpl;
    [reflexivity|].
  apply IH.
Qed.

Lemma combine_prefix_0 (tokens : list string) :
  vp_walker_name_combine_prefix tokens 0 = nth 0 tokens "".
Proof. reflexivity. Qed.

Lemma combine_prefix_S (t : string) (ts : list string) (i : nat) :
  vp_walker_name_combine_prefix (t :: ts) (S i)
  = (t ++ "." ++ vp_walker_name_combine_prefix ts i)%string.
Proof.
  unfold vp_walker_name_combine_prefix.
  change (seq 0 (S i)) with (0 :: seq 1 i).
  change (nth (S i) (t :: ts) "") with (nth i ts "").
  cbn [fold_left]. rewrite combine_fold_shift.
  change ("" ++ nth 0 (t :: ts) "" ++ ".")%string with (t ++ ".")%string.
  rewrite <- (append_nil_r (t ++ ".")) at 1.
  rewrite combine_fold_acc, !append_assoc. reflexivity.
Qed.

Lemma dot_tokens_length (s cur : string) :
  0 < List.length (dot_tokens s cur).
Proof.
  revert cur. induction s as [|c r IH]; intros cur; simpl; [lia|].
  destruct (Ascii.eqb c "."); [simpl; lia | apply IH].
Qed.

(** The prefix of a container is an initial part of the name, up to a
    dot. *)
Lemma dot_tokens_prefix (s cur : string) (i : nat) :
  S i < List.length (dot_tokens s cur) ->
  exists rest,
    (cur ++ s)%string
    = (vp_walker_name_combine_prefix (dot_tokens s cur) i ++ "." ++ rest)
        %string.
Proof.
  revert cur i. induction s as [|c r IH]; intros cur i; cbn [dot_tokens].
  - simpl. lia.
  - destruct (Ascii.eqb c ".") eqn:E.
    + apply Ascii.eqb_eq in E. subst c. destruct i as [|i].
      * intros _. exists r. reflexivity.
      * destruct r as [|c' r']; [simpl; lia|]. cbv iota.
        set (r := String c' r') in *.
        intros Hlen. cbn [List.length] in Hlen.
        destruct (IH "" i ltac:(lia)) as (rest & Hrest).
        change ("" ++ r)%string with r in Hrest.
        exists rest. rewrite combine_prefix_S, !append_assoc.
        rewrite <- Hrest. reflexivity.
    + intros Hlen. destruct (IH (cur ++ String c "")%string i Hlen)
        as (rest & Hrest).
      exists rest. rewrite <- Hrest, append_assoc. reflexivity.
Qed.

(** The tokens joined by dots give the name back, but for a dot that ends
    it. *)
Lemma dot_tokens_join (s cur : string) :
  let whole :=
    vp_walker_name_combine_prefix (dot_tokens s cur)
      (List.length (dot_tokens s cur) - 1) in
  (cur ++ s)%string = whole \/ (cur ++ s)%string = (whole ++ ".")%string.
Proof.
  revert cur. induction s as [|c r IH]; intros cur; cbn [dot_tokens].
  - left. simpl. now rewrite append_nil_r.
  - destruct (Ascii.eqb c ".") eqn:E.
    + apply Ascii.eqb_eq in E. subst c.
      destruct r as [|c' r']; [right; reflexivity|]. cbv iota.
      set (r := String c' r') in *.
      pose proof (dot_tokens_length r "") as Hpos.
      specialize (IH ""). cbv zeta in IH. cbv zeta.
      cbn [List.length].
      replace (S (List.length (dot_tokens r "")) - 1)
        with (S (List.length (dot_tokens r "") - 1)) by lia.
      rewrite combine_prefix_S.
      set (w := vp_walker_name_combine_prefix _ _) in *.
      change ("" ++ r)%string with r in IH.
      destruct IH as [IH|IH]; [left | right]; rewrite IH, ?append_assoc;
        reflexivity.
    + specialize (IH (cur ++ String c "")%string). cbv zeta in IH.
      rewrite append_assoc in IH. exact IH.
Qed.

(** For a name without [@], the prefix built for each container is an
    initial part of the name that ends before a dot, and the tokens joined
    by dots give the name back, but for a dot that ends the name. *)
Theorem container_prefixes_spell_the_name (name : string)
  (tokens : list string) :
  mem_char "@" name = false ->
  vp_walker_split_name_to_tokens name = Some tokens ->
  (forall i, S i < List.length tokens ->
     exists rest,
       name = (vp_walker_name_combine_prefix tokens i ++ "." ++ rest)%string)
  /\ (name = vp_walker_name_combine_prefix tokens (List.length tokens - 1)
      \/ name
         = (vp_walker_name_combine_prefix tokens (List.length tokens - 1)
            ++ ".")%string).
Proof.
  intros Hat Hsplit.
  unfold vp_walker_split_name_to_tokens in Hsplit.
  rewrite (split_loop_dot_tokens name 0 [] Hat ltac:(lia)) in Hsplit.
  rewrite str_from_0 in Hsplit. simpl app in Hsplit.
  destruct (List.length (dot_tokens name "") =? 0)%nat; [discriminate|].
  injection Hsplit as <-. split.
  - intros i Hi. exact (dot_tokens_prefix name "" i Hi).
  - exact (dot_tokens_join name "").
Qed.

Lemma container_prefixes_spell_the_name_witness :
  (forall i, S i < 3 ->
     exists rest,
       "a.b.c" = (vp_walker_name_combine_prefix ["a"; "b"; "c"] i
                  ++ "." ++ rest)%string)
  /\ ("a.b.c" = vp_walker_name_combine_prefix ["a"; "b"; "c"] 2
      \/ "a.b.c" = (vp_walker_name_combine_prefix ["a"; "b"; "c"] 2
                    ++ ".")%string).
Proof.
  exact (container_prefixes_spell_the_name "a.b.c" ["a"; "b"; "c"]
           eq_refl eq_refl).
Defined.

(** ** The calls for one name *)

Section WalkPath.

Context {host : Host} {U D : Type}.

Variable obj_start_func : @VPWalkCallbackFunc U D.
Variable process_value_func : @VPWalkValueCallbackFunc U D.
Variable obj_end_func : @VPWalkCallbackFunc U D.

Local Abbreviation t_start := (traced_obj_start obj_start_func).
Local Abbreviation t_end := (traced_obj_end obj_end_func).
Local Abbreviation t_value := (traced_process_value process_value_func).
Local Abbreviation state := (@vp_walk_state_t (U * list (@walk_event D)) D).



End WalkPath.

(** ** Typed values on the command line *)

Lemma substring_split (s : string) (n : nat) :
  n <= String.length s -> s = (substring 0 n s ++ str_from s n)%string.
Proof.
  revert n. induction s as [|c r IH]; intros n Hn.
  - destruct n; [reflexivity | simpl in Hn; lia].
  - destruct n as [|n].
    + rewrite str_from_0. reflexivity.
    + rewrite str_from_S. simpl in *. f_equal. apply IH. lia.
Qed.

Lemma index_of_split (c : ascii) (s : string) (i : nat) :
  index_of c s = Some i ->
  s = (substring 0 i s ++ String c (str_from s (S i)))%string
  /\ mem_char c (substring 0 i s) = false.
Proof.
  revert i. induction s as [|d r IH]; intros i; simpl; [discriminate|].
  destruct (Ascii.eqb c d) eqn:E.
  - intros [= <-]. apply Ascii.eqb_eq in E. subst d.
    rewrite str_from_S, str_from_0. split; reflexivity.
  - destruct (index_of c r) as [j|]; [|discriminate].
    intros [= <-]. destruct (IH j eq_refl) as [Hs Hm].
    rewrite str_from_S. simpl. rewrite E, Hm. split; [|reflexivity].
    f_equal. exact Hs.
Qed.

Lemma char_at_nul (s : string) (p : nat) :
  mem_char NUL s = false -> char_at s p = NUL -> String.length s <= p.
Proof.
  revert p. induction s as [|c r IH]; intros p Hm Hc; simpl; [lia|].
  cbn [mem_char] in Hm. apply orb_false_iff in Hm as [Hc0 Hr].
  destruct p as [|p].
  - change (char_at (String c r) 0) with c in Hc. subst c. discriminate.
  - change (char_at (String c r) (S p)) with (char_at r p) in Hc.
    specialize (IH p Hr Hc). lia.
Qed.

(** [TYPE(VALUE)] is taken apart without losing a byte: the type is what
    stands before the opening parenthesis, the value what stands between
    it and the closing one, which ends the text.  A text of any other form
    is the value as it is, with no type. *)
Theorem parse_type_round_trip (spec : string) :
  mem_char NUL spec = false ->
  match value_pairs_parse_type spec with
  | (v, Some t) =>
      spec = (t ++ "(" ++ v ++ ")")%string /\ mem_char ")" v = false
  | (v, None) => v = spec
  end.
Proof.
  intros Hnul. unfold value_pairs_parse_type. cbv zeta.
  set (sp := 0 + _ + _).
  destruct (negb (Ascii.eqb (char_at spec sp) "(") || _) eqn:Eform;
    [reflexivity|].
  apply orb_false_iff in Eform as [Eopen _].
  apply negb_false_iff, Ascii.eqb_eq in Eopen.
  assert (Hsp : sp < String.length spec).
  { apply char_at_lt. rewrite Eopen. discriminate. }
  pose proof (char_at_str_from spec sp) as Hhead. rewrite Eopen in Hhead.
  destruct (str_from spec sp) as [|c r] eqn:Erest; [discriminate|].
  subst c. cbn [index_of]. change (Ascii.eqb ")" "(") with false. cbv iota.
  destruct (index_of ")" r) as [i|] eqn:Eidx; [|reflexivity].
  destruct (negb (Ascii.eqb (char_at spec (S (sp + S i))) NUL)) eqn:Eend;
    [reflexivity|].
  apply negb_false_iff, Ascii.eqb_eq in Eend.
  pose proof (char_at_nul spec _ Hnul Eend) as Hlen.
  destruct (index_of_split ")" r i Eidx) as [Hr Hclose].
  assert (Hr1 : str_from spec (S sp) = r).
  { replace (S sp) with (sp + 1) by lia.
    rewrite <- str_from_add, Erest, str_from_S. apply str_from_0. }
  assert (Htail : str_from r (S i) = "").
  { assert (L : String.length (str_from r (S i)) = 0).
    { rewrite <- Hr1, str_from_add, str_from_length. lia. }
    destruct (str_from r (S i)); [reflexivity | discriminate]. }
  replace (sp + S i - S sp) with i by lia.
  rewrite <- (substring_str_from spec (S sp) i), Hr1.
  split; [|exact Hclose].
  rewrite (substring_split spec sp ltac:(lia)) at 1.
  rewrite Erest. f_equal. simpl. f_equal.
  rewrite Hr at 1. rewrite Htail. reflexivity.
Qed.

Lemma parse_type_round_trip_witness :
  match value_pairs_parse_type "int32(5)" with
  | (v, Some t) =>
      "int32(5)" = (t ++ "(" ++ v ++ ")")%string /\ mem_char ")" v = false
  | (v, None) => v = "int32(5)"
  end.
Proof. exact (parse_type_round_trip "int32(5)" eq_refl). Defined.

(** ** Options in the order of the command line *)

Section BuilderOrder.

Context {host : Host}.

Variable cfg_process_flag : list CfgFlagHandler -> Z -> string -> bool * Z.
Variable log_template_new : LogTemplate.
Variable log_template_compile : LogTemplate -> string -> option LogTemplate.
Variable log_template_set_type_hint :
  LogTemplate -> option string -> option LogTemplate.

Local Abbreviation parse :=
  (g_option_context_parse cfg_process_flag log_template_new
     log_template_compile log_template_set_type_hint).

Local Abbreviation run :=
  (run_arg cfg_process_flag log_template_new log_template_compile
     log_template_set_type_hint).

Lemma patterns_loop_same_flag (pats : list string) (inc : bool) (n : string)
  (seed : bool) :
  patterns_loop (map (fun p => mkVPPatternSpec p inc) pats) n seed
  = if existsb (fun p => g_pattern_match_string p n) pats then inc else seed.
Proof.
  revert seed. induction pats as [|p pats IH]; intros seed; simpl.
  - reflexivity.
  - rewrite IH. unfold vp_pattern_spec_eval. simpl.
    destruct (g_pattern_match_string p n); simpl.
    + destruct (existsb _ pats); reflexivity.
    + reflexivity.
Qed.

Lemma add_glob_patterns_fold (pats : list string) (inc : bool)
  (vp : ValuePairs) :
  patterns (fold_left (fun vp p => value_pairs_add_glob_pattern vp p inc)
                      pats vp)
  = patterns vp ++ map (fun p => mkVPPatternSpec p inc) pats.
Proof.
  revert vp. induction pats as [|p pats IH]; intros vp; simpl.
  - now rewrite app_nil_r.
  - rewrite IH. simpl. rewrite <- app_assoc. reflexivity.
Qed.

Lemma rekey_finish_patterns (data : cmdline_args) :
  patterns (args_vp (vp_cmdline_parse_rekey_finish data))
  = patterns (args_vp data).
Proof.
  unfold vp_cmdline_parse_rekey_finish.
  destruct (args_vpts data); reflexivity.
Qed.

(** [--exclude] and [--key] never fail, and they decide for the names
    they match whatever came before them on the command line: a name
    matched by one of the globs of the list is excluded by [--exclude] and
    included by [--key]; for every other name the answer is what it was. *)
Theorem pattern_options_decide (value : string) (data : cmdline_args)
  (n : string) (seed : bool) :
  (fst (run (LongOption "exclude" value) data) = None
   /\ vp_find_in_set (args_vp (snd (run (LongOption "exclude" value) data)))
                     n seed
      = if existsb (fun p => g_pattern_match_string p n)
                   (g_strsplit value ",")
        then false
        else vp_find_in_set (args_vp data) n seed)
  /\ (fst (run (LongOption "key" value) data) = None
      /\ vp_find_in_set (args_vp (snd (run (LongOption "key" value) data)))
                        n seed
         = if existsb (fun p => g_pattern_match_string p n)
                      (g_strsplit value ",")
           then true
           else vp_find_in_set (args_vp data) n seed).
Proof.
  split; (split; [reflexivity|]);
    unfold run_arg; cbn [dispatch fst snd]; simpl find_long; cbv iota;
    cbn [arg_data];
    unfold vp_cmdline_parse_exclude, vp_cmdline_parse_key,
      vp_cmdline_start_key, vp_find_in_set; cbn [args_vp snd];
    rewrite add_glob_patterns_fold, patterns_loop_app,
      patterns_loop_same_flag, rekey_finish_patterns; reflexivity.
Qed.

Lemma rekey_step_runs (a : GOptionArg) (t : ValuePairsTransform)
  (data data1 : cmdline_args) (vpts : ValuePairsTransformSet) :
  step_of_option a = Some t ->
  vp_cmdline_rekey_verify (args_key data) (args_vpts data) data
  = (Some vpts, data1) ->
  run a data = (None, add_step data1 vpts t).
Proof.
  intros Ha Hv. unfold run_arg.
  destruct a as [n v|c v|v]; cbn [step_of_option] in Ha; [| |discriminate].
  - destruct (String.eqb n "shift") eqn:E1;
      [apply String.eqb_eq in E1; subst n; injection Ha as <-; cbn;
       unfold vp_cmdline_parse_rekey_shift; rewrite Hv; reflexivity|].
    destruct (String.eqb n "add-prefix") eqn:E2;
      [apply String.eqb_eq in E2; subst n; injection Ha as <-; cbn;
       unfold vp_cmdline_parse_rekey_add_prefix; rewrite Hv; reflexivity|].
    destruct (String.eqb n "replace-prefix" || String.eqb n "replace")
      eqn:E3; [|discriminate].
    destruct (strchr v "=") eqn:Eq; [|discriminate]. injection Ha as <-.
    apply orb_true_iff in E3 as [E3|E3]; apply String.eqb_eq in E3; subst n;
      cbn; unfold vp_cmdline_parse_rekey_replace_prefix; rewrite Hv, Eq;
      reflexivity.
  - destruct (Ascii.eqb c "S") eqn:E1;
      [apply Ascii.eqb_eq in E1; subst c; injection Ha as <-; cbn;
       unfold vp_cmdline_parse_rekey_shift; rewrite Hv; reflexivity|].
    destruct (Ascii.eqb c "A") eqn:E2;
      [apply Ascii.eqb_eq in E2; subst c; injection Ha as <-; cbn;
       unfold vp_cmdline_parse_rekey_add_prefix; rewrite Hv; reflexivity|].
    destruct (Ascii.eqb c "R") eqn:E3; [|discriminate].
    destruct (strchr v "=") eqn:Eq; [|discriminate]. injection Ha as <-.
    apply Ascii.eqb_eq in E3; subst c;
      cbn; unfold vp_cmdline_parse_rekey_replace_prefix; rewrite Hv, Eq;
      reflexivity.
Qed.

(** Steps that come while a transform set is open are added to it. *)
Lemma rekey_steps_open (opts : list GOptionArg)
  (ts : list ValuePairsTransform) (vp : ValuePairs)
  (vpts : ValuePairsTransformSet) (k : option string) :
  map step_of_option opts = map Some ts ->
  parse opts (mkArgs vp (Some vpts) k)
  = (None, mkArgs vp (Some (mkTransformSet (base_key vpts)
                                           (steps vpts ++ ts))) k).
Proof.
  revert ts vpts. induction opts as [|a opts IH]; intros ts vpts Hts.
  - destruct ts; [|discriminate]. simpl. rewrite app_nil_r.
    destruct vpts; reflexivity.
  - destruct ts as [|t ts]; [discriminate|]. simpl in Hts.
    injection Hts as Ha Hts.
    rewrite parse_cons.
    rewrite (rekey_step_runs a t (mkArgs vp (Some vpts) k)
               (mkArgs vp (Some vpts) k) vpts Ha eq_refl).
    unfold add_step. cbn [args_vp args_key].
    rewrite (IH ts _ Hts). unfold value_pairs_transform_set_add_func.
    cbn [base_key steps]. rewrite <- app_assoc. reflexivity.
Qed.

(** A rekey context collects its steps: after [--rekey KEY] and the
    options of its steps, all of them well formed, the parse has not
    failed, and closing the context leaves the object as it was when the
    context was opened but for one transform set more, that of [KEY] with
    the steps in the order of the command line; a context without steps
    leaves no transform set. *)
Theorem rekey_context_collects_steps (key : string) (opts : list GOptionArg)
  (ts : list ValuePairsTransform) (data : cmdline_args) :
  map step_of_option opts = map Some ts ->
  fst (parse (LongOption "rekey" key :: opts) data) = None
  /\ args_vp (vp_cmdline_parse_rekey_finish
                (snd (parse (LongOption "rekey" key :: opts) data)))
     = mkValuePairs
         (patterns (args_vp (vp_cmdline_parse_rekey_finish data)))
         (vpairs (args_vp (vp_cmdline_parse_rekey_finish data)))
         (transforms (args_vp (vp_cmdline_parse_rekey_finish data))
          ++ context_transforms key ts)
         (scopes (args_vp (vp_cmdline_parse_rekey_finish data))).
Proof.
  intros Hts. rewrite parse_cons.
  change (run (LongOption "rekey" key) data)
    with (@None GError, vp_cmdline_start_key data key).
  cbv iota. unfold vp_cmdline_start_key.
  set (vp0 := args_vp (vp_cmdline_parse_rekey_finish data)).
  assert (Hfin : args_vpts (vp_cmdline_parse_rekey_finish data) = None)
    by reflexivity.
  rewrite Hfin.
  destruct opts as [|a opts].
  - destruct ts; [|discriminate]. simpl. split; [reflexivity|].
    rewrite app_nil_r. destruct vp0; reflexivity.
  - destruct ts as [|t ts]; [discriminate|]. simpl in Hts.
    injection Hts as Ha Hts.
    rewrite parse_cons.
    rewrite (rekey_step_runs a t (mkArgs vp0 None (Some key))
               (mkArgs vp0 (Some (value_pairs_transform_set_new key)) None)
               (value_pairs_transform_set_new key) Ha eq_refl).
    unfold add_step. cbn [args_vp args_key].
    rewrite (rekey_steps_open opts ts vp0 _ None Hts).
    split; reflexivity.
Qed.

End BuilderOrder.

Lemma rekey_context_collects_steps_witness :
  fst (g_option_context_parse cfg_process_flag_spec Demo.demo_template_new
         Demo.demo_template_compile Demo.demo_set_type_hint
         [LongOption "rekey" ".sdata.*"; LongOption "shift" "1";
          ShortOption "A" "x."] initial_args) = None
  /\ args_vp (vp_cmdline_parse_rekey_finish
                (snd (g_option_context_parse cfg_process_flag_spec
                        Demo.demo_template_new Demo.demo_template_compile
                        Demo.demo_set_type_hint
                        [LongOption "rekey" ".sdata.*";
                         LongOption "shift" "1"; ShortOption "A" "x."]
                        initial_args)))
     = mkValuePairs
         (patterns (args_vp (vp_cmdline_parse_rekey_finish initial_args)))
         (vpairs (args_vp (vp_cmdline_parse_rekey_finish initial_args)))
         (transforms (args_vp (vp_cmdline_parse_rekey_finish initial_args))
          ++ context_transforms ".sdata.*"
               [TransformShift 1; TransformAddPrefix "x."])
         (scopes (args_vp (vp_cmdline_parse_rekey_finish initial_args))).
Proof.
  exact (rekey_context_collects_steps cfg_process_flag_spec
           Demo.demo_template_new Demo.demo_template_compile
           Demo.demo_set_type_hint ".sdata.*"
           [LongOption "shift" "1"; ShortOption "A" "x."]
           [TransformShift 1; TransformAddPrefix "x."] initial_args eq_refl).
Defined.

(** ** One map, two traversals *)

Lemma strcmp_c_str_l (a b : string) : strcmp a b = strcmp (c_str a) b.
Proof.
  revert b. induction a as [|c r IH]; intros b; [reflexivity|].
  cbn [c_str]. destruct (Ascii.eqb c NUL) eqn:N.
  - apply Ascii.eqb_eq in N. subst c. destruct b as [|d s]; cbn [strcmp].
    + reflexivity.
    + destruct (Ascii.eqb NUL d) eqn:E; [|reflexivity].
      apply Ascii.eqb_eq in E. subst d. reflexivity.
  - destruct b as [|d s]; cbn [strcmp]; [reflexivity|].
    rewrite N. destruct (Ascii.eqb c d); [apply IH | reflexivity].
Qed.

Lemma strcmp_zero_l (k k' x : string) :
  strcmp k k' = 0%Z -> strcmp k x = strcmp k' x.
Proof.
  intros H. apply strcmp_zero_iff in H.
  rewrite (strcmp_c_str_l k), (strcmp_c_str_l k'), H. reflexivity.
Qed.

Section Reversed.

Context {V : Type}.
Variable cmp : string -> string -> Z.
Hypothesis cmp_neg : forall a b, cmp b a = (- cmp a b)%Z.
Hypothesis cmp_trans :
  forall a b c, (cmp a b < 0)%Z -> (cmp b c < 0)%Z -> (cmp a c < 0)%Z.
Hypothesis cmp_zero :
  forall k k' x, cmp k k' = 0%Z -> cmp k x = cmp k' x.

Let flipped : string -> string -> Z := fun a b => cmp b a.

(** Insertion passes the nodes that come before the key. *)
Lemma insert_nodes_skip (c : string -> string -> Z)
  (a b : list (string * V)) (k : string) (v : V) :
  Forall (fun x => (0 < c k (fst x))%Z) a ->
  insert_nodes c (a ++ b) k v = a ++ insert_nodes c b k v.
Proof.
  induction 1 as [|[k' v'] a Hx _ IH]; [reflexivity|].
  simpl in *. rewrite IH.
  destruct (c k k' =? 0)%Z eqn:E0; [apply Z.eqb_eq in E0; lia|].
  destruct (c k k' <? 0)%Z eqn:E1; [apply Z.ltb_lt in E1; lia|].
  reflexivity.
Qed.

(** Insertion does not look behind a node that comes after the key. *)
Lemma insert_nodes_before_last (c : string -> string -> Z)
  (a : list (string * V)) (k' : string) (v' : V) (k : string) (v : V) :
  (c k k' < 0)%Z ->
  insert_nodes c (a ++ [(k', v')]) k v = insert_nodes c a k v ++ [(k', v')].
Proof.
  intros Hlt. induction a as [|[x vx] a IH]; simpl.
  - destruct (c k k' =? 0)%Z eqn:E0; [apply Z.eqb_eq in E0; lia|].
    destruct (c k k' <? 0)%Z eqn:E1; [reflexivity|].
    apply Z.ltb_ge in E1. lia.
  - destruct (c k x =? 0)%Z; [reflexivity|].
    destruct (c k x <? 0)%Z; [reflexivity|].
    rewrite IH. reflexivity.
Qed.

(** Inserting into the reversed list under the reversed comparison gives
    the reversed list. *)
Lemma insert_nodes_rev (l : list (string * V)) (k : string) (v : V) :
  ascending cmp (map fst l) ->
  insert_nodes flipped (rev l) k v = rev (insert_nodes cmp l k v).
Proof.
  induction l as [|[k' v'] l IH]; intros Hs; [reflexivity|].
  destruct Hs as [Hh Ht]. simpl in Hh. cbn [rev insert_nodes]. cbv zeta.
  destruct (cmp k k' =? 0)%Z eqn:E0.
  - apply Z.eqb_eq in E0. cbn [rev].
    rewrite insert_nodes_skip.
    + simpl. unfold flipped at 1. rewrite cmp_neg, E0. reflexivity.
    + apply Forall_rev. rewrite Forall_map in Hh.
      eapply Forall_impl; [|exact Hh]. intros x Hx. simpl in Hx.
      unfold flipped. rewrite cmp_neg, (cmp_zero k k' (fst x) E0). lia.
  - apply Z.eqb_neq in E0. destruct (cmp k k' <? 0)%Z eqn:E1.
    + apply Z.ltb_lt in E1. cbn [rev].
      rewrite <- app_assoc. rewrite insert_nodes_skip.
      * simpl. unfold flipped at 1 2. rewrite (cmp_neg k k').
        destruct (- cmp k k' =? 0)%Z eqn:F0; [apply Z.eqb_eq in F0; lia|].
        destruct (- cmp k k' <? 0)%Z eqn:F1; [apply Z.ltb_lt in F1; lia|].
        reflexivity.
      * apply Forall_rev. rewrite Forall_map in Hh.
        eapply Forall_impl; [|exact Hh]. intros x Hx. simpl in Hx.
        unfold flipped. rewrite cmp_neg.
        pose proof (cmp_trans k k' (fst x) E1 Hx). lia.
    + apply Z.ltb_ge in E1. cbn [rev].
      rewrite insert_nodes_before_last.
      * rewrite (IH Ht). reflexivity.
      * unfold flipped. rewrite cmp_neg. lia.
Qed.

End Reversed.

Section TwoTraversals.

Context {host : Host}.

(** The phases do not look at the scope set: what holds of two empty
    trees and is kept when the same key and value are inserted into both
    holds of the scope sets built under two comparisons. *)
Lemma value_pairs_scope_set_rect2
  (P : GTree SBTHGString -> GTree SBTHGString -> Prop)
  (vp : ValuePairs) (cmp1 cmp2 : string -> string -> Z) (args : EvalArgs) :
  P (g_tree_new_full cmp1) (g_tree_new_full cmp2) ->
  (forall t1 t2 k sb, P t1 t2 ->
                      P (g_tree_insert t1 k sb) (g_tree_insert t2 k sb)) ->
  P (value_pairs_scope_set vp cmp1 args) (value_pairs_scope_set vp cmp2 args).
Proof.
  intros Hnew Hins.
  assert (Hnv : forall entries t1 t2, P t1 t2 ->
            P (nv_table_foreach_entries entries (vp_msg_nvpairs_foreach vp)
                 t1)
              (nv_table_foreach_entries entries (vp_msg_nvpairs_foreach vp)
                 t2)).
  { induction entries as [|[[h n] v] entries IH]; intros t1 t2 Ht; simpl.
    - exact Ht.
    - unfold vp_msg_nvpairs_foreach at 1 3.
      destruct (String.length v =? 0)%nat; [now apply IH|].
      cbv zeta. destruct (negb _); [now apply IH|].
      apply IH. now apply Hins. }
  assert (Hmerge : forall set seed t1 t2, P t1 t2 ->
            P (vp_merge_other_set vp args set t1 seed)
              (vp_merge_other_set vp args set t2 seed)).
  { induction set as [|e set IH]; intros seed t1 t2 Ht; simpl.
    - exact Ht.
    - destruct (negb _); [now apply IH|].
      destruct (String.length _ =? 0)%nat; [now apply IH|].
      apply IH. now apply Hins. }
  assert (Hbase : P (value_pairs_base_set vp args (g_tree_new_full cmp1))
                    (value_pairs_base_set vp args (g_tree_new_full cmp2))).
  { unfold value_pairs_base_set, value_pairs_nvpairs_set, vp_merge_macros,
      vp_merge_set, nv_table_foreach. cbv zeta.
    repeat match goal with
           | |- P (if ?c then _ else _) (if ?c then _ else _) => destruct c
           | |- P (vp_merge_other_set _ _ _ _ _) _ => apply Hmerge
           | |- P (nv_table_foreach_entries _ _ _) _ => apply Hnv
           end; exact Hnew. }
  unfold value_pairs_scope_set. cbv zeta.
  revert Hbase.
  generalize (value_pairs_base_set vp args (g_tree_new_full cmp1)).
  generalize (value_pairs_base_set vp args (g_tree_new_full cmp2)).
  induction (vpairs vp) as [|vpc l IH]; intros t2 t1 Ht; simpl.
  - exact Ht.
  - apply IH. unfold vp_pairs_foreach. cbv zeta.
    destruct (String.length _ =? 0)%nat; [exact Ht|].
    now apply Hins.
Qed.

(** The walker and the flat traversal work on the same map: the scope
    set built for the walker holds the nodes of the scope set built for
    [value_pairs_foreach], keys and values alike, in the reverse order. *)
Theorem walk_set_is_foreach_set_reversed (vp : ValuePairs)
  (args : EvalArgs) :
  nodes (value_pairs_scope_set vp vp_walk_cmp args)
  = rev (nodes (value_pairs_scope_set vp strcmp args)).
Proof.
  enough (H : key_compare (value_pairs_scope_set vp strcmp args) = strcmp
              /\ key_compare (value_pairs_scope_set vp vp_walk_cmp args)
                 = vp_walk_cmp
              /\ ascending strcmp
                   (tree_keys (value_pairs_scope_set vp strcmp args))
              /\ nodes (value_pairs_scope_set vp vp_walk_cmp args)
                 = rev (nodes (value_pairs_scope_set vp strcmp args)))
    by apply H.
  apply (value_pairs_scope_set_rect2
           (fun t1 t2 =>
              key_compare t1 = strcmp /\ key_compare t2 = vp_walk_cmp
              /\ ascending strcmp (tree_keys t1)
              /\ nodes t2 = rev (nodes t1))).
  - repeat split.
  - intros t1 t2 k sb (C1 & C2 & Hs & Hr).
    split; [exact C1|]. split; [exact C2|]. split.
    + unfold tree_keys, g_tree_insert. simpl. rewrite C1.
      apply insert_nodes_ascending; [| exact strcmp_trans_lt | exact Hs].
      intros a b H. rewrite strcmp_antisym. lia.
    + unfold g_tree_insert. simpl. rewrite C1, C2, Hr.
      apply (insert_nodes_rev strcmp strcmp_antisym strcmp_trans_lt
               strcmp_zero_l (nodes t1) k sb Hs).
Qed.

End TwoTraversals.

(** ** The debug tag *)

Section DebugTag.

Context {host : Host}.

Lemma debug_append_all (l : list (string * SBTHGString)) (text : string) :
  foreach_nodes l (vp_foreach_helper value_pairs_debug_append) (text, true)
  = ((text
      ++ fold_right append ""
           (map (fun kv => fst kv ++ "=" ++ c_str (sb_string (snd kv)) ++ " ")
                l))
       %string,
     true).
Proof.
  revert text. induction l as [|[k v] l IH]; intros text.
  - simpl. now rewrite append_nil_r.
  - cbn [foreach_nodes vp_foreach_helper value_pairs_debug_append].
    cbn [andb negb]. rewrite IH. cbn [map fold_right fst snd].
    rewrite !append_assoc. reflexivity.
Qed.

(** The debug tag lists every pair of the map as [name=value] followed by
    a blank, in the ascending order of the names, under the key it was
    given; the value is printed with [%s], as a C string. *)
Theorem evt_tag_lists_every_pair (key : string) (vp : ValuePairs)
  (args : EvalArgs) :
  evt_tag_value_pairs key vp args
  = (key,
     fold_right append ""
       (map (fun kv => fst kv ++ "=" ++ c_str (sb_string (snd kv)) ++ " ")
            (nodes (value_pairs_scope_set vp strcmp args))))%string.
Proof.
  unfold evt_tag_value_pairs, value_pairs_foreach,
    value_pairs_foreach_sorted, g_tree_foreach. cbv zeta.
  rewrite debug_append_all. reflexivity.
Qed.

End DebugTag.

(** ** The phases write in order *)

Section LastWrite.

Context {V : Type}.
Variable cmp : string -> string -> Z.
Hypothesis cmp_refl : forall a, cmp a a = 0%Z.
Hypothesis cmp_zero_trans :
  forall a b c, cmp a c = 0%Z -> cmp b c = 0%Z -> cmp a b = 0%Z.

Lemma cmp_zero_sym (a b : string) : cmp a b = 0%Z -> cmp b a = 0%Z.
Proof. intros H. exact (cmp_zero_trans b a b (cmp_refl b) H). Qed.

Lemma lookup_insert_equal (l : list (string * V)) (k k1 : string) (v1 : V) :
  cmp k k1 = 0%Z -> lookup_nodes cmp (insert_nodes cmp l k1 v1) k = Some v1.
Proof.
  intros Hk. induction l as [|[x vx] l IH]; simpl.
  - rewrite Hk. reflexivity.
  - destruct (cmp k1 x =? 0)%Z eqn:E0; simpl.
    + apply Z.eqb_eq in E0.
      assert (H : cmp k x = 0%Z).
      { apply (cmp_zero_trans k x k1 Hk). now apply cmp_zero_sym. }
      rewrite H. reflexivity.
    + destruct (cmp k1 x <? 0)%Z; simpl.
      * rewrite Hk. reflexivity.
      * destruct (cmp k x =? 0)%Z eqn:E1; [|exact IH].
        exfalso. apply Z.eqb_eq in E1. apply Z.eqb_neq in E0. apply E0.
        apply (cmp_zero_trans k1 x k); [now apply cmp_zero_sym|].
        now apply cmp_zero_sym.
Qed.

Lemma lookup_fold_insert (writes : list (string * V)) (l : list (string * V))
  (k : string) :
  lookup_nodes cmp
    (fold_left (fun l kv => insert_nodes cmp l (fst kv) (snd kv)) writes l) k
  = match find (fun kv => (cmp k (fst kv) =? 0)%Z) (rev writes) with
    | Some kv => Some (snd kv)
    | None => lookup_nodes cmp l k
    end.
Proof.
  revert l. induction writes as [|[k1 v1] writes IH] using rev_ind;
    intros l; [reflexivity|].
  rewrite fold_left_app, rev_app_distr. simpl.
  destruct (cmp k k1 =? 0)%Z eqn:E.
  - apply Z.eqb_eq in E. now apply lookup_insert_equal.
  - apply Z.eqb_neq in E.
    rewrite (lookup_insert_other cmp _ k k1 v1 cmp_zero_trans E). apply IH.
Qed.

End LastWrite.

Section Phases.

Context {host : Host}.

Local Abbreviation write :=
  (fun (t : GTree SBTHGString) (kv : string * SBTHGString) =>
     g_tree_insert t (fst kv) (snd kv)).

Lemma nv_phase_writes (vp : ValuePairs)
  (entries : list (NVHandle * string * string)) (t : GTree SBTHGString) :
  nv_table_foreach_entries entries (vp_msg_nvpairs_foreach vp) t
  = fold_left write (flat_map (nv_insertion vp) entries) t.
Proof.
  revert t. induction entries as [|[[h n] v] entries IH]; intros t;
    [reflexivity|].
  cbn [nv_table_foreach_entries flat_map]. rewrite fold_left_app.
  unfold vp_msg_nvpairs_foreach at 1. unfold nv_insertion at 2.
  cbv beta iota.
  destruct (String.length v =? 0)%nat; [apply IH|].
  cbv zeta. destruct (patterns_loop _ _ _); simpl; apply IH.
Qed.

Lemma merge_writes (vp : ValuePairs) (args : EvalArgs)
  (set : list ValuePairSpec) (t : GTree SBTHGString) (seed : bool) :
  vp_merge_other_set vp args set t seed
  = fold_left write (flat_map (set_insertion vp args seed) set) t.
Proof.
  revert t. induction set as [|e set IH]; intros t; [reflexivity|].
  cbn [vp_merge_other_set flat_map]. rewrite fold_left_app.
  unfold set_insertion at 2. cbv zeta.
  destruct (vp_find_in_set vp (spec_name e) seed); simpl; [|apply IH].
  destruct (String.length _ =? 0)%nat; simpl; apply IH.
Qed.

Lemma pairs_write (vp : ValuePairs) (args : EvalArgs) (l : list VPPairConf)
  (t : GTree SBTHGString) :
  fold_left (fun scope_set vpc => vp_pairs_foreach vp args vpc scope_set) l t
  = fold_left write (flat_map (pair_insertion vp args) l) t.
Proof.
  revert t. induction l as [|vpc l IH]; intros t; [reflexivity|].
  cbn [fold_left flat_map]. rewrite fold_left_app, IH.
  unfold vp_pairs_foreach, pair_insertion. cbv zeta.
  destruct (String.length _ =? 0)%nat; reflexivity.
Qed.

(** The scope set is what the writes of the phases leave, one after the
    other. *)
Lemma scope_set_writes (vp : ValuePairs)
  (compare_func : string -> string -> Z) (args : EvalArgs) :
  value_pairs_scope_set vp compare_func args
  = fold_left write (insertions vp args) (g_tree_new_full compare_func).
Proof.
  unfold value_pairs_scope_set, value_pairs_base_set,
    value_pairs_nvpairs_set, vp_merge_macros, vp_merge_set, nv_table_foreach,
    insertions. cbv zeta.
  rewrite !fold_left_app, pairs_write.
  repeat match goal with
         | |- context [if ?c then _ else _] => destruct c
         end;
    rewrite ?merge_writes, ?nv_phase_writes; reflexivity.
Qed.

Lemma fold_write_nodes (cmp : string -> string -> Z)
  (writes : list (string * SBTHGString)) (t : GTree SBTHGString) :
  key_compare t = cmp ->
  key_compare (fold_left write writes t) = cmp
  /\ nodes (fold_left write writes t)
     = fold_left (fun l kv => insert_nodes cmp l (fst kv) (snd kv)) writes
                 (nodes t).
Proof.
  revert t. induction writes as [|kv writes IH]; intros t Hc; simpl.
  - split; [exact Hc | reflexivity].
  - destruct (IH (g_tree_insert t (fst kv) (snd kv)) Hc) as [H1 H2].
    split; [exact H1|]. rewrite H2. simpl. rewrite Hc. reflexivity.
Qed.

(** The phases write in order and the last write wins: the value the map
    holds under a key is the one written last under it, in the order
    name-value pairs of the message, macros picked by the patterns,
    rfc3164, rfc5424, selected macros, all macros, explicit pairs; and the
    map holds no key that no phase wrote.  This holds of the map of
    [value_pairs_foreach] and of the map of the walker. *)
Theorem later_phase_overrides (vp : ValuePairs) (args : EvalArgs)
  (k : string) :
  g_tree_lookup (value_pairs_scope_set vp strcmp args) k
  = last_write strcmp (insertions vp args) k
  /\ g_tree_lookup (value_pairs_scope_set vp vp_walk_cmp args) k
     = last_write vp_walk_cmp (insertions vp args) k.
Proof.
  split; rewrite scope_set_writes; unfold g_tree_lookup, last_write.
  - destruct (fold_write_nodes strcmp (insertions vp args)
                (g_tree_new_full strcmp) eq_refl) as [Hc Hn].
    rewrite Hc, Hn.
    rewrite (lookup_fold_insert strcmp strcmp_refl strcmp_zero_trans).
    reflexivity.
  - destruct (fold_write_nodes vp_walk_cmp (insertions vp args)
                (g_tree_new_full vp_walk_cmp) eq_refl) as [Hc Hn].
    rewrite Hc, Hn.
    rewrite (lookup_fold_insert vp_walk_cmp vp_walk_cmp_refl
               vp_walk_cmp_zero_trans).
    reflexivity.
Qed.

End Phases.

(** ** Pairs on the command line *)

Lemma mem_char_index_of (c : ascii) (s : string) :
  mem_char c s = true -> exists i, index_of c s = Some i.
Proof.
  induction s as [|d r IH]; simpl; [discriminate|].
  destruct (Ascii.eqb c d); [intros _; now exists 0|].
  simpl. intros H. destruct (IH H) as (i & ->). now exists (S i).
Qed.

Section PairOption.

Variable cfg_process_flag : list CfgFlagHandler -> Z -> string -> bool * Z.
Variable log_template_new : LogTemplate.
Variable log_template_compile : LogTemplate -> string -> option LogTemplate.
Variable log_template_set_type_hint :
  LogTemplate -> option string -> option LogTemplate.

Local Abbreviation run :=
  (run_arg cfg_process_flag log_template_new log_template_compile
     log_template_set_type_hint).

(** A pair is split at its first equal sign: the key is what stands
    before it, and what stands after it, further equal signs included, is
    the typed value.  When the template compiles and takes the type, the
    pair is added after the pairs the object already has, and the rekey
    context is closed.  An argument that is no option and holds an equal
    sign is a pair like that of [--pair]. *)
Theorem pair_option_adds_pair (value : string) (data : cmdline_args) :
  strchr value "=" = true ->
  exists k rest,
    value = (k ++ "=" ++ rest)%string
    /\ mem_char "=" k = false
    /\ run (Remaining value) data = run (LongOption "pair" value) data
    /\ forall t t',
         log_template_compile log_template_new
           (fst (value_pairs_parse_type rest)) = Some t ->
         log_template_set_type_hint t (snd (value_pairs_parse_type rest))
         = Some t' ->
         run (LongOption "pair" value) data
         = (None,
            mkArgs (value_pairs_add_pair
                      (args_vp (vp_cmdline_parse_rekey_finish data)) k t')
                   None None).
Proof.
  intros Heq. unfold strchr in Heq.
  destruct (mem_char_index_of "=" value Heq) as (i & Hi).
  destruct (index_of_split "=" value i Hi) as [Hsplit Hk].
  exists (substring 0 i value), (str_from value (S i)).
  split; [exact Hsplit|]. split; [exact Hk|].
  assert (Hkv : g_strsplit_2 value "="
                = [substring 0 i value; str_from value (S i)]).
  { unfold g_strsplit_2. rewrite Hi.
    destruct value; [discriminate | reflexivity]. }
  split.
  - unfold run_arg. cbn [dispatch]. simpl find_remaining. simpl find_long.
    cbv iota. cbn [arg_data]. unfold vp_cmdline_parse_pair_or_key.
    unfold strchr. rewrite Heq. reflexivity.
  - intros t t' Hc Ht. unfold run_arg. cbn [dispatch]. simpl find_long.
    cbv iota. cbn [arg_data]. unfold vp_cmdline_parse_pair.
    unfold strchr. rewrite Heq, Hkv. cbn [negb nth].
    destruct (value_pairs_parse_type (str_from value (S i))) as [v ty].
    simpl in Hc, Ht. rewrite Hc, Ht. reflexivity.
Qed.

End PairOption.

Lemma pair_option_adds_pair_witness :
  exists k rest,
    "a=int(5=x)" = (k ++ "=" ++ rest)%string
    /\ mem_char "=" k = false
    /\ run_arg cfg_process_flag_spec Demo.demo_template_new
         Demo.demo_template_compile Demo.demo_set_type_hint
         (Remaining "a=int(5=x)") initial_args
       = run_arg cfg_process_flag_spec Demo.demo_template_new
           Demo.demo_template_compile Demo.demo_set_type_hint
           (LongOption "pair" "a=int(5=x)") initial_args
    /\ forall t t',
         Demo.demo_template_compile Demo.demo_template_new
           (fst (value_pairs_parse_type rest)) = Some t ->
         Demo.demo_set_type_hint t (snd (value_pairs_parse_type rest))
         = Some t' ->
         run_arg cfg_process_flag_spec Demo.demo_template_new
           Demo.demo_template_compile Demo.demo_set_type_hint
           (LongOption "pair" "a=int(5=x)") initial_args
         = (None,
            mkArgs (value_pairs_add_pair
                      (args_vp (vp_cmdline_parse_rekey_finish initial_args))
                      k t')
                   None None).
Proof.
  exact (pair_option_adds_pair cfg_process_flag_spec Demo.demo_template_new
           Demo.demo_template_compile Demo.demo_set_type_hint
           "a=int(5=x)" initial_args eq_refl).
Defined.
